(** * openapi-ts: context, 3.1.x path parsing and the Zod schema emitter

    A shallow embedding of
    - [packages/openapi-ts/src/ir/context.ts] (event bus, file registry,
      [dereference], plugin registration),
    - the loops over [components.parameters], [components.requestBodies]
      and [spec.paths] of [parseV3_1_X],
    - the Zod plugin ([schemaToZodSchema], [operationToZodSchema], the
      per-type emitters and the subscribers of [handler]),
    - [createMutationOptions] of the Pinia Colada plugin,
    together with the properties the specification states about them and
    further properties read off the code.

    Conventions.  A JavaScript object used as a dictionary is a [gmap]
    when only lookups matter and an association list in enumeration order
    when the code iterates over it.  A [Set<string>] is a [gset string].
    Code that mutates shared objects is written in state-passing style;
    [throw] is an explicit result.  Numbers that the code only copies into
    the output are integers. *)

From Stdlib Require Import Ascii.
From stdpp Require Import gmap strings list fin_maps pretty.

Set Warnings "-register-all".
Set Default Proof Using "Type".
Open Scope string_scope.
Open Scope list_scope.

(** ** JavaScript odds and ends *)

Module Js.

(** Truthiness of an optional string: [undefined] and [''] are falsy. *)
Definition truthy (o : option string) : option string :=
    match o with
    | Some s => if decide (s = "") then None else Some s
    | None => None
    end.

Lemma truthy_Some o s : truthy o = Some s -> o = Some s /\ s <> "".
Proof.
    unfold truthy. destruct o as [x|]; [|discriminate].
    destruct (decide (x = "")); [discriminate|]. intros [= ->]. auto.
Qed.

Lemma truthy_intro s : s <> "" -> truthy (Some s) = Some s.
Proof. intros H. unfold truthy. destruct (decide (s = "")); congruence. Qed.

Definition is_digit (c : ascii) : bool :=
    let n := Ascii.N_of_ascii c in ((48 <=? n) && (n <=? 57))%N.

(** [\w]: letters, digits and the underscore. *)
Definition is_word (c : ascii) : bool :=
    let n := Ascii.N_of_ascii c in
    (((48 <=? n) && (n <=? 57)) || ((65 <=? n) && (n <=? 90))
     || ((97 <=? n) && (n <=? 122)) || (n =? 95))%N.

Fixpoint chars (s : string) : list ascii :=
    match s with
    | EmptyString => []
    | String c r => c :: chars r
    end.

(** [s.split(sep)] for a one-character separator: never empty. *)
Fixpoint split_on (sep : ascii) (s : string) : list string :=
    match s with
    | EmptyString => [""]
    | String c r =>
        if decide (c = sep) then "" :: split_on sep r
        else match split_on sep r with
             | [] => [String c ""]
             | w :: ws => String c w :: ws
             end
    end.

Lemma split_on_nonempty sep s : split_on sep s <> [].
Proof.
    destruct s as [|c r]; simpl; [discriminate|].
    destruct (decide (c = sep)); [discriminate|].
    destruct (split_on sep r); discriminate.
Qed.

Definition starts_with (c : ascii) (s : string) : bool :=
    match s with
    | String d _ => bool_decide (c = d)
    | EmptyString => false
    end.

Definition ends_with (c : ascii) (s : string) : bool :=
    match last (chars s) with
    | Some d => bool_decide (c = d)
    | None => false
    end.

(** The value of a string of decimal digits. *)
Fixpoint digits_value (acc : N) (l : list ascii) : option N :=
    match l with
    | [] => Some acc
    | c :: r =>
        if is_digit c
        then digits_value (acc * 10 + (Ascii.N_of_ascii c - 48))%N r
        else None
    end.

(** An array index in the sense of property enumeration: the canonical
      decimal form of an integer below [2^32 - 1]. *)
Definition array_index (k : string) : option N :=
    match chars k with
    | [] => None
    | c :: r =>
        if (bool_decide (c = "0"%char) && negb (bool_decide (r = [])))%bool
        then None
        else match digits_value 0 (c :: r) with
             | Some n => if (n <? 4294967295)%N then Some n else None
             | None => None
             end
    end.

(** *** Objects in enumeration order

      Own keys enumerate array indices first, ascending, then the other
      keys in creation order.  [obj_set] is the assignment [o[k] = v]. *)
Section Obj.
Context {V : Type}.

Fixpoint obj_get (k : string) (o : list (string * V)) : option V :=
      match o with
      | [] => None
      | (k', v) :: r => if decide (k = k') then Some v else obj_get k r
      end.

(** [o[k] = v] for a key the object has: the entry keeps its place. *)
Fixpoint obj_replace (k : string) (v : V) (o : list (string * V))
  : list (string * V) :=
  match o with
  | [] => []
  | (k', v') :: r =>
      if decide (k = k') then (k, v) :: r else (k', v') :: obj_replace k v r
  end.

(** A new array index goes before the first key that is a larger index
    or no index. *)
Fixpoint insert_index (n : N) (k : string) (v : V) (o : list (string * V))
  : list (string * V) :=
  match o with
  | [] => [(k, v)]
  | (k', v') :: r =>
      match array_index k' with
      | Some n' =>
          if (n' <? n)%N then (k', v') :: insert_index n k v r
          else (k, v) :: (k', v') :: r
      | None => (k, v) :: (k', v') :: r
      end
  end.

Definition obj_set (k : string) (v : V) (o : list (string * V))
  : list (string * V) :=
  match obj_get k o with
  | Some _ => obj_replace k v o
  | None =>
      match array_index k with
      | Some n => insert_index n k v o
      | None => o ++ [(k, v)]
      end
  end.

(** [{ ...a, ...b }] *)
Definition obj_spread (a b : list (string * V)) : list (string * V) :=
  fold_left (fun acc kv => obj_set (fst kv) (snd kv) acc) b a.

Definition obj_keys (o : list (string * V)) : list string := map fst o.

Lemma obj_get_None k o : obj_get k o = None <-> k ∉ obj_keys o.
Proof.
  induction o as [|[k1 v1] r IH]; simpl.
  - split; [intros _; apply not_elem_of_nil|reflexivity].
  - rewrite not_elem_of_cons. destruct (decide (k = k1)) as [->|Hne].
    + split; [discriminate|intros [[] _]; reflexivity].
    + rewrite IH. tauto.
Qed.

Lemma obj_get_app k a b :
  obj_get k (a ++ b) =
  match obj_get k a with Some v => Some v | None => obj_get k b end.
Proof.
  induction a as [|[k1 v1] a IH]; simpl; [reflexivity|].
  destruct (decide (k = k1)); [reflexivity|apply IH].
Qed.

Lemma obj_get_replace k v o k' :
  obj_get k' (obj_replace k v o) =
  if decide (k' = k) then (match obj_get k o with Some _ => Some v | None => None end)
  else obj_get k' o.
Proof.
  induction o as [|[k1 v1] r IH]; simpl.
  - destruct (decide (k' = k)); reflexivity.
  - destruct (decide (k = k1)) as [->|Hk]; simpl.
    + destruct (decide (k' = k1)); reflexivity.
    + rewrite IH. destruct (decide (k' = k)) as [->|]; [|reflexivity].
      destruct (decide (k = k1)); [congruence|reflexivity].
Qed.

Lemma obj_get_insert_index n k v o k' :
  obj_get k o = None ->
  obj_get k' (insert_index n k v o) =
  if decide (k' = k) then Some v else obj_get k' o.
Proof.
  induction o as [|[k1 v1] r IH]; simpl.
  - destruct (decide (k' = k)); reflexivity.
  - destruct (decide (k = k1)) as [->|Hk]; [discriminate|]. intros Hr.
    destruct (array_index k1) as [n1|]; [destruct (n1 <? n)%N|]; simpl;
      try rewrite (IH Hr);
      destruct (decide (k' = k)) as [->|]; try reflexivity;
      destruct (decide (k = k1)); try reflexivity; congruence.
Qed.

Lemma obj_get_set k v o k' :
  obj_get k' (obj_set k v o) =
  if decide (k' = k) then Some v else obj_get k' o.
Proof.
  unfold obj_set. destruct (obj_get k o) as [x|] eqn:E.
  - rewrite obj_get_replace, E. reflexivity.
  - destruct (array_index k).
    + rewrite obj_get_insert_index by exact E. reflexivity.
    + rewrite obj_get_app. simpl.
      destruct (decide (k' = k)) as [->|]; [rewrite E; reflexivity|].
      destruct (obj_get k' o); reflexivity.
Qed.

Lemma obj_keys_replace k v o :
  obj_get k o <> None -> obj_keys (obj_replace k v o) = obj_keys o.
Proof.
  induction o as [|[k1 v1] r IH]; simpl; [reflexivity|].
  destruct (decide (k = k1)) as [->|Hne]; simpl; [reflexivity|].
  intros H. rewrite IH by exact H. reflexivity.
Qed.

Lemma obj_keys_insert_index n k v o :
  obj_keys (insert_index n k v o) ≡ₚ k :: obj_keys o.
Proof.
  induction o as [|[k1 v1] r IH]; simpl; [reflexivity|].
  destruct (array_index k1) as [n1|]; [destruct (n1 <? n)%N|]; simpl;
    try reflexivity.
  rewrite IH. apply Permutation_swap.
Qed.

(** Assignment keeps the keys of an object distinct. *)
Lemma obj_set_NoDup k v o : NoDup (obj_keys o) -> NoDup (obj_keys (obj_set k v o)).
Proof.
  intros Hnd. unfold obj_set. destruct (obj_get k o) as [x|] eqn:E.
  - rewrite obj_keys_replace by congruence. exact Hnd.
  - apply obj_get_None in E. destruct (array_index k).
    + rewrite obj_keys_insert_index. apply NoDup_cons; auto.
    + unfold obj_keys. rewrite map_app. simpl.
      apply NoDup_app. split; [exact Hnd|]. split.
      * intros y Hy Hy'. apply list_elem_of_singleton in Hy'. subst. auto.
      * apply NoDup_singleton.
Qed.

Lemma obj_get_rev k o : NoDup (obj_keys o) -> obj_get k (rev o) = obj_get k o.
Proof.
  induction o as [|[k1 v1] o IH]; simpl; intros Hnd; [reflexivity|].
  apply NoDup_cons in Hnd as [Hk1 Hnd].
  rewrite obj_get_app, IH by exact Hnd. simpl.
  destruct (decide (k = k1)) as [->|Hne].
  - apply obj_get_None in Hk1. rewrite Hk1. reflexivity.
  - destruct (obj_get k o); reflexivity.
Qed.

(** In a spread the right operand wins. *)
Lemma obj_get_spread_rev b : forall a k,
  obj_get k (obj_spread a b) =
  match obj_get k (rev b) with
  | Some v => Some v
  | None => obj_get k a
  end.
Proof.
  unfold obj_spread. induction b as [|[k1 v1] r IH] using rev_ind;
    intros a k; simpl; [reflexivity|].
  rewrite fold_left_app, rev_app_distr. simpl.
  rewrite obj_get_set. destruct (decide (k = k1)); [reflexivity|]. apply IH.
Qed.

Lemma obj_get_spread a b k :
  NoDup (obj_keys b) ->
  obj_get k (obj_spread a b) =
  match obj_get k b with
  | Some v => Some v
  | None => obj_get k a
  end.
Proof. intros H. rewrite obj_get_spread_rev, obj_get_rev by exact H. reflexivity. Qed.

End Obj.

End Js.


(** ** Shared vocabulary *)

(** [StringCase] of [types/config]. *)
Inductive StringCase :=
| camelCase | PascalCase | preserve | snake_case | SCREAMING_SNAKE_CASE.

(** An [Error] instance, as far as the code looks at it. *)
Record JsError := { error_name : string; error_message : string }.

(** How a call ends: it returns, or it throws. *)
Inductive Completion (A : Type) :=
| Normal (a : A)
| Abrupt (e : JsError).
Arguments Normal {A} a.
Arguments Abrupt {A} e.

(** ** The context: [ir/context.ts] *)

Module Context.

(** *** Event bus *)

(** [keyof Events] *)
Inductive Event :=
| ev_after | ev_before | ev_operation | ev_parameter | ev_requestBody
| ev_schema | ev_server.

#[global] Instance Event_eq_dec : EqDecision Event.
Proof. solve_decision. Defined.

Section Bus.

(** [World] is everything a callback can change (files, IR, plugin state);
    the listener table itself is not part of it: callbacks that subscribe
    while a broadcast runs are outside this model.  [Args] is the payload,
    [Val] the values other than [Error] instances that JavaScript can
    throw, with [String(...)] on them. *)
Context {World Args Val : Type}.
Variable js_String : Val -> string.

Inductive Thrown :=
| ThrownError (e : JsError)
| ThrownValue (v : Val).

(** What awaiting [listener.callbackFn(...args)] gives. *)
Inductive Settled :=
| Fulfilled (w : World)
| Rejected (t : Thrown) (w : World).

Record ListenerWithMeta := {
  callbackFn : Args -> World -> Settled;
  pluginName : string;
}.

(** [Listeners]: an optional array per event. *)
Definition Listeners := Event -> option (list ListenerWithMeta).

(** The arguments [new HeyApiError({...})] is given. *)
Record HeyApiError := {
  he_args : Args;
  he_error : JsError;
  he_event : Event;
  he_name : string;
  he_pluginName : string;
}.

(** [error instanceof Error ? error : new Error(String(error))] *)
Definition originalError (t : Thrown) : JsError :=
  match t with
  | ThrownError e => e
  | ThrownValue v => {| error_name := "Error"; error_message := js_String v |}
  end.

Inductive BroadcastResult :=
| Resolved (w : World)
| Failed (e : HeyApiError) (w : World).

(** The [for ... of eventListeners] loop.  The first component lists the
    listeners whose callback was called, in call order. *)
Fixpoint deliver (event : Event) (args : Args)
    (eventListeners : list ListenerWithMeta) (w : World)
  : list ListenerWithMeta * BroadcastResult :=
  match eventListeners with
  | [] => ([], Resolved w)
  | listener :: rest =>
      match callbackFn listener args w with
      | Fulfilled w' =>
          let '(called, r) := deliver event args rest w' in
          (listener :: called, r)
      | Rejected t w' =>
          ([listener],
           Failed {| he_args := args;
                     he_error := originalError t;
                     he_event := event;
                     he_name := "BroadcastError";
                     he_pluginName := pluginName listener |} w')
      end
  end.

Definition broadcast (listeners : Listeners) (event : Event) (args : Args)
    (w : World) : list ListenerWithMeta * BroadcastResult :=
  match listeners event with
  | Some eventListeners => deliver event args eventListeners w
  | None => ([], Resolved w)
  end.

(** [pluginName ?? ''] *)
Definition subscribe (listeners : Listeners) (event : Event)
    (cb : Args -> World -> Settled) (name : option string) : Listeners :=
  let current := match listeners event with Some l => l | None => [] end in
  fun e =>
    if decide (e = event)
    then Some (current ++ [{| callbackFn := cb; pluginName := default "" name |}])
    else listeners e.

(** A run of [subscribe] calls on the constructor's empty table. *)
Definition Subscription : Type :=
  Event * (Args -> World -> Settled) * option string.

Definition subscribe_all (subs : list Subscription) : Listeners :=
  fold_left (fun ls '(e, cb, n) => subscribe ls e cb n) subs (fun _ => None).

(** The listeners a run of subscriptions registers for [event], in
    subscription order. *)
Definition subscribed (event : Event) (subs : list Subscription)
  : list ListenerWithMeta :=
  omap (fun '(e, cb, n) =>
          if decide (e = event)
          then Some {| callbackFn := cb; pluginName := default "" n |}
          else None) subs.

(** All callbacks of [ls] fulfil, one after the other, from [w]. *)
Fixpoint all_fulfil (args : Args) (ls : list ListenerWithMeta) (w : World)
  : option World :=
  match ls with
  | [] => Some w
  | l :: rest =>
      match callbackFn l args w with
      | Fulfilled w' => all_fulfil args rest w'
      | Rejected _ _ => None
      end
  end.

Lemma subscribe_all_snoc subs e cb n :
  subscribe_all (subs ++ [(e, cb, n)]) = subscribe (subscribe_all subs) e cb n.
Proof. unfold subscribe_all. rewrite fold_left_app. reflexivity. Qed.

Lemma subscribed_snoc event subs e cb n :
  subscribed event (subs ++ [(e, cb, n)]) =
  subscribed event subs ++
  (if decide (e = event)
   then [{| callbackFn := cb; pluginName := default "" n |}] else []).
Proof.
  unfold subscribed. rewrite omap_app. simpl.
  destruct (decide (e = event)); reflexivity.
Qed.

(** The table holds, per event, the subscribed listeners in subscription
    order; an event nobody subscribed to has no array. *)
Lemma subscribe_all_lookup subs event :
  subscribe_all subs event =
  match subscribed event subs with
  | [] => None
  | ls => Some ls
  end.
Proof.
  induction subs as [|[[e cb] n] subs IH] using rev_ind; [reflexivity|].
  rewrite subscribe_all_snoc, subscribed_snoc. unfold subscribe.
  destruct (decide (event = e)) as [->|Hne].
  - rewrite IH. destruct (decide (e = e)); [|congruence].
    destruct (subscribed e subs); reflexivity.
  - destruct (decide (e = event)); [congruence|].
    rewrite app_nil_r. exact IH.
Qed.

Lemma deliver_first_failure event args pre l post w w1 t w2 :
  all_fulfil args pre w = Some w1 ->
  callbackFn l args w1 = Rejected t w2 ->
  deliver event args (pre ++ l :: post) w =
  (pre ++ [l],
   Failed {| he_args := args;
             he_error := originalError t;
             he_event := event;
             he_name := "BroadcastError";
             he_pluginName := pluginName l |} w2).
Proof.
  revert w. induction pre as [|p pre IH]; simpl; intros w Hpre Hl.
  - injection Hpre as ->. rewrite Hl. reflexivity.
  - destruct (callbackFn p args w) as [w'|]; [|discriminate].
    rewrite (IH w' Hpre Hl). reflexivity.
Qed.

Lemma deliver_all_fulfil event args ls w w' :
  all_fulfil args ls w = Some w' ->
  deliver event args ls w = (ls, Resolved w').
Proof.
  revert w. induction ls as [|l ls IH]; simpl; intros w H.
  - congruence.
  - destruct (callbackFn l args w) as [w1|]; [|discriminate].
    rewrite (IH w1 H). reflexivity.
Qed.

(** C2.  When a subscriber's callback throws during a broadcast, the
    broadcast fails with an error named BroadcastError that carries the
    event, that subscriber's plugin name, the broadcast arguments and the
    original error (a thrown value that is no [Error] is first turned into
    [new Error(String(value))]).  Listeners are called in subscription
    order, each awaited before the next, so the callbacks called are
    exactly those subscribed before the failing one and the failing one:
    none subscribed after it is called. *)
Theorem broadcast_wraps_first_failure
    (subs : list Subscription) event args pre l post w w1 t w2 :
  subscribed event subs = pre ++ l :: post ->
  all_fulfil args pre w = Some w1 ->
  callbackFn l args w1 = Rejected t w2 ->
  broadcast (subscribe_all subs) event args w =
  (pre ++ [l],
   Failed {| he_args := args;
             he_error :=
               match t with
               | ThrownError e => e
               | ThrownValue v =>
                   {| error_name := "Error"; error_message := js_String v |}
               end;
             he_event := event;
             he_name := "BroadcastError";
             he_pluginName := pluginName l |} w2).
Proof.
  intros Hsubs Hpre Hl. unfold broadcast.
  rewrite subscribe_all_lookup, Hsubs.
  destruct pre; simpl; apply (deliver_first_failure event args _ l post w w1 t w2 Hpre Hl).
Qed.

(** When every callback fulfils, all subscribers are called, in
    subscription order, and the broadcast resolves. *)
Lemma broadcast_all_fulfil (subs : list Subscription) event args w w' :
  all_fulfil args (subscribed event subs) w = Some w' ->
  broadcast (subscribe_all subs) event args w =
  (subscribed event subs, Resolved w').
Proof.
  intros H. unfold broadcast. rewrite subscribe_all_lookup.
  destruct (subscribed event subs) as [|l ls] eqn:E.
  - simpl in H. congruence.
  - apply deliver_all_fulfil, H.
Qed.

(** *** What the outcome of a broadcast tells *)

Lemma deliver_resolved_inv event args ls w called w' :
  deliver event args ls w = (called, Resolved w') ->
  called = ls /\ all_fulfil args ls w = Some w'.
Proof.
  revert w called. induction ls as [|l ls IH]; simpl; intros w called H.
  - injection H as <- <-. auto.
  - destruct (callbackFn l args w) as [w1|t w1]; [|discriminate H].
    destruct (deliver event args ls w1) as [called1 r] eqn:E.
    injection H as <- ->. destruct (IH _ _ E) as [-> Hf]. auto.
Qed.

Lemma deliver_failed_inv event args ls w called e w' :
  deliver event args ls w = (called, Failed e w') ->
  exists pre l post w1 t,
    ls = pre ++ l :: post /\ called = pre ++ [l] /\
    all_fulfil args pre w = Some w1 /\
    callbackFn l args w1 = Rejected t w' /\
    e = {| he_args := args; he_error := originalError t; he_event := event;
           he_name := "BroadcastError"; he_pluginName := pluginName l |}.
Proof.
  revert w called. induction ls as [|l ls IH]; simpl; intros w called H.
  - discriminate H.
  - destruct (callbackFn l args w) as [w1|t w1] eqn:El.
    + destruct (deliver event args ls w1) as [called1 r] eqn:E.
      injection H as <- ->.
      destruct (IH _ _ E) as (pre & l' & post & w2 & t & -> & -> & Hpre & Hl & He).
      exists (l :: pre), l', post, w2, t. simpl. rewrite El. auto.
    + injection H as <- <- <-. exists [], l, ls, w, t. auto.
Qed.

Lemma subscribed_other_events (subs : list Subscription) event :
  (forall sub, sub ∈ subs -> sub.1.1 <> event) -> subscribed event subs = [].
Proof.
  induction subs as [|[[e cb] n] subs IH]; intros H; [reflexivity|].
  unfold subscribed. simpl.
  destruct (decide (e = event)) as [He|_].
  - destruct (H (e, cb, n)); [apply elem_of_cons; auto|exact He].
  - apply IH. intros sub Hsub. apply H, elem_of_cons. auto.
Qed.

(** X1.  A broadcast resolves exactly when every listener subscribed to
    the event fulfils, each called on what the one before left; then the
    listeners called are all those subscribed to the event, in
    subscription order. *)
Theorem broadcast_resolves_iff (subs : list Subscription) event args w called w' :
  broadcast (subscribe_all subs) event args w = (called, Resolved w') <->
  called = subscribed event subs /\
  all_fulfil args (subscribed event subs) w = Some w'.
Proof.
  unfold broadcast. rewrite subscribe_all_lookup. split.
  - destruct (subscribed event subs) as [|l ls] eqn:E.
    + intros [= <- <-]. auto.
    + apply deliver_resolved_inv.
  - intros [-> H]. destruct (subscribed event subs) as [|l ls] eqn:E.
    + simpl in H. congruence.
    + apply deliver_all_fulfil, H.
Qed.

(** X2.  A broadcast that failed: one subscribed listener rejected, on the
    world the listeners subscribed before it left, all of which fulfilled;
    no listener subscribed after it was called; and the error names that
    listener's plugin, the event and the arguments, and holds what was
    thrown. *)
Theorem broadcast_failed_inv (subs : list Subscription) event args w called e w' :
  broadcast (subscribe_all subs) event args w = (called, Failed e w') ->
  exists pre l post w1 t,
    subscribed event subs = pre ++ l :: post /\
    called = pre ++ [l] /\
    all_fulfil args pre w = Some w1 /\
    callbackFn l args w1 = Rejected t w' /\
    he_name e = "BroadcastError" /\
    he_pluginName e = pluginName l /\
    he_event e = event /\
    he_args e = args /\
    he_error e = originalError t.
Proof.
  unfold broadcast. rewrite subscribe_all_lookup. intros H.
  assert (Hd : deliver event args (subscribed event subs) w
               = (called, Failed e w')).
  { destruct (subscribed event subs); [discriminate H|exact H]. }
  destruct (deliver_failed_inv _ _ _ _ _ _ _ Hd)
    as (pre & l & post & w1 & t & Hs & Hc & Hpre & Hl & ->).
  exists pre, l, post, w1, t. simpl. auto 10.
Qed.

(** X3.  Broadcasting an event nothing subscribed to calls no listener
    and leaves everything as it is, whatever is subscribed to other
    events. *)
Theorem broadcast_unsubscribed_event (subs : list Subscription) event args w :
  (forall sub, sub ∈ subs -> sub.1.1 <> event) ->
  broadcast (subscribe_all subs) event args w = ([], Resolved w).
Proof.
  intros H. unfold broadcast.
  rewrite subscribe_all_lookup, (subscribed_other_events subs event H).
  reflexivity.
Qed.

End Bus.

Arguments Thrown Val : clear implicits.
Arguments Settled World Val : clear implicits.
Arguments ListenerWithMeta World Args Val : clear implicits.
Arguments HeyApiError Args : clear implicits.
Arguments BroadcastResult World Args : clear implicits.
Arguments Subscription World Args Val : clear implicits.

(** *** File registry *)

Record ContextFile := {
  exportFromIndex : option bool;
  id : string;
  identifierCase : option StringCase;
  path : string;
}.

(** A [TypeScriptFile] as its constructor is called here.  [ts_object] is
    the identity of the object [new] allocates: two files built from the
    same arguments are still two objects. *)
Record TypeScriptFile := {
  ts_object : nat;
  ts_dir : string;
  ts_exportFromIndex : option bool;
  ts_id : string;
  ts_identifierCase : option StringCase;
  ts_name : string;
}.

(** [this.config.output.path], [this.files], and the number of file
    objects allocated so far. *)
Record Registry := {
  output_path : string;
  files : gmap string TypeScriptFile;
  allocated : nat;
}.

Section Files.

(** [path.resolve(...segments)] of node. *)
Variable path_resolve : list string -> string.

Definition createFile (reg : Registry) (file : ContextFile)
  : TypeScriptFile * Registry :=
  let outputParts := Js.split_on "/" (path file) in
  let outputDir :=
    path_resolve (output_path reg :: take (length outputParts - 1) outputParts) in
  let createdFile :=
    {| ts_object := allocated reg;
       ts_dir := outputDir;
       ts_exportFromIndex := exportFromIndex file;
       ts_id := id file;
       ts_identifierCase := identifierCase file;
       ts_name := (default "" (last outputParts) ++ ".ts")%string |} in
  (createdFile,
   {| output_path := output_path reg;
      files := <[id file := createdFile]> (files reg);
      allocated := S (allocated reg) |}).

(** [file({ id })] *)
Definition file (reg : Registry) (i : string) : option TypeScriptFile :=
  files reg !! i.

(** Every registered file was allocated by the registry. *)
Definition registry_wf (reg : Registry) : Prop :=
  forall i f, files reg !! i = Some f -> ts_object f < allocated reg.

Lemma createFile_wf reg f :
  registry_wf reg -> registry_wf (createFile reg f).2.
Proof.
  intros Hwf i g. unfold createFile; simpl. rewrite lookup_insert.
  destruct (decide (id f = i)).
  - intros [= <-]. simpl. lia.
  - intros Hg. specialize (Hwf i g Hg). lia.
Qed.

(** C5, as the code has it.  [createFile] registers the file it creates
    under its id whether or not the id is taken: a lookup by that id
    returns the file just created, a new object, and a file registered
    under that id before is no longer reachable through the registry;
    files under other ids stay.  Nothing is reported. *)
Theorem createFile_last_wins reg f :
  file (createFile reg f).2 (id f) = Some (createFile reg f).1 /\
  ts_object (createFile reg f).1 = allocated reg /\
  (registry_wf reg ->
   forall old, file reg (id f) = Some old -> old <> (createFile reg f).1) /\
  (forall i, i <> id f -> file (createFile reg f).2 i = file reg i).
Proof.
  unfold file, createFile; simpl. repeat split.
  - apply lookup_insert_eq.
  - intros Hwf old Hold ->. specialize (Hwf _ _ Hold). simpl in Hwf. lia.
  - intros i Hi. rewrite lookup_insert_ne; [reflexivity|congruence].
Qed.

(** *** A run of [createFile] calls *)

(** The constructor's registry, and the registry after the files of a
    list were created, in order. *)
Definition emptyRegistry (out : string) : Registry :=
  {| output_path := out; files := ∅; allocated := 0 |}.

Definition createFiles (reg : Registry) (fs : list ContextFile) : Registry :=
  fold_left (fun r f => (createFile r f).2) fs reg.

Lemma createFiles_snoc reg fs f :
  createFiles reg (fs ++ [f]) = (createFile (createFiles reg fs) f).2.
Proof. unfold createFiles. rewrite fold_left_app. reflexivity. Qed.

(** X4.  Whatever files were created, in whatever order and with
    whatever ids repeated: the registry has a file under an id exactly
    when a file with that id was created; a file is registered under its
    own id, with the settings of a file created with that id; and no two
    ids share a file object. *)
Theorem createFiles_registry out fs :
  let reg := createFiles (emptyRegistry out) fs in
  allocated reg = length fs /\
  output_path reg = out /\
  (forall i, is_Some (file reg i) <-> exists f, f ∈ fs /\ id f = i) /\
  (forall i t, file reg i = Some t ->
     ts_id t = i /\ ts_object t < length fs /\
     exists f, f ∈ fs /\ id f = i /\
       ts_exportFromIndex t = exportFromIndex f /\
       ts_identifierCase t = identifierCase f) /\
  (forall i j t u, file reg i = Some t -> file reg j = Some u ->
     ts_object t = ts_object u -> i = j).
Proof.
  induction fs as [|f fs IH] using rev_ind.
  - simpl. split; [reflexivity|]. split; [reflexivity|]. unfold file; simpl.
    split; [|split].
    + intros i. rewrite lookup_empty. split.
      * intros [x Hx]. discriminate Hx.
      * intros (f & Hf & _). apply elem_of_nil in Hf. destruct Hf.
    + intros i t H. rewrite lookup_empty in H. discriminate H.
    + intros i j t u H. rewrite lookup_empty in H. discriminate H.
  - rewrite createFiles_snoc. cbv zeta in IH.
    set (reg := createFiles (emptyRegistry out) fs) in *.
    destruct IH as (Ha & Ho & Hdom & Hown & Hinj).
    rewrite length_app. simpl. unfold file in *. simpl.
    split; [lia|]. split; [exact Ho|]. split; [|split].
    + intros i. rewrite lookup_insert. destruct (decide (id f = i)) as [E|E].
      * split; [|eauto]. intros _. exists f. split; [|exact E].
        apply elem_of_app. right. apply list_elem_of_singleton. reflexivity.
      * rewrite Hdom. split.
        -- intros (g & Hg & Hi). exists g. split; [|exact Hi].
           apply elem_of_app. auto.
        -- intros (g & Hg & Hi). apply elem_of_app in Hg as [Hg|Hg]; [eauto|].
           apply list_elem_of_singleton in Hg. congruence.
    + intros i t. rewrite lookup_insert. destruct (decide (id f = i)) as [E|E].
      * intros [= <-]. simpl. split; [exact E|]. split; [lia|].
        exists f. split; [|auto].
        apply elem_of_app. right. apply list_elem_of_singleton. reflexivity.
      * intros Ht. destruct (Hown i t Ht) as (H1 & H2 & g & Hg & H3).
        split; [exact H1|]. split; [lia|]. exists g. split; [|exact H3].
        apply elem_of_app. auto.
    + intros i j t u. rewrite !lookup_insert.
      destruct (decide (id f = i)) as [Ei|Ei], (decide (id f = j)) as [Ej|Ej].
      * congruence.
      * intros [= <-] Hu. simpl. intros E.
        destruct (Hown j u Hu) as (_ & Hlt & _). lia.
      * intros Ht [= <-]. simpl. intros E.
        destruct (Hown i t Ht) as (_ & Hlt & _). lia.
      * apply Hinj.
Qed.

(** [split] undoes joining with the separator, for segments that do not
    hold it. *)
Lemma split_on_segment sep x :
  sep ∉ Js.chars x -> Js.split_on sep x = [x].
Proof.
  induction x as [|c x IH]; simpl; [reflexivity|]. intros H.
  apply not_elem_of_cons in H as [Hc Hx].
  destruct (decide (c = sep)); [congruence|]. rewrite (IH Hx). reflexivity.
Qed.

Lemma split_on_append sep x rest :
  sep ∉ Js.chars x ->
  Js.split_on sep (x ++ String sep rest) = x :: Js.split_on sep rest.
Proof.
  induction x as [|c x IH]; simpl; intros H.
  - destruct (decide (sep = sep)); [reflexivity|congruence].
  - apply not_elem_of_cons in H as [Hc Hx].
    destruct (decide (c = sep)); [congruence|]. rewrite (IH Hx). reflexivity.
Qed.

Lemma split_on_concat sep dirs n :
  Forall (fun x => sep ∉ Js.chars x) dirs -> sep ∉ Js.chars n ->
  Js.split_on sep (String.concat (String sep "") (dirs ++ [n])) = dirs ++ [n].
Proof.
  intros Hd Hn. induction Hd as [|x dirs Hx Hd IH].
  - simpl. apply split_on_segment, Hn.
  - assert (Hc : String.concat (String sep "") (x :: dirs ++ [n]) =
                 (x ++ String sep (String.concat (String sep "") (dirs ++ [n])))%string).
    { simpl. destruct (dirs ++ [n]) eqn:E; [destruct dirs; discriminate E|].
      reflexivity. }
    change ((x :: dirs) ++ [n]) with (x :: dirs ++ [n]).
    rewrite Hc, split_on_append by exact Hx. rewrite IH. reflexivity.
Qed.

(** X5.  For a path of segments joined with ["/"], the created file is
    named after the last segment, with [.ts] appended, and its directory
    is resolved from the output path and the segments before the last;
    the id, the case and the export flag are passed on. *)
Theorem createFile_path_segments reg f dirs n :
  Forall (fun x => "/"%char ∉ Js.chars x) dirs -> "/"%char ∉ Js.chars n ->
  path f = String.concat "/" (dirs ++ [n]) ->
  ts_name (createFile reg f).1 = (n ++ ".ts")%string /\
  ts_dir (createFile reg f).1 = path_resolve (output_path reg :: dirs) /\
  ts_id (createFile reg f).1 = id f /\
  ts_identifierCase (createFile reg f).1 = identifierCase f /\
  ts_exportFromIndex (createFile reg f).1 = exportFromIndex f.
Proof.
  intros Hd Hn Hp. unfold createFile; simpl. rewrite Hp.
  rewrite (split_on_concat "/" dirs n Hd Hn).
  rewrite last_snoc, length_app. simpl.
  replace (length dirs + 1 - 1) with (length dirs) by lia.
  rewrite take_app_length. auto.
Qed.

End Files.

(** *** [dereference] *)

(** Values of the deserialized document.  Objects and arrays live in a
    heap and are held by reference, as in JavaScript. *)
Inductive Value :=
| VUndefined
| VNull
| VBool (b : bool)
| VNumber (n : Z)
| VString (s : string)
| VRef (l : nat).

Section Dereference.

(** [resolveRef] of [utils/ref], applied to [this.spec]: the node a JSON
    pointer names, or a throw.  It only reads. *)
Variable resolveRef :
  gmap nat (gmap string Value) -> Value -> Value -> Completion Value.

(** The own enumerable properties a spread copies.  A string spreads into
    its characters by index; other primitives into nothing. *)
Definition own_properties (h : gmap nat (gmap string Value)) (v : Value)
  : gmap string Value :=
  match v with
  | VRef l => default ∅ (h !! l)
  | VString s =>
      list_to_map
        (imap (fun i c => (pretty i, VString (String c ""))) (Js.chars s))
  | _ => ∅
  end.

(** [dereference(schema)] with [this.spec = spec], on heap [h].  The
    result is a new object. *)
Definition dereference (h : gmap nat (gmap string Value)) (spec : Value)
    (schema : nat) : Completion (nat * gmap nat (gmap string Value)) :=
  let holder := default ∅ (h !! schema) in
  match resolveRef h spec (default VUndefined (holder !! "$ref")) with
  | Abrupt e => Abrupt e
  | Normal resolved =>
      (* const dereferenced = { ...schema, ...resolved } *)
      let l := fresh (dom h) in
      let h1 := <[l := own_properties h resolved ∪ holder]> h in
      (* delete dereferenced.$ref *)
      let h2 := alter (delete "$ref") l h1 in
      Normal (l, h2)
  end.

(** C8.  For a holder with a [$ref] that resolves, [dereference] returns a
    new object with the referent's own properties and, for keys the
    referent lacks, the holder's; it has no [$ref] key.  Values are copied
    as they are (nested objects stay shared).  No object that existed
    before the call changes: neither the holder nor any part of the
    spec. *)
Theorem dereference_shallow_merge h spec schema holder r resolved :
  h !! schema = Some holder ->
  holder !! "$ref" = Some (VString r) ->
  resolveRef h spec (VString r) = Normal resolved ->
  exists l h' o,
    dereference h spec schema = Normal (l, h') /\
    h !! l = None /\
    h' !! l = Some o /\
    o !! "$ref" = None /\
    (forall k, k <> "$ref" ->
       o !! k = match own_properties h resolved !! k with
                | Some v => Some v
                | None => holder !! k
                end) /\
    h' !! schema = Some holder /\
    (forall l', is_Some (h !! l') -> h' !! l' = h !! l').
Proof.
  intros Hh Href Hres. unfold dereference. rewrite Hh; simpl.
  rewrite Href; simpl. rewrite Hres.
  set (l := fresh (dom h)).
  assert (Hl : h !! l = None).
  { apply not_elem_of_dom. apply is_fresh. }
  assert (Hne : forall l', is_Some (h !! l') -> l <> l').
  { intros l' [x Hx] <-. congruence. }
  eexists l, _, _. split; [reflexivity|]. split; [exact Hl|].
  split; [rewrite lookup_alter_eq, lookup_insert_eq; reflexivity|].
  split; [apply lookup_delete_eq|].
  split.
  { intros k Hk. rewrite lookup_delete_ne by congruence.
    rewrite lookup_union.
    destruct (own_properties h resolved !! k), (holder !! k); reflexivity. }
  split.
  { rewrite lookup_alter_ne, lookup_insert_ne; [exact Hh| |]; apply Hne; eauto. }
  intros l' Hl'. rewrite lookup_alter_ne, lookup_insert_ne; [reflexivity| |];
    apply Hne; exact Hl'.
Qed.

End Dereference.

(** *** Plugin registration *)

Section Plugins.

(** A plugin's configuration and its handler are passed on as they are. *)
Context {PluginOptions Handler : Type}.

(** An entry of [config.plugins]. *)
Record PluginRecord := {
  pl_config : PluginOptions;
  pl_dependencies : option (list string);
  pl_handler : Handler;
  pl_name : string;
  pl_output : option string;
}.

(** Modelled from the spec: the class [PluginInstance] of
    [plugins/shared/utils/instance] is not among the sources.  An instance
    is bound to the context and holds what it is constructed with; these
    are the arguments of [new PluginInstance({...})], [context] apart. *)
Record PluginInstance := {
  in_config : PluginOptions;
  in_dependencies : list string;
  in_handler : Handler;
  in_name : string;
  in_output : option string;
}.

(** [registerPlugin(name)] on [this.config.plugins] and [this.plugins].
    A name [config.plugins] lacks gives [undefined], and reading [config]
    of it throws. *)
Definition registerPlugin (configured : gmap string PluginRecord)
    (plugins : gmap string PluginInstance) (name : string)
  : Completion (PluginInstance * gmap string PluginInstance) :=
  match configured !! name with
  | None =>
      Abrupt {| error_name := "TypeError";
                error_message :=
                  "Cannot read properties of undefined (reading 'config')" |}
  | Some plugin =>
      let instance :=
        {| in_config := pl_config plugin;
           in_dependencies := default [] (pl_dependencies plugin);
           in_handler := pl_handler plugin;
           in_name := pl_name plugin;
           in_output := pl_output plugin |} in
      Normal (instance, <[in_name instance := instance]> plugins)
  end.

(** The generator [registerPlugins()] after [next()] was called [k]
    times on it: the instances yielded, [this.plugins], and the error if
    a call threw (after which the generator is finished). *)
Fixpoint registerPlugins (configured : gmap string PluginRecord)
    (pluginOrder : list string) (k : nat)
    (plugins : gmap string PluginInstance)
  : list PluginInstance * gmap string PluginInstance * option JsError :=
  match k, pluginOrder with
  | 0, _ | _, [] => ([], plugins, None)
  | S k', name :: rest =>
      match registerPlugin configured plugins name with
      | Abrupt e => ([], plugins, Some e)
      | Normal (instance, plugins') =>
          let '(yielded, final, error) :=
            registerPlugins configured rest k' plugins' in
          (instance :: yielded, final, error)
      end
  end.

(** The instance made of an entry. *)
Definition instanceOf (plugin : PluginRecord) : PluginInstance :=
  {| in_config := pl_config plugin;
     in_dependencies := default [] (pl_dependencies plugin);
     in_handler := pl_handler plugin;
     in_name := pl_name plugin;
     in_output := pl_output plugin |}.

Lemma registerPlugins_configured configured order k plugins records :
  Forall2 (fun name r => configured !! name = Some r) (take k order) records ->
  registerPlugins configured order k plugins =
  (map instanceOf records,
   fold_left (fun acc r => <[pl_name r := instanceOf r]> acc) records plugins,
   None).
Proof.
  revert k plugins records. induction order as [|name rest IH];
    intros k plugins records H.
  - rewrite take_nil in H. apply Forall2_nil_inv_l in H as ->.
    destruct k; reflexivity.
  - destruct k as [|k]; simpl in H.
    + apply Forall2_nil_inv_l in H as ->. reflexivity.
    + apply Forall2_cons_inv_l in H as (r & records' & Hr & Hrest & ->).
      simpl. unfold registerPlugin. rewrite Hr.
      rewrite (IH k _ records' Hrest). reflexivity.
Qed.

(** X6.  The generator registers one plugin for each [next()], in
    [pluginOrder]: after [k] calls, for names that are all configured,
    the instances yielded are those of the first [k] names, in order,
    each made of its entry with [dependencies] defaulting to none;
    [this.plugins] has them under their own names ([plugin.name], not the
    key of [config.plugins]) and is otherwise as before; nothing threw. *)
Theorem registerPlugins_lazy configured order k plugins records :
  Forall2 (fun name r => configured !! name = Some r) (take k order) records ->
  exists final,
    registerPlugins configured order k plugins
    = (map instanceOf records, final, None) /\
    length records = min k (length order) /\
    (forall n, (forall r, r ∈ records -> pl_name r <> n) ->
       final !! n = plugins !! n) /\
    (forall n, (exists r, r ∈ records /\ pl_name r = n) ->
       exists r, r ∈ records /\ pl_name r = n /\
         final !! n = Some (instanceOf r)).
Proof.
  intros H. eexists. split; [apply registerPlugins_configured, H|].
  split. { rewrite <- (Forall2_length _ _ _ H), length_take. reflexivity. }
  clear H. revert plugins.
  induction records as [|r records IH] using rev_ind; intros plugins.
  - simpl. split; [reflexivity|]. intros n (r & Hr & _).
    apply elem_of_nil in Hr. destruct Hr.
  - rewrite fold_left_app. simpl. destruct (IH plugins) as [Hout Hin]. split.
    + intros n Hn. rewrite lookup_insert_ne.
      * apply Hout. intros r' Hr'. apply Hn, elem_of_app. auto.
      * apply Hn, elem_of_app. right. apply list_elem_of_singleton. reflexivity.
    + intros n (r0 & Hr0 & Hn0). destruct (decide (pl_name r = n)) as [E|E].
      * exists r. split; [|split; [exact E|]].
        -- apply elem_of_app. right. apply list_elem_of_singleton. reflexivity.
        -- rewrite E. apply lookup_insert_eq.
      * rewrite lookup_insert_ne by exact E.
        apply elem_of_app in Hr0 as [Hr0|Hr0].
        -- destruct (Hin n (ex_intro _ r0 (conj Hr0 Hn0)))
             as (r' & Hr' & Hn' & Hl).
           exists r'. split; [|auto]. apply elem_of_app. auto.
        -- apply list_elem_of_singleton in Hr0. congruence.
Qed.

(** X7.  A name of [pluginOrder] that [config.plugins] lacks: the call of
    [next()] that comes to it throws a [TypeError]; the plugins before
    it were yielded and stay registered, and none after it is
    registered, however often [next()] is called. *)
Theorem registerPlugins_missing configured pre name post k plugins records :
  Forall2 (fun n r => configured !! n = Some r) pre records ->
  configured !! name = None ->
  length pre < k ->
  registerPlugins configured (pre ++ name :: post) k plugins =
  (map instanceOf records,
   fold_left (fun acc r => <[pl_name r := instanceOf r]> acc) records plugins,
   Some {| error_name := "TypeError";
           error_message :=
             "Cannot read properties of undefined (reading 'config')" |}).
Proof.
  intros H Hname. revert k plugins.
  induction H as [|n r pre records Hr _ IH]; intros k plugins Hk.
  - destruct k as [|k]; [simpl in Hk; lia|]. simpl. unfold registerPlugin.
    rewrite Hname. reflexivity.
  - destruct k as [|k]; [simpl in Hk; lia|]. simpl in *.
    unfold registerPlugin at 1. rewrite Hr. rewrite IH by lia. reflexivity.
Qed.

End Plugins.

Arguments PluginRecord PluginOptions Handler : clear implicits.
Arguments PluginInstance PluginOptions Handler : clear implicits.

(** *** Concrete runs *)

Definition bump : unit -> nat -> Settled nat string :=
  fun _ w => Fulfilled (S w).

Definition boom : unit -> nat -> Settled nat string :=
  fun _ w => Rejected (ThrownValue "boom") w.

(** Three subscribers of [schema] (the second throws the string
    ['boom']) and one of [operation]. *)
Definition demo_subs : list (Subscription nat unit string) :=
  [ (ev_schema, bump, Some "zod");
    (ev_operation, bump, Some "sdk");
    (ev_schema, boom, Some "valibot");
    (ev_schema, bump, None) ].

Lemma broadcast_wraps_first_failure_witness :
  broadcast (fun v : string => v) (subscribe_all demo_subs) ev_schema tt 0 =
  ([ {| callbackFn := bump; pluginName := "zod" |};
     {| callbackFn := boom; pluginName := "valibot" |} ],
   Failed {| he_args := tt;
             he_error := {| error_name := "Error"; error_message := "boom" |};
             he_event := ev_schema;
             he_name := "BroadcastError";
             he_pluginName := "valibot" |} 1).
Proof.
  apply (broadcast_wraps_first_failure (fun v : string => v) demo_subs ev_schema tt
           [ {| callbackFn := bump; pluginName := "zod" |} ]
           {| callbackFn := boom; pluginName := "valibot" |}
           [ {| callbackFn := bump; pluginName := "" |} ]
           0 1 (ThrownValue "boom") 1); reflexivity.
Defined.

Definition join_path (segments : list string) : string :=
  String.concat "/" segments.

Definition registry0 : Registry :=
  {| output_path := "out"; files := ∅; allocated := 0 |}.

Definition zod_file (p : string) : ContextFile :=
  {| exportFromIndex := None; id := "zod"; identifierCase := Some camelCase;
     path := p |}.

(** C5 fails as stated: after a second [createFile] with the id ["zod"],
    the lookup returns the second file, not the one created first. *)
Lemma createFile_existing_does_not_win :
  let first := createFile join_path registry0 (zod_file "zod") in
  let second := createFile join_path first.2 (zod_file "gen/zod") in
  file first.2 "zod" = Some first.1 /\
  file second.2 "zod" = Some second.1 /\
  ts_dir first.1 = "out" /\
  ts_dir second.1 = "out/gen" /\
  file second.2 "zod" <> Some first.1.
Proof.
  vm_compute. repeat split; try reflexivity. discriminate.
Qed.

(** The spec [{ a: { x: 1, y: 2 } }] at address 0 (its [a] at 1), a
    holder [{ $ref: '#/a', x: 0, z: 3 }] at 2. *)
Definition demo_heap : gmap nat (gmap string Value) :=
  <[0 := {["a" := VRef 1]}]>
  (<[1 := <["x" := VNumber 1]> {["y" := VNumber 2]}]>
  (<[2 := <["$ref" := VString "#/a"]> (<["x" := VNumber 0]> {["z" := VNumber 3]})]> ∅)).

Definition demo_resolveRef (h : gmap nat (gmap string Value))
    (spec r : Value) : Completion Value :=
  match spec, r with
  | VRef root, VString "#/a" =>
      match h !! root ≫= (.!! "a") with
      | Some v => Normal v
      | None =>
          Abrupt {| error_name := "Error";
                    error_message := "Reference not found: #/a" |}
      end
  | _, _ => Abrupt {| error_name := "Error"; error_message := "Reference not found" |}
  end.

Lemma dereference_shallow_merge_witness :
  exists l h' o,
    dereference demo_resolveRef demo_heap (VRef 0) 2 = Normal (l, h') /\
    demo_heap !! l = None /\
    h' !! l = Some o /\
    o !! "$ref" = None /\
    (forall k, k <> "$ref" ->
       o !! k = match own_properties demo_heap (VRef 1) !! k with
                | Some v => Some v
                | None =>
                    (<["$ref" := VString "#/a"]>
                       (<["x" := VNumber 0]> {["z" := VNumber 3]})
                     : gmap string Value) !! k
                end) /\
    h' !! 2 =
      Some (<["$ref" := VString "#/a"]>
              (<["x" := VNumber 0]> {["z" := VNumber 3]})) /\
    (forall l', is_Some (demo_heap !! l') -> h' !! l' = demo_heap !! l').
Proof.
  apply (dereference_shallow_merge demo_resolveRef demo_heap (VRef 0) 2
           _ "#/a" (VRef 1)); reflexivity.
Defined.

(** The merged object of that run: the referent's [x] wins, the holder's
    [z] stays, [$ref] is gone. *)
Example dereference_demo_result :
  match dereference demo_resolveRef demo_heap (VRef 0) 2 with
  | Normal (l, h') =>
      l = 3 /\
      h' !! l = Some (<["x" := VNumber 1]>
                        (<["y" := VNumber 2]> {["z" := VNumber 3]}))
  | Abrupt _ => False
  end.
Proof. vm_compute. split; reflexivity. Qed.

(** The failed broadcast above, read backwards. *)
Lemma broadcast_failed_inv_witness :
  exists pre l post w1 t,
    subscribed ev_schema demo_subs = pre ++ l :: post /\
    [ {| callbackFn := bump; pluginName := "zod" |};
      {| callbackFn := boom; pluginName := "valibot" |} ] = pre ++ [l] /\
    all_fulfil tt pre 0 = Some w1 /\
    callbackFn l tt w1 = Rejected t 1 /\
    "BroadcastError" = "BroadcastError" /\
    "valibot" = pluginName l /\
    ev_schema = ev_schema /\
    tt = tt /\
    {| error_name := "Error"; error_message := "boom" |}
    = originalError (fun v : string => v) t.
Proof.
  apply (broadcast_failed_inv (fun v : string => v) demo_subs ev_schema tt 0
           [ {| callbackFn := bump; pluginName := "zod" |};
             {| callbackFn := boom; pluginName := "valibot" |} ]
           {| he_args := tt;
              he_error := {| error_name := "Error"; error_message := "boom" |};
              he_event := ev_schema;
              he_name := "BroadcastError";
              he_pluginName := "valibot" |} 1).
  reflexivity.
Defined.

(** Nothing is subscribed to [server]. *)
Lemma broadcast_unsubscribed_event_witness :
  broadcast (fun v : string => v) (subscribe_all demo_subs) ev_server tt 0
  = ([], Resolved 0).
Proof.
  apply (broadcast_unsubscribed_event (fun v : string => v) demo_subs
           ev_server tt 0).
  intros sub H.
  repeat (apply elem_of_cons in H as [->|H]; [discriminate|]).
  apply elem_of_nil in H. destruct H.
Defined.

(** [gen/zod] under the output path [out]. *)
Lemma createFile_path_segments_witness :
  ts_name (createFile join_path registry0 (zod_file "gen/zod")).1 = "zod.ts" /\
  ts_dir (createFile join_path registry0 (zod_file "gen/zod")).1
  = join_path ["out"; "gen"] /\
  ts_id (createFile join_path registry0 (zod_file "gen/zod")).1 = "zod" /\
  ts_identifierCase (createFile join_path registry0 (zod_file "gen/zod")).1
  = Some camelCase /\
  ts_exportFromIndex (createFile join_path registry0 (zod_file "gen/zod")).1
  = None.
Proof.
  apply (createFile_path_segments join_path registry0 (zod_file "gen/zod")
           ["gen"] "zod").
  - repeat constructor; vm_compute; intros H;
      repeat (apply elem_of_cons in H as [H|H]; [discriminate H|]);
      apply elem_of_nil in H; destruct H.
  - vm_compute. intros H.
    repeat (apply elem_of_cons in H as [H|H]; [discriminate H|]).
    apply elem_of_nil in H. destruct H.
  - reflexivity.
Defined.

(** Two configured plugins, and an order that names a third. *)
Definition sdk_record : PluginRecord unit string :=
  {| pl_config := tt; pl_dependencies := None; pl_handler := "sdk handler";
     pl_name := "@hey-api/sdk"; pl_output := Some "sdk" |}.

Definition zod_record : PluginRecord unit string :=
  {| pl_config := tt; pl_dependencies := Some ["@hey-api/sdk"];
     pl_handler := "zod handler"; pl_name := "zod"; pl_output := Some "zod" |}.

Definition demo_configured : gmap string (PluginRecord unit string) :=
  <["@hey-api/sdk" := sdk_record]> {["zod" := zod_record]}.

Lemma registerPlugins_lazy_witness :
  exists final,
    registerPlugins demo_configured ["@hey-api/sdk"; "zod"] 1 ∅
    = (map instanceOf [sdk_record], final, None) /\
    length [sdk_record] = min 1 (length ["@hey-api/sdk"; "zod"]) /\
    (forall n, (forall r, r ∈ [sdk_record] -> pl_name r <> n) ->
       final !! n = (∅ : gmap string (PluginInstance unit string)) !! n) /\
    (forall n, (exists r, r ∈ [sdk_record] /\ pl_name r = n) ->
       exists r, r ∈ [sdk_record] /\ pl_name r = n /\
         final !! n = Some (instanceOf r)).
Proof.
  apply (registerPlugins_lazy demo_configured ["@hey-api/sdk"; "zod"] 1 ∅
           [sdk_record]).
  repeat constructor.
Defined.

Lemma registerPlugins_missing_witness :
  registerPlugins demo_configured
    (["@hey-api/sdk"] ++ "valibot" :: ["zod"]) 3 ∅ =
  (map instanceOf [sdk_record],
   fold_left (fun acc r => <[pl_name r := instanceOf r]> acc) [sdk_record] ∅,
   Some {| error_name := "TypeError";
           error_message :=
             "Cannot read properties of undefined (reading 'config')" |}).
Proof.
  apply (registerPlugins_missing demo_configured ["@hey-api/sdk"] "valibot"
           ["zod"] 3 ∅ [sdk_record]).
  - repeat constructor.
  - reflexivity.
  - simpl. lia.
Defined.

End Context.

(** ** The intermediate representation: [ir/types] *)

Module IR.

(** A JSON-like value, as [const] and [default] hold them. *)
Inductive JsValue :=
| JUndefined
| JNull
| JBool (b : bool)
| JNumber (n : Z)
| JBigInt (n : Z)
| JString (s : string)
| JArray (elements : list JsValue)
| JObject (members : list (string * JsValue)).

Inductive SchemaType :=
| t_array | t_boolean | t_enum | t_integer | t_never | t_null | t_number
| t_object | t_string | t_tuple | t_undefined | t_unknown | t_void.

#[global] Instance SchemaType_eq_dec : EqDecision SchemaType.
Proof. solve_decision. Defined.

Inductive LogicalOperator := op_and | op_or.

#[global] Instance LogicalOperator_eq_dec : EqDecision LogicalOperator.
Proof. solve_decision. Defined.

Inductive AccessScope := scope_read | scope_write.

#[global] Instance AccessScope_eq_dec : EqDecision AccessScope.
Proof. solve_decision. Defined.

(** [IR.SchemaObject], with the fields the emitter reads.  Every field is
    optional; [properties] is in enumeration order.  [$ref] is [ref];
    [const] and [default] are [const_] and [default_] ([JUndefined] when
    absent). *)
Inductive SchemaObject := mkSchema {
  ref : option string;
  type : option SchemaType;
  items : option (list SchemaObject);
  logicalOperator : option LogicalOperator;
  properties : option (list (string * SchemaObject));
  required : option (list string);
  const_ : JsValue;
  default_ : JsValue;
  format : option string;
  pattern : option string;
  description : option string;
  accessScope : option AccessScope;
  minItems : option Z;
  maxItems : option Z;
  minLength : option Z;
  maxLength : option Z;
  minimum : option Z;
  maximum : option Z;
  exclusiveMinimum : option Z;
  exclusiveMaximum : option Z;
}.

(** [{}] *)
Definition emptySchema : SchemaObject :=
  mkSchema None None None None None None JUndefined JUndefined None None None
    None None None None None None None None None.

(** [{ type: t }] *)
Definition schemaOfType (t : SchemaType) : SchemaObject :=
  mkSchema None (Some t) None None None None JUndefined JUndefined None None
    None None None None None None None None None None.

(** [{ $ref: r }] *)
Definition schemaOfRef (r : string) : SchemaObject :=
  mkSchema (Some r) None None None None None JUndefined JUndefined None None
    None None None None None None None None None None.

(** [{ properties, required, type: 'object' }] *)
Definition objectSchema (props : list (string * SchemaObject))
    (req : list string) : SchemaObject :=
  mkSchema None (Some t_object) None None (Some props) (Some req) JUndefined
    JUndefined None None None None None None None None None None None None.

(** Functional updates, for writing schemas down. *)
Definition with_items (l : list SchemaObject) (o : option LogicalOperator)
    (s : SchemaObject) : SchemaObject :=
  mkSchema (ref s) (type s) (Some l) o (properties s) (required s) (const_ s)
    (default_ s) (format s) (pattern s) (description s) (accessScope s)
    (minItems s) (maxItems s) (minLength s) (maxLength s) (minimum s)
    (maximum s) (exclusiveMinimum s) (exclusiveMaximum s).

Definition with_format (f : string) (s : SchemaObject) : SchemaObject :=
  mkSchema (ref s) (type s) (items s) (logicalOperator s) (properties s)
    (required s) (const_ s) (default_ s) (Some f) (pattern s) (description s)
    (accessScope s) (minItems s) (maxItems s) (minLength s) (maxLength s)
    (minimum s) (maximum s) (exclusiveMinimum s) (exclusiveMaximum s).

Definition with_description (d : string) (s : SchemaObject) : SchemaObject :=
  mkSchema (ref s) (type s) (items s) (logicalOperator s) (properties s)
    (required s) (const_ s) (default_ s) (format s) (pattern s) (Some d)
    (accessScope s) (minItems s) (maxItems s) (minLength s) (maxLength s)
    (minimum s) (maximum s) (exclusiveMinimum s) (exclusiveMaximum s).

Definition with_default (v : JsValue) (s : SchemaObject) : SchemaObject :=
  mkSchema (ref s) (type s) (items s) (logicalOperator s) (properties s)
    (required s) (const_ s) v (format s) (pattern s) (description s)
    (accessScope s) (minItems s) (maxItems s) (minLength s) (maxLength s)
    (minimum s) (maximum s) (exclusiveMinimum s) (exclusiveMaximum s).

Definition with_const (v : JsValue) (s : SchemaObject) : SchemaObject :=
  mkSchema (ref s) (type s) (items s) (logicalOperator s) (properties s)
    (required s) v (default_ s) (format s) (pattern s) (description s)
    (accessScope s) (minItems s) (maxItems s) (minLength s) (maxLength s)
    (minimum s) (maximum s) (exclusiveMinimum s) (exclusiveMaximum s).

Definition with_accessScope (a : AccessScope) (s : SchemaObject)
  : SchemaObject :=
  mkSchema (ref s) (type s) (items s) (logicalOperator s) (properties s)
    (required s) (const_ s) (default_ s) (format s) (pattern s)
    (description s) (Some a) (minItems s) (maxItems s) (minLength s)
    (maxLength s) (minimum s) (maximum s) (exclusiveMinimum s)
    (exclusiveMaximum s).

Definition with_lengths (lo hi : option Z) (s : SchemaObject) : SchemaObject :=
  mkSchema (ref s) (type s) (items s) (logicalOperator s) (properties s)
    (required s) (const_ s) (default_ s) (format s) (pattern s)
    (description s) (accessScope s) (minItems s) (maxItems s) lo hi
    (minimum s) (maximum s) (exclusiveMinimum s) (exclusiveMaximum s).

Definition with_bounds (lo hi xlo xhi : option Z) (s : SchemaObject)
  : SchemaObject :=
  mkSchema (ref s) (type s) (items s) (logicalOperator s) (properties s)
    (required s) (const_ s) (default_ s) (format s) (pattern s)
    (description s) (accessScope s) (minItems s) (maxItems s) (minLength s)
    (maxLength s) lo hi xlo xhi.

(** The number of schema nodes of a schema. *)
Fixpoint schema_size (s : SchemaObject) : nat :=
  S (match items s with
     | Some l => list_sum (map schema_size l)
     | None => 0
     end
     + match properties s with
       | Some l => list_sum (map (fun p => schema_size (snd p)) l)
       | None => 0
       end).

Inductive ParameterLocation := in_cookie | in_header | in_path | in_query.

#[global] Instance ParameterLocation_eq_dec : EqDecision ParameterLocation.
Proof. solve_decision. Defined.

(** [IR.ParameterObject]: [name], [in], [required], [schema]. *)
Record ParameterObject := {
  param_name : string;
  param_in : ParameterLocation;
  param_required : bool;
  param_schema : SchemaObject;
}.

(** [IR.ParametersObject]: a mapping per location, in enumeration order. *)
Record ParametersObject := {
  cookie : option (list (string * ParameterObject));
  header : option (list (string * ParameterObject));
  path : option (list (string * ParameterObject));
  query : option (list (string * ParameterObject));
}.

Definition group (loc : ParameterLocation) (p : ParametersObject)
  : option (list (string * ParameterObject)) :=
  match loc with
  | in_cookie => cookie p
  | in_header => header p
  | in_path => path p
  | in_query => query p
  end.

Record BodyObject := {
  body_required : bool;
  body_schema : SchemaObject;
}.

(** [IR.OperationObject], with the fields the emitter reads. *)
Record OperationObject := {
  op_id : string;
  op_parameters : option ParametersObject;
  op_body : option BodyObject;
  op_responses : option (list (string * SchemaObject));
}.

End IR.

(** ** The path loop of [parseV3_1_X] *)

Module Parser.
Import IR.

(** The methods of a path item, in the order the loop handles them. *)
Inductive Method :=
| m_delete | m_get | m_head | m_options | m_patch | m_post | m_put | m_trace.

Definition methods : list Method :=
  [m_delete; m_get; m_head; m_options; m_patch; m_post; m_put; m_trace].

Definition method_name (m : Method) : string :=
  match m with
  | m_delete => "delete" | m_get => "get" | m_head => "head"
  | m_options => "options" | m_patch => "patch" | m_post => "post"
  | m_put => "put" | m_trace => "trace"
  end.

(** An operation of the document, and a path item.  Parameters are taken
    as already dereferenced and converted. *)
Record SpecOperation := {
  so_description : option string;
  so_summary : option string;
  so_parameters : option (list ParameterObject);
}.

Record PathItemObject := {
  pi_ref : option string;
  pi_description : option string;
  pi_summary : option string;
  pi_parameters : option (list ParameterObject);
  pi_delete : option SpecOperation;
  pi_get : option SpecOperation;
  pi_head : option SpecOperation;
  pi_options : option SpecOperation;
  pi_patch : option SpecOperation;
  pi_post : option SpecOperation;
  pi_put : option SpecOperation;
  pi_trace : option SpecOperation;
}.

Definition method_of (m : Method) (p : PathItemObject) : option SpecOperation :=
  match m with
  | m_delete => pi_delete p | m_get => pi_get p | m_head => pi_head p
  | m_options => pi_options p | m_patch => pi_patch p | m_post => pi_post p
  | m_put => pi_put p | m_trace => pi_trace p
  end.

(** A field of [{ ...a, ...b }]: [b]'s when [b] has it. *)
Definition over {A} (a b : option A) : option A :=
  match b with
  | Some x => Some x
  | None => a
  end.

(** [{ ...referenced, ...pathItem }] *)
Definition spread_path_item (a b : PathItemObject) : PathItemObject :=
  {| pi_ref := over (pi_ref a) (pi_ref b);
     pi_description := over (pi_description a) (pi_description b);
     pi_summary := over (pi_summary a) (pi_summary b);
     pi_parameters := over (pi_parameters a) (pi_parameters b);
     pi_delete := over (pi_delete a) (pi_delete b);
     pi_get := over (pi_get a) (pi_get b);
     pi_head := over (pi_head a) (pi_head b);
     pi_options := over (pi_options a) (pi_options b);
     pi_patch := over (pi_patch a) (pi_patch b);
     pi_post := over (pi_post a) (pi_post b);
     pi_put := over (pi_put a) (pi_put b);
     pi_trace := over (pi_trace a) (pi_trace b) |}.

Definition noParameters : ParametersObject :=
  {| cookie := None; header := None; path := None; query := None |}.

Definition set_group (loc : ParameterLocation)
    (g : list (string * ParameterObject)) (p : ParametersObject)
  : ParametersObject :=
  match loc with
  | in_cookie => {| cookie := Some g; header := header p; path := path p; query := query p |}
  | in_header => {| cookie := cookie p; header := Some g; path := path p; query := query p |}
  | in_path => {| cookie := cookie p; header := header p; path := Some g; query := query p |}
  | in_query => {| cookie := cookie p; header := header p; path := path p; query := Some g |}
  end.

(** Modelled from the spec: [parametersArrayToObject] of
    [3.1.x/parser/parameter] is not among the sources.  The data model has
    the grouped parameters of an operation as a mapping from name to
    parameter per location ([header | path | query | cookie]); an absent
    array gives no object. *)
Definition parametersArrayToObject (parameters : option (list ParameterObject))
  : option ParametersObject :=
  match parameters with
  | None => None
  | Some l =>
      Some (fold_left
              (fun acc p =>
                 set_group (param_in p)
                   (Js.obj_set (param_name p) p
                      (default [] (group (param_in p) acc))) acc)
              l noParameters)
  end.

(** Modelled from the spec: [mergeParametersObjects] of
    [shared/utils/parameter] is not among the sources.  The path-item
    parameters ([target]) are merged with the method parameters
    ([source]); on a name collision within a location the method's
    parameter wins. *)
Definition merge_group (target source : option (list (string * ParameterObject)))
  : option (list (string * ParameterObject)) :=
  match target, source with
  | Some t, Some s => Some (Js.obj_spread t s)
  | None, s => s
  | t, None => t
  end.

Definition mergeParametersObjects (source target : option ParametersObject)
  : option ParametersObject :=
  match source, target with
  | Some s, Some t =>
      Some {| cookie := merge_group (cookie t) (cookie s);
              header := merge_group (header t) (header s);
              path := merge_group (path t) (path s);
              query := merge_group (query t) (query s) |}
  | None, t => t
  | s, None => s
  end.

(** What [parseOperation] is called with, as far as parameters go. *)
Record OperationArgs := {
  oa_method : Method;
  oa_path : string;
  oa_description : option string;
  oa_summary : option string;
  oa_parameters : option ParametersObject;
}.

Section PathLoop.

(** [context.resolveRef] on a path item's [$ref], and the include and
    exclude filters ([canProcessRef]). *)
Variable resolveRef : string -> Completion PathItemObject.
Variable shouldProcessRef : string -> SpecOperation -> bool.

Definition finalPathItem (pathItem : PathItemObject)
  : Completion PathItemObject :=
  match Js.truthy (pi_ref pathItem) with
  | Some r =>
      match resolveRef r with
      | Normal referenced => Normal (spread_path_item referenced pathItem)
      | Abrupt e => Abrupt e
      end
  | None => Normal pathItem
  end.

(** One of the eight blocks of the loop body: the call of
    [parseOperation] for [m], if the path item has the method and the
    filters accept it. *)
Definition method_call (p : string) (final : PathItemObject) (m : Method)
  : option OperationArgs :=
  match method_of m final with
  | Some operation =>
      if shouldProcessRef ("#/paths" ++ p ++ "/" ++ method_name m)%string operation
      then
        Some {| oa_method := m;
                oa_path := p;
                oa_description :=
                  over (pi_description final) (so_description operation);
                oa_summary := over (pi_summary final) (so_summary operation);
                oa_parameters :=
                  mergeParametersObjects
                    (parametersArrayToObject (so_parameters operation))
                    (parametersArrayToObject (pi_parameters final)) |}
      else None
  | None => None
  end.

(** The calls of [parseOperation] for one entry of [spec.paths]. *)
Definition path_calls (p : string) (pathItem : PathItemObject)
  : Completion (list OperationArgs) :=
  match finalPathItem pathItem with
  | Normal final => Normal (omap (method_call p final) methods)
  | Abrupt e => Abrupt e
  end.

End PathLoop.

(** The parameter of a location and name in grouped parameters. *)
Definition grouped_lookup (loc : ParameterLocation) (name : string)
    (p : option ParametersObject) : option ParameterObject :=
  match p with
  | Some po =>
      match group loc po with
      | Some g => Js.obj_get name g
      | None => None
      end
  | None => None
  end.

(** The parameter a parameter array declares for a location and name: the
    last entry that has them. *)
Fixpoint declared (loc : ParameterLocation) (name : string)
    (l : list ParameterObject) : option ParameterObject :=
  match l with
  | [] => None
  | p :: r =>
      match declared loc name r with
      | Some q => Some q
      | None =>
          if decide (param_in p = loc /\ param_name p = name)
          then Some p else None
      end
  end.

Lemma group_set_group loc loc' g p :
  group loc (set_group loc' g p) =
  if decide (loc = loc') then Some g else group loc p.
Proof. destruct loc, loc'; reflexivity. Qed.

Lemma declared_app loc name l1 l2 :
  declared loc name (l1 ++ l2) =
  match declared loc name l2 with
  | Some q => Some q
  | None => declared loc name l1
  end.
Proof.
  induction l1 as [|p l1 IH]; simpl.
  - destruct (declared loc name l2); reflexivity.
  - rewrite IH. destruct (declared loc name l2); reflexivity.
Qed.

Lemma grouped_lookup_fold loc name l :
  grouped_lookup loc name (parametersArrayToObject (Some l)) =
  declared loc name l.
Proof.
  unfold grouped_lookup, parametersArrayToObject; simpl.
  induction l as [|p l IH] using rev_ind; [destruct loc; reflexivity|].
  rewrite fold_left_app, declared_app; simpl.
  rewrite group_set_group.
  destruct (decide (loc = param_in p)) as [->|Hloc]; simpl.
  - rewrite Js.obj_get_set.
    destruct (decide (name = param_name p)) as [->|Hn].
    + destruct (decide (param_in p = param_in p /\ param_name p = param_name p));
        [reflexivity|intuition congruence].
    + destruct (decide (param_in p = param_in p /\ param_name p = name));
        [intuition congruence|].
      rewrite <- IH.
      destruct (group (param_in p) _); reflexivity.
  - destruct (decide (param_in p = loc /\ param_name p = name)); [intuition congruence|].
    exact IH.
Qed.

Lemma grouped_lookup_array loc name parameters :
  grouped_lookup loc name (parametersArrayToObject parameters) =
  declared loc name (default [] parameters).
Proof.
  destruct parameters as [l|]; [apply grouped_lookup_fold|reflexivity].
Qed.

Definition groups_distinct (p : option ParametersObject) : Prop :=
  forall po loc g, p = Some po -> group loc po = Some g -> NoDup (Js.obj_keys g).

Lemma parametersArrayToObject_distinct parameters :
  groups_distinct (parametersArrayToObject parameters).
Proof.
  destruct parameters as [l|]; [|intros ? ? ? [=]].
  unfold parametersArrayToObject.
  induction l as [|p l IH] using rev_ind; intros po loc g [= <-].
  - destruct loc; discriminate.
  - rewrite fold_left_app; simpl. rewrite group_set_group.
    destruct (decide (loc = param_in p)) as [->|Hne].
    + intros [= <-]. apply Js.obj_set_NoDup.
      destruct (group (param_in p) _) as [g0|] eqn:E; simpl.
      * exact (IH _ _ _ eq_refl E).
      * apply NoDup_nil_2.
    + intros Hg. exact (IH _ _ _ eq_refl Hg).
Qed.

Lemma grouped_lookup_merge loc name source target :
  groups_distinct source ->
  grouped_lookup loc name (mergeParametersObjects source target) =
  match grouped_lookup loc name source with
  | Some q => Some q
  | None => grouped_lookup loc name target
  end.
Proof.
  intros Hd. destruct source as [s|], target as [t|]; simpl; try reflexivity.
  - assert (Hg : forall g, group loc s = Some g -> NoDup (Js.obj_keys g)).
    { intros g. apply (Hd s loc g eq_refl). }
    assert (group loc
              {| cookie := merge_group (cookie t) (cookie s);
                 header := merge_group (header t) (header s);
                 path := merge_group (path t) (path s);
                 query := merge_group (query t) (query s) |}
            = merge_group (group loc t) (group loc s)) as -> by (destruct loc; reflexivity).
    destruct (group loc s) as [gs|], (group loc t) as [gt|]; simpl; try reflexivity.
    + apply Js.obj_get_spread, Hg. reflexivity.
    + destruct (Js.obj_get name gs); reflexivity.
  - destruct (group loc s) as [gs|]; [|reflexivity].
    destruct (Js.obj_get name gs); reflexivity.
Qed.

(** C6.  For a path item and a method it has (and the filters accept),
    the operation handed on has, for every location and name, the
    parameter the method declares with that location and name if it
    declares one, and otherwise the one the path item declares: the
    method wins on a collision, and a parameter declared at one level
    only is kept. *)
Theorem method_parameters_win resolveRef shouldProcessRef
    p pathItem final m operation :
  finalPathItem resolveRef pathItem = Normal final ->
  method_of m final = Some operation ->
  shouldProcessRef ("#/paths" ++ p ++ "/" ++ method_name m)%string operation = true ->
  exists calls call,
    path_calls resolveRef shouldProcessRef p pathItem = Normal calls /\
    call ∈ calls /\
    oa_method call = m /\
    forall loc name,
      grouped_lookup loc name (oa_parameters call) =
      match declared loc name (default [] (so_parameters operation)) with
      | Some q => Some q
      | None => declared loc name (default [] (pi_parameters final))
      end.
Proof.
  intros Hfinal Hm Hok. unfold path_calls. rewrite Hfinal.
  assert (Hcall : exists call, method_call shouldProcessRef p final m = Some call /\
            oa_method call = m /\
            oa_parameters call =
              mergeParametersObjects
                (parametersArrayToObject (so_parameters operation))
                (parametersArrayToObject (pi_parameters final))).
  { unfold method_call. rewrite Hm, Hok. eexists. repeat split. }
  destruct Hcall as (call & Hcall & Hmeth & Hpar).
  exists (omap (method_call shouldProcessRef p final) methods), call.
  split; [reflexivity|]. split.
  { apply list_elem_of_omap. exists m. split; [|exact Hcall].
    destruct m; unfold methods; set_solver. }
  split; [exact Hmeth|].
  intros loc name. rewrite Hpar, grouped_lookup_merge.
  - rewrite !grouped_lookup_array. reflexivity.
  - apply parametersArrayToObject_distinct.
Qed.

(** *** The loop over [spec.paths], and the loops over parameters and
    request bodies *)

Section Loops.

Variable resolveRef : string -> Completion PathItemObject.
Variable shouldProcessRef : string -> SpecOperation -> bool.

(** [m] is a method of the path item that the filters accept. *)
Definition accepted (p : string) (final : PathItemObject) (m : Method) : bool :=
  match method_of m final with
  | Some operation =>
      shouldProcessRef ("#/paths" ++ p ++ "/" ++ method_name m)%string operation
  | None => false
  end.

(** [for (const path in context.spec.paths)]: the calls of
    [parseOperation] made, and the error if resolving a path item
    threw. *)
Fixpoint parse_paths (paths : list (string * PathItemObject))
  : list OperationArgs * option JsError :=
  match paths with
  | [] => ([], None)
  | (p, pathItem) :: rest =>
      match path_calls resolveRef shouldProcessRef p pathItem with
      | Abrupt e => ([], Some e)
      | Normal calls =>
          let '(more, error) := parse_paths rest in (calls ++ more, error)
      end
  end.

Lemma method_call_method p final m call :
  method_call shouldProcessRef p final m = Some call ->
  oa_method call = m /\ oa_path call = p.
Proof.
  unfold method_call. destruct (method_of m final) as [o|]; [|discriminate].
  destruct (shouldProcessRef _ o); [|discriminate]. intros [= <-]. auto.
Qed.

Lemma method_call_accepted p final m :
  is_Some (method_call shouldProcessRef p final m) <-> accepted p final m = true.
Proof.
  unfold method_call, accepted. destruct (method_of m final) as [o|].
  - destruct (shouldProcessRef _ o); split; intros H;
      try reflexivity; try discriminate H; eauto.
    destruct H as [x Hx]. discriminate Hx.
  - split; [intros [x Hx]; discriminate Hx|discriminate].
Qed.

Lemma method_calls_filter p final l :
  map oa_method (omap (method_call shouldProcessRef p final) l) =
  filter (fun m => accepted p final m = true) l.
Proof.
  induction l as [|m l IH]; [reflexivity|]. rewrite filter_cons.
  change (omap (method_call shouldProcessRef p final) (m :: l))
    with (match method_call shouldProcessRef p final m with
          | Some y => y :: omap (method_call shouldProcessRef p final) l
          | None => omap (method_call shouldProcessRef p final) l
          end).
  destruct (method_call shouldProcessRef p final m) as [call|] eqn:E.
  - destruct (method_call_method _ _ _ _ E) as [Hm _].
    destruct (decide (accepted p final m = true)) as [_|Hn].
    + rewrite map_cons, Hm, IH. reflexivity.
    + destruct Hn. apply method_call_accepted. eauto.
  - destruct (decide (accepted p final m = true)) as [Ha|_]; [|exact IH].
    apply method_call_accepted in Ha as [x Hx]. congruence.
Qed.

(** X8.  For one path, [parseOperation] is called once for each method
    the path item has and the filters accept, and for no other; the calls
    come in the order [delete], [get], [head], [options], [patch],
    [post], [put], [trace], whatever the order in the document, and
    each is for this path. *)
Theorem path_calls_order p pathItem final calls :
  finalPathItem resolveRef pathItem = Normal final ->
  path_calls resolveRef shouldProcessRef p pathItem = Normal calls ->
  map oa_method calls = filter (fun m => accepted p final m = true) methods /\
  Forall (fun call => oa_path call = p) calls.
Proof.
  unfold path_calls. intros Hf Hc. rewrite Hf in Hc.
  apply (f_equal (fun c => match c with Normal x => x | Abrupt _ => [] end))
    in Hc. subst calls.
  split; [apply method_calls_filter|].
  apply Forall_forall. intros call Hc. apply list_elem_of_omap in Hc
    as (m & _ & Hm). apply (method_call_method _ _ _ _ Hm).
Qed.

(** X9.  A path item with a [$ref] that resolves, and a method only the
    referenced item has: the operation is parsed, for this path.  Its
    parameters are the method's, then the path-level ones; these are the
    inline [parameters] when the path item has its own (the referenced
    item's are then dropped as a whole, not merged), and the referenced
    item's otherwise. *)
Theorem referenced_operation_parsed p pathItem r referenced m operation :
  Js.truthy (pi_ref pathItem) = Some r ->
  resolveRef r = Normal referenced ->
  method_of m pathItem = None ->
  method_of m referenced = Some operation ->
  shouldProcessRef ("#/paths" ++ p ++ "/" ++ method_name m)%string operation
  = true ->
  exists calls call,
    path_calls resolveRef shouldProcessRef p pathItem = Normal calls /\
    call ∈ calls /\
    oa_method call = m /\
    oa_path call = p /\
    forall loc name,
      grouped_lookup loc name (oa_parameters call) =
      match declared loc name (default [] (so_parameters operation)) with
      | Some q => Some q
      | None =>
          declared loc name
            (default []
               (match pi_parameters pathItem with
                | Some l => Some l
                | None => pi_parameters referenced
                end))
      end.
Proof.
  intros Hr Hres Hm Hop Hok. unfold path_calls, finalPathItem.
  rewrite Hr, Hres.
  set (final := spread_path_item referenced pathItem).
  assert (Hfm : method_of m final = Some operation).
  { unfold final. destruct m; simpl in *; rewrite Hm; exact Hop. }
  assert (Hcall : exists call,
            method_call shouldProcessRef p final m = Some call /\
            oa_parameters call =
              mergeParametersObjects
                (parametersArrayToObject (so_parameters operation))
                (parametersArrayToObject (pi_parameters final))).
  { unfold method_call. rewrite Hfm, Hok. eexists. split; reflexivity. }
  destruct Hcall as (call & Hcall & Hpar).
  destruct (method_call_method _ _ _ _ Hcall) as [Hmeth Hpath].
  exists (omap (method_call shouldProcessRef p final) methods), call.
  split; [reflexivity|]. split.
  { apply list_elem_of_omap. exists m. split; [|exact Hcall].
    destruct m; unfold methods; set_solver. }
  split; [exact Hmeth|]. split; [exact Hpath|].
  intros loc name. rewrite Hpar, grouped_lookup_merge.
  - rewrite !grouped_lookup_array. reflexivity.
  - apply parametersArrayToObject_distinct.
Qed.

Lemma parse_paths_resolved paths :
  Forall (fun pi => exists final, finalPathItem resolveRef pi.2 = Normal final)
    paths ->
  parse_paths paths =
  (concat (map (fun pi =>
                  match path_calls resolveRef shouldProcessRef pi.1 pi.2 with
                  | Normal calls => calls
                  | Abrupt _ => []
                  end) paths), None).
Proof.
  induction 1 as [|[p item] paths [final Hf] _ IH]; [reflexivity|].
  simpl in *. unfold path_calls at 1 2. rewrite Hf, IH. reflexivity.
Qed.

(** X10.  A path item whose [$ref] does not resolve ends the loop with
    that error: the operations of the paths before it were handed to
    [parseOperation], path by path in the order of [spec.paths], and no
    operation of that path or of a later one is, inline operations of
    that path included. *)
Theorem parse_paths_unresolved pre p pathItem r e post :
  Forall (fun pi => exists final, finalPathItem resolveRef pi.2 = Normal final)
    pre ->
  Js.truthy (pi_ref pathItem) = Some r ->
  resolveRef r = Abrupt e ->
  parse_paths (pre ++ (p, pathItem) :: post) =
  (concat (map (fun pi =>
                  match path_calls resolveRef shouldProcessRef pi.1 pi.2 with
                  | Normal calls => calls
                  | Abrupt _ => []
                  end) pre), Some e).
Proof.
  intros Hpre Hr He.
  induction Hpre as [|[p0 item] pre [final Hf] _ IH]; simpl.
  - unfold path_calls, finalPathItem. rewrite Hr, He. reflexivity.
  - simpl in Hf. unfold path_calls at 1 2. rewrite Hf. simpl in IH.
    rewrite IH. reflexivity.
Qed.

End Loops.

(** The loops over [components.parameters] and
    [components.requestBodies]: an entry is a component or a reference to
    one, and a reference is resolved before the filters see it.  The loop
    over [components.schemas] resolves nothing, it hands each entry to the
    filters and to [parseSchema] as it stands, and is not modelled here. *)
Inductive OrReference (A : Type) :=
| Inline (a : A)
| Reference (r : string).
Arguments Inline {A} a.
Arguments Reference {A} r.

Section Components.

Context {A : Type}.

(** [context.resolveRef], the filters, and the kind (['parameters'],
    ['requestBodies']). *)
Variable resolveRef : string -> Completion A.
Variable shouldProcessRef : string -> A -> bool.
Variable kind : string.

Definition canonical (name : string) : string :=
  ("#/components/" ++ kind ++ "/" ++ name)%string.

(** ['$ref' in entry ? context.resolveRef(entry.$ref) : entry] *)
Definition resolved (entry : OrReference A) : Completion A :=
  match entry with
  | Inline a => Normal a
  | Reference r => resolveRef r
  end.

(** The calls of [parseParameter] (of [parseRequestBody]), each with
    [$ref] and the resolved component, and the error if a reference did
    not resolve. *)
Fixpoint component_calls (entries : list (string * OrReference A))
  : list (string * A) * option JsError :=
  match entries with
  | [] => ([], None)
  | (name, entry) :: rest =>
      match resolved entry with
      | Abrupt e => ([], Some e)
      | Normal a =>
          let '(more, error) := component_calls rest in
          (if shouldProcessRef (canonical name) a
           then (canonical name, a) :: more else more,
           error)
      end
  end.

(** X11.  In the loops over [components.parameters] and
    [components.requestBodies], a component is parsed exactly when the
    filters accept it under its canonical pointer
    [#/components/<kind>/<name>]: what is parsed was accepted, every entry
    that is accepted is parsed, and the calls come in the order of the
    entries.  An entry that is a reference is judged, and parsed, as the
    component it resolves to, under its own name. *)
Theorem component_calls_filtered entries values :
  Forall2 (fun entry a => resolved entry.2 = Normal a) entries values ->
  component_calls entries =
  (filter (fun c => shouldProcessRef c.1 c.2 = true)
     (zip (map (fun entry => canonical entry.1) entries) values),
   None).
Proof.
  induction 1 as [|[name entry] a entries values Ha _ IH]; [reflexivity|].
  simpl in *. rewrite Ha, IH, filter_cons. simpl.
  destruct (shouldProcessRef (canonical name) a); reflexivity.
Qed.

End Components.

(** Scenario S3: [/pets/{id}] with a required header [version] on the
    path item and an optional header [version] on [get]. *)
Definition header_version (req : bool) : ParameterObject :=
  {| param_name := "version"; param_in := in_header; param_required := req;
     param_schema := schemaOfType t_string |}.

Definition path_id : ParameterObject :=
  {| param_name := "id"; param_in := in_path; param_required := true;
     param_schema := schemaOfType t_string |}.

Definition pets_get : SpecOperation :=
  {| so_description := None; so_summary := None;
     so_parameters := Some [header_version false] |}.

Definition pets_item : PathItemObject :=
  {| pi_ref := None; pi_description := None; pi_summary := None;
     pi_parameters := Some [header_version true; path_id];
     pi_delete := None; pi_get := Some pets_get; pi_head := None;
     pi_options := None; pi_patch := None; pi_post := None; pi_put := None;
     pi_trace := None |}.

Definition no_refs (r : string) : Completion PathItemObject :=
  Abrupt {| error_name := "Error"; error_message := "Reference not found" |}.

Lemma method_parameters_win_witness :
  exists calls call,
    path_calls no_refs (fun _ _ => true) "/pets/{id}" pets_item = Normal calls /\
    call ∈ calls /\
    oa_method call = m_get /\
    forall loc name,
      grouped_lookup loc name (oa_parameters call) =
      match declared loc name [header_version false] with
      | Some q => Some q
      | None => declared loc name [header_version true; path_id]
      end.
Proof.
  apply (method_parameters_win no_refs (fun _ _ => true) "/pets/{id}"
           pets_item pets_item m_get pets_get); reflexivity.
Defined.

Example pets_get_parameters :
  path_calls no_refs (fun _ _ => true) "/pets/{id}" pets_item =
  Normal
    [ {| oa_method := m_get; oa_path := "/pets/{id}"; oa_description := None;
         oa_summary := None;
         oa_parameters :=
           Some {| cookie := None;
                   header := Some [("version", header_version false)];
                   path := Some [("id", path_id)];
                   query := None |} |} ].
Proof. reflexivity. Qed.

Definition pets_call : OperationArgs :=
  {| oa_method := m_get; oa_path := "/pets/{id}"; oa_description := None;
     oa_summary := None;
     oa_parameters :=
       Some {| cookie := None;
               header := Some [("version", header_version false)];
               path := Some [("id", path_id)];
               query := None |} |}.

Lemma path_calls_order_witness :
  map oa_method [pets_call] =
  filter (fun m => accepted (fun _ _ => true) "/pets/{id}" pets_item m = true)
    methods /\
  Forall (fun call => oa_path call = "/pets/{id}") [pets_call].
Proof.
  apply (path_calls_order no_refs (fun _ _ => true) "/pets/{id}" pets_item
           pets_item [pets_call]); reflexivity.
Defined.

(** A shared path item with a header and [delete], and a path item that
    refers to it and has [get] and a path parameter of its own. *)
Definition shared_delete : SpecOperation :=
  {| so_description := None; so_summary := None; so_parameters := None |}.

Definition shared_item : PathItemObject :=
  {| pi_ref := None; pi_description := None; pi_summary := None;
     pi_parameters := Some [header_version true];
     pi_delete := Some shared_delete; pi_get := None; pi_head := None;
     pi_options := None; pi_patch := None; pi_post := None; pi_put := None;
     pi_trace := None |}.

Definition referring_item (r : string) : PathItemObject :=
  {| pi_ref := Some r; pi_description := None; pi_summary := None;
     pi_parameters := Some [path_id];
     pi_delete := None; pi_get := Some pets_get; pi_head := None;
     pi_options := None; pi_patch := None; pi_post := None; pi_put := None;
     pi_trace := None |}.

Definition shared_refs (r : string) : Completion PathItemObject :=
  if decide (r = "#/components/pathItems/shared") then Normal shared_item
  else Abrupt {| error_name := "Error"; error_message := "Reference not found" |}.

Lemma referenced_operation_parsed_witness :
  exists calls call,
    path_calls shared_refs (fun _ _ => true) "/pets/{id}"
      (referring_item "#/components/pathItems/shared") = Normal calls /\
    call ∈ calls /\
    oa_method call = m_delete /\
    oa_path call = "/pets/{id}" /\
    forall loc name,
      grouped_lookup loc name (oa_parameters call) =
      match declared loc name [] with
      | Some q => Some q
      | None => declared loc name [path_id]
      end.
Proof.
  apply (referenced_operation_parsed shared_refs (fun _ _ => true) "/pets/{id}"
           (referring_item "#/components/pathItems/shared")
           "#/components/pathItems/shared" shared_item m_delete shared_delete);
    reflexivity.
Defined.

Lemma parse_paths_unresolved_witness :
  parse_paths shared_refs (fun _ _ => true)
    ([("/pets/{id}", pets_item)]
     ++ ("/owners", referring_item "#/components/pathItems/gone")
     :: [("/pets", pets_item)]) =
  ([pets_call],
   Some {| error_name := "Error"; error_message := "Reference not found" |}).
Proof.
  apply (parse_paths_unresolved shared_refs (fun _ _ => true)
           [("/pets/{id}", pets_item)] "/owners"
           (referring_item "#/components/pathItems/gone")
           "#/components/pathItems/gone"
           {| error_name := "Error"; error_message := "Reference not found" |}
           [("/pets", pets_item)]).
  - constructor; [exists pets_item; reflexivity|constructor].
  - reflexivity.
  - reflexivity.
Defined.

(** Two parameters, the second a reference to the first; the filters
    exclude the pointer of [limit]. *)
Definition parameter_refs (r : string) : Completion ParameterObject :=
  if decide (r = "#/components/parameters/limit") then Normal path_id
  else Abrupt {| error_name := "Error"; error_message := "Reference not found" |}.

Lemma component_calls_filtered_witness :
  component_calls parameter_refs
    (fun r _ => negb (bool_decide (r = "#/components/parameters/limit")))
    "parameters"
    [("limit", Inline path_id);
     ("size", Reference "#/components/parameters/limit")] =
  ([("#/components/parameters/size", path_id)], None).
Proof.
  rewrite (component_calls_filtered parameter_refs
             (fun r _ => negb (bool_decide (r = "#/components/parameters/limit")))
             "parameters"
             [("limit", Inline path_id);
              ("size", Reference "#/components/parameters/limit")]
             [path_id; path_id]).
  - vm_compute. reflexivity.
  - repeat constructor.
Defined.

End Parser.

(** ** The Zod plugin *)

Module Zod.
Import IR.

(** *** Emitted syntax

    Expressions name the [compiler] call that builds them.  A parameter of
    a call may be [undefined] ([valueToExpression] can return it). *)

Inductive PropertyName :=
| pn_text (s : string)
| pn_string_literal (s : string)
| pn_numeric_literal (s : string).

Inductive Expression :=
| TsIdentifier (text : string)
| TsPropertyAccess (expression : Expression) (name : string)
| TsCall (functionName : Expression) (parameters : list (option Expression))
| TsArrowFunction (returned : Expression)
| TsArrayLiteral (elements : list Expression)
| TsObjectLiteral (members : list (PropertyName * Expression))
| TsStringLiteral (text : string)
| TsRegularExpressionLiteral (text : string)
| OtsBoolean (b : bool)
| OtsNumber (n : Z)
| OtsString (s : string).

Definition zIdentifier : Expression := TsIdentifier "z".

(** [z.name(parameters)] *)
Definition z_call (name : string) (parameters : list (option Expression))
  : Expression :=
  TsCall (TsPropertyAccess zIdentifier name) parameters.

(** [expression.name(parameters)] *)
Definition method (expression : Expression) (name : string)
    (parameters : list (option Expression)) : Expression :=
  TsCall (TsPropertyAccess expression name) parameters.

(** The names on the spine of an expression, outermost last:
    [z.number().int().gte(0)] has [["number"; "int"; "gte"]]. *)
Fixpoint spine (e : Expression) : list string :=
  match e with
  | TsPropertyAccess r n => spine r ++ [n]
  | TsCall f _ => spine f
  | _ => []
  end.

(** [compiler.constVariable({ comment, exportConst, expression, name,
    typeName })] *)
Record ConstVariable := {
  cv_comment : option (list string);
  cv_exportConst : bool;
  cv_expression : Expression;
  cv_name : string;
  cv_typeName : option Expression;
}.

(** *** State, identifiers and the file *)

Inductive Namespace := ns_type | ns_value.

#[global] Instance Namespace_eq_dec : EqDecision Namespace.
Proof. solve_decision. Defined.

#[global] Program Instance Namespace_countable : Countable Namespace :=
  inj_countable'
    (fun n => match n with ns_type => false | ns_value => true end)
    (fun b : bool => if b then ns_value else ns_type) _.
Next Obligation. intros []; reflexivity. Qed.

(** [string | ((name: string) => string)] *)
Inductive NameTransformer :=
| name_pattern (s : string)
| name_function (f : string -> string).

Record State := {
  circularReferenceTracker : gset string;
  hasCircularReference : bool;
  nameCase : StringCase;
  nameTransformer : NameTransformer;
}.

Record Identifier := {
  name : string;
  created : bool;
}.

(** The generated file: the names its identifier service has given, by
    [$ref] and namespace, and the nodes added to it. *)
Record GeneratedFile := {
  names : gmap (string * Namespace) string;
  nodes : list ConstVariable;
}.

Record Config := {
  comments : bool;
  metadata : bool;
  definitions_case : StringCase;
  definitions_name : NameTransformer;
  requests_enabled : bool;
  requests_case : StringCase;
  requests_name : NameTransformer;
  responses_enabled : bool;
  responses_case : StringCase;
  responses_name : NameTransformer;
}.

(** The plugin instance: its configuration and, through its context, the
    schemas [resolveIrRef] finds. *)
Record Plugin := {
  config : Config;
  components : gmap string SchemaObject;
}.

(** The objects a call reaches and may change. *)
Record Store := {
  state : State;
  file : GeneratedFile;
}.

(** A call returns a value and the store it leaves, throws, or is cut
    off by the recursion bound. *)
Inductive Result (A : Type) :=
| Ok (a : A) (s : Store)
| Throw (e : JsError)
| OutOfFuel.
Arguments Ok {A} a s.
Arguments Throw {A} e.
Arguments OutOfFuel {A}.

Definition M (A : Type) : Type := Store -> Result A.

Definition ret {A} (a : A) : M A := fun s => Ok a s.

Definition bind {A B} (m : M A) (k : A -> M B) : M B :=
  fun s =>
    match m s with
    | Ok a s' => k a s'
    | Throw e => Throw e
    | OutOfFuel => OutOfFuel
    end.

Definition throw {A} (e : JsError) : M A := fun _ => Throw e.

Notation "'let*' x ':=' m 'in' k" := (bind m (fun x => k))
  (at level 10, x pattern, m at level 200, k at level 200).
Notation "m ';;' k" := (bind m (fun _ => k))
  (at level 100, k at level 200, right associativity).

Fixpoint mapM {A B} (f : A -> M B) (l : list A) : M (list B) :=
  match l with
  | [] => ret []
  | x :: r => let* y := f x in let* ys := mapM f r in ret (y :: ys)
  end.

Definition getState : M State := fun s => Ok (state s) s.

Definition setTracker (t : gset string) : M unit :=
  fun s =>
    Ok tt {| state := {| circularReferenceTracker := t;
                         hasCircularReference := hasCircularReference (state s);
                         nameCase := nameCase (state s);
                         nameTransformer := nameTransformer (state s) |};
             file := file s |}.

(** [state.circularReferenceTracker.add($ref)] *)
Definition trackerAdd (r : string) : M unit :=
  let* st := getState in setTracker ({[r]} ∪ circularReferenceTracker st).

(** [state.circularReferenceTracker.delete($ref)] *)
Definition trackerDelete (r : string) : M unit :=
  let* st := getState in setTracker (circularReferenceTracker st ∖ {[r]}).

(** [state.hasCircularReference = true] *)
Definition markCircular : M unit :=
  fun s =>
    Ok tt {| state := {| circularReferenceTracker := circularReferenceTracker (state s);
                         hasCircularReference := true;
                         nameCase := nameCase (state s);
                         nameTransformer := nameTransformer (state s) |};
             file := file s |}.

(** [file.add(statement)] *)
Definition fileAdd (statement : ConstVariable) : M unit :=
  fun s =>
    Ok tt {| state := state s;
             file := {| names := names (file s);
                        nodes := nodes (file s) ++ [statement] |} |}.

Definition TypeError (msg : string) : JsError :=
  {| error_name := "TypeError"; error_message := msg |}.

Lemma bind_Ok {A B} (m : M A) (k : A -> M B) s b s' :
  bind m k s = Ok b s' <-> exists a s1, m s = Ok a s1 /\ k a s1 = Ok b s'.
Proof.
  unfold bind. split.
  - destruct (m s) as [a s1| |]; [|discriminate..]. eauto.
  - intros (a & s1 & -> & H). exact H.
Qed.

Lemma ret_Ok {A} (a b : A) s s' : ret a s = Ok b s' <-> a = b /\ s = s'.
Proof. unfold ret. split; [intros [= -> ->]; auto|intros [-> ->]; reflexivity]. Qed.

(** Take a run that returned apart, one [bind] at a time. *)
Ltac run_inv H :=
  repeat match type of H with
  | bind _ _ _ = Ok _ _ =>
      let a := fresh "v" in
      let s := fresh "s" in
      let H1 := fresh "Hrun" in
      apply bind_Ok in H; destruct H as (a & s & H1 & H)
  | ret _ _ = Ok _ _ => apply ret_Ok in H; destruct H as [? ?]; subst
  | (match ?p with (_, _) => _ end) _ = Ok _ _ => destruct p
  end.

(** *** Emitters *)

Section Emitter.

(** Parts of the repository the emitter calls that are not among the
    sources:
    - [deduplicateSchema] of [ir/schema];
    - [compiler.valueToExpression];
    - [numberRegExp] of [utils/regexp], through its [test];
    - [createSchemaComment] of [plugins/shared/utils/schema];
    - [operationResponsesMap] of [ir/operation], through its [response];
    - the naming of the identifier service (below). *)
Variable deduplicateSchema : SchemaObject -> SchemaObject.
Variable valueToExpression : JsValue -> option Expression.
Variable numberRegExp_test : string -> bool.
Variable createSchemaComment : SchemaObject -> option (list string).
Variable operationResponsesMap : OperationObject -> option SchemaObject.

(** Modelled from the spec: the naming of the Identifier Service.  A new
    name is derived from the last segment of [$ref] by the name
    transformer and the case conversion, with a numeric suffix on a
    collision within the file and namespace. *)
Variable uniqueName :
  gmap (string * Namespace) string -> Namespace -> StringCase ->
  NameTransformer -> string -> string.

Variable plugin : Plugin.

(** Modelled from the spec: [file.identifier] of [generate/files] is not
    among the sources.  An existing mapping for [($ref, namespace)] is
    returned with [created = false]; otherwise, with [create], a new name
    is recorded and returned with [created = true]; otherwise the result
    is [{ name: "", created: false }]. *)
Definition identifier (r : string) (case : StringCase) (create : bool)
    (transformer : NameTransformer) (ns : Namespace) : M Identifier :=
  fun s =>
    match names (file s) !! (r, ns) with
    | Some n => Ok {| name := n; created := false |} s
    | None =>
        if create then
          let n := uniqueName (names (file s)) ns case transformer r in
          Ok {| name := n; created := true |}
             {| state := state s;
                file := {| names := <[(r, ns) := n]> (names (file s));
                           nodes := nodes (file s) |} |}
        else Ok {| name := ""; created := false |} s
    end.

(** [plugin.context.resolveIrRef]: a pointer nothing is found at throws. *)
Definition resolveIrRef (r : string) : M SchemaObject :=
  match components plugin !! r with
  | Some s => ret s
  | None =>
      throw {| error_name := "Error";
               error_message := ("Reference not found: " ++ r)%string |}
  end.

Definition unknownTypeToZodSchema : Expression := z_call "unknown" [].

Definition booleanTypeToZodSchema (schema : SchemaObject) : Expression :=
  match const_ schema with
  | JBool b => z_call "literal" [Some (OtsBoolean b)]
  | _ => z_call "boolean" []
  end.

(** The member an enum item contributes, if it is a string constant. *)
Definition enumMember (item : SchemaObject) : option Expression :=
  match type item, const_ item with
  | Some t_string, JString c => Some (TsStringLiteral c)
  | _, _ => None
  end.

(** An item that is no string member and is [null]. *)
Definition enumNull (item : SchemaObject) : bool :=
  match enumMember item with
  | Some _ => false
  | None =>
      match type item, const_ item with
      | Some t_null, _ => true
      | _, JNull => true
      | _, _ => false
      end
  end.

Definition enumTypeToZodSchema (schema : SchemaObject) : Expression :=
  let enumMembers := omap enumMember (default [] (items schema)) in
  let isNullable := existsb enumNull (default [] (items schema)) in
  match enumMembers with
  | [] => unknownTypeToZodSchema
  | _ =>
      let enumExpression := z_call "enum" [Some (TsArrayLiteral enumMembers)] in
      if isNullable then method enumExpression "nullable" [] else enumExpression
  end.

Definition neverTypeToZodSchema : Expression := z_call "never" [].
Definition nullTypeToZodSchema : Expression := z_call "null" [].
Definition undefinedTypeToZodSchema : Expression := z_call "undefined" [].
Definition voidTypeToZodSchema : Expression := z_call "void" [].

(** [typeof value] is ['bigint'], ['number'], ['string'] or ['boolean']. *)
Definition coercible (value : JsValue) : bool :=
  match value with
  | JBigInt _ | JNumber _ | JString _ | JBool _ => true
  | _ => false
  end.

Definition numberParameter (isBigInt : bool) (value : JsValue)
  : option Expression :=
  let expression := valueToExpression value in
  if (isBigInt && coercible value)%bool
  then Some (TsCall (TsIdentifier "BigInt") [expression])
  else expression.

Definition isInt64 (schema : SchemaObject) : bool :=
  bool_decide (type schema = Some t_integer /\ format schema = Some "int64").

Definition numberTypeToZodSchema (schema : SchemaObject) : Expression :=
  let isBigInt := isInt64 schema in
  match const_ schema with
  | JNumber c => z_call "literal" [Some (OtsNumber c)]
  | _ =>
      let e0 :=
        if isBigInt
        then TsCall (TsPropertyAccess (TsPropertyAccess zIdentifier "coerce") "bigint") []
        else z_call "number" [] in
      let e1 :=
        if (negb isBigInt && bool_decide (type schema = Some t_integer))%bool
        then method e0 "int" [] else e0 in
      let e2 :=
        match exclusiveMinimum schema, minimum schema with
        | Some v, _ => method e1 "gt" [numberParameter isBigInt (JNumber v)]
        | None, Some v => method e1 "gte" [numberParameter isBigInt (JNumber v)]
        | None, None => e1
        end in
      match exclusiveMaximum schema, maximum schema with
      | Some v, _ => method e2 "lt" [numberParameter isBigInt (JNumber v)]
      | None, Some v => method e2 "lte" [numberParameter isBigInt (JNumber v)]
      | None, None => e2
      end
  end.

(** [.length(n)] when both bounds are the same, else [.min] and [.max]
    independently. *)
Definition lengthRefinements (lo hi : option Z) (e : Expression) : Expression :=
  match lo with
  | Some n =>
      if decide (lo = hi)
      then method e "length" [valueToExpression (JNumber n)]
      else
        let e1 := method e "min" [valueToExpression (JNumber n)] in
        match hi with
        | Some m => method e1 "max" [valueToExpression (JNumber m)]
        | None => e1
        end
  | None =>
      match hi with
      | Some m => method e "max" [valueToExpression (JNumber m)]
      | None => e
      end
  end.

Definition stringFormat (f : string) (e : Expression) : Expression :=
  if decide (f = "date-time") then method e "datetime" []
  else if decide (f = "ipv4" \/ f = "ipv6") then method e "ip" []
  else if decide (f = "uri") then method e "url" []
  else if decide (f = "date" \/ f = "email" \/ f = "time" \/ f = "uuid")
       then method e f []
  else e.

Definition stringTypeToZodSchema (schema : SchemaObject) : Expression :=
  match const_ schema with
  | JString c => z_call "literal" [Some (OtsString c)]
  | _ =>
      let e0 := z_call "string" [] in
      let e1 :=
        match Js.truthy (format schema) with
        | Some f => stringFormat f e0
        | None => e0
        end in
      let e2 := lengthRefinements (minLength schema) (maxLength schema) e1 in
      match Js.truthy (pattern schema) with
      | Some p => method e2 "regex" [Some (TsRegularExpressionLiteral p)]
      | None => e2
      end
  end.

(** The name of an object property as it is emitted. *)
Definition propertyName (name : string) : PropertyName :=
  let plain :=
    if numberRegExp_test name
    then (if Js.starts_with "-" name
          then pn_string_literal name else pn_numeric_literal name)
    else pn_text name in
  let leadingDigit :=
    match name with
    | String c _ => Js.is_digit c
    | EmptyString => false
    end in
  let hasNonDigit := existsb (fun c => negb (Js.is_digit c)) (Js.chars name) in
  let hasNonWord := existsb (fun c => negb (Js.is_word c)) (Js.chars name) in
  if (((leadingDigit && hasNonDigit) || hasNonWord)
      && negb (Js.starts_with "'" name) && negb (Js.ends_with "'" name))%bool
  then pn_text ("'" ++ name ++ "'")%string
  else plain.

(** The arguments of [schemaToZodSchema], [plugin] and [state] apart. *)
Record Args := {
  arg_ref : option string;
  arg_identifier : option Identifier;
  arg_optional : bool;
  arg_schema : SchemaObject;
}.

(** A nested call: only [schema], and [optional] for a property. *)
Definition nested (optional : bool) (schema : SchemaObject) : Args :=
  {| arg_ref := None; arg_identifier := None; arg_optional := optional;
     arg_schema := schema |}.

(** The emitters below call [schemaToZodSchema] back; [rec] stands for
    it. *)
Section Open.

Variable rec : Args -> M Expression.

Definition arrayTypeToZodSchema (schema : SchemaObject) : M Expression :=
  let functionName := TsPropertyAccess zIdentifier "array" in
  let* (arrayExpression, schema) :=
    match items schema with
    | None => ret (TsCall functionName [Some unknownTypeToZodSchema], schema)
    | Some _ =>
        let schema := deduplicateSchema schema in
        match items schema with
        | None => throw (TypeError "Cannot read properties of undefined (reading 'map')")
        | Some its =>
            let* itemExpressions := mapM (fun item => rec (nested false item)) its in
            match itemExpressions with
            | [e] => ret (TsCall functionName [Some e], schema)
            | _ =>
                ret (z_call "array"
                       [Some (z_call "union" [Some (TsArrayLiteral itemExpressions)])],
                     schema)
            end
        end
    end in
  ret (lengthRefinements (minItems schema) (maxItems schema) arrayExpression).

Definition objectTypeToZodSchema (schema : SchemaObject)
  : M (option string * Expression) :=
  let required := default [] (required schema) in
  let* members :=
    mapM (fun '(name, property) =>
            let isRequired := bool_decide (name ∈ required) in
            let* propertyExpression := rec (nested (negb isRequired) property) in
            ret (propertyName name, propertyExpression))
         (default [] (properties schema)) in
  ret (Some "AnyZodObject", z_call "object" [Some (TsObjectLiteral members)]).

Definition tupleTypeToZodSchema (schema : SchemaObject) : M Expression :=
  match const_ schema with
  | JArray values =>
      let tupleElements :=
        map (fun value => z_call "literal" [valueToExpression value]) values in
      ret (z_call "tuple" [Some (TsArrayLiteral tupleElements)])
  | _ =>
      let* tupleElements :=
        mapM (fun item => rec (nested false item)) (default [] (items schema)) in
      ret (z_call "tuple" [Some (TsArrayLiteral tupleElements)])
  end.

(** The [switch] on [schema.type]; the first component is [anyType]. *)
Definition schemaTypeToZodSchema (t : SchemaType) (schema : SchemaObject)
  : M (option string * Expression) :=
  match t with
  | t_array => let* e := arrayTypeToZodSchema schema in ret (None, e)
  | t_boolean => ret (None, booleanTypeToZodSchema schema)
  | t_enum => ret (None, enumTypeToZodSchema schema)
  | t_integer | t_number => ret (None, numberTypeToZodSchema schema)
  | t_never => ret (None, neverTypeToZodSchema)
  | t_null => ret (None, nullTypeToZodSchema)
  | t_object => objectTypeToZodSchema schema
  | t_string => ret (None, stringTypeToZodSchema schema)
  | t_tuple => let* e := tupleTypeToZodSchema schema in ret (None, e)
  | t_undefined => ret (None, undefinedTypeToZodSchema)
  | t_unknown => ret (None, unknownTypeToZodSchema)
  | t_void => ret (None, voidTypeToZodSchema)
  end.

(** The name of a referenced schema, bare or behind [z.lazy]. *)
Definition referTo (isCircularReference : bool) (n : string) : M Expression :=
  let refIdentifier := TsIdentifier n in
  if isCircularReference
  then markCircular ;; ret (z_call "lazy" [Some (TsArrowFunction refIdentifier)])
  else ret refIdentifier.

(** The branch [if (schema.$ref)]. *)
Definition refToZodSchema (r : string) : M Expression :=
  let* st := getState in
  let isCircularReference := bool_decide (r ∈ circularReferenceTracker st) in
  let* identifierRef :=
    identifier r (nameCase st) false (nameTransformer st) ns_value in
  if decide (name identifierRef = "")
  then
    let* ref := resolveIrRef r in
    let* expression :=
      rec {| arg_ref := Some r; arg_identifier := None; arg_optional := false;
             arg_schema := ref |} in
    let* st := getState in
    let* identifierRef :=
      identifier r (nameCase st) false (nameTransformer st) ns_value in
    if decide (name identifierRef = "")
    then ret expression
    else referTo isCircularReference (name identifierRef)
  else referTo isCircularReference (name identifierRef).

(** [.describe(description)], in the branch [else if (schema.type)]. *)
Definition describe (schema : SchemaObject) (e : Expression) : Expression :=
  match Js.truthy (description schema) with
  | Some d =>
      if metadata (config plugin)
      then method e "describe" [Some (TsStringLiteral d)]
      else e
  | None => e
  end.

(** The branch [else if (schema.items)]; the second component is
    [schema] as reassigned. *)
Definition itemsToZodSchema (schema : SchemaObject)
  : M (Expression * SchemaObject) :=
  let schema := deduplicateSchema schema in
  match items schema with
  | Some its =>
      let* itemTypes := mapM (fun item => rec (nested false item)) its in
      if decide (logicalOperator schema = Some op_and)
      then
        match its, itemTypes with
        | firstSchema :: _, first :: others =>
            if decide (logicalOperator firstSchema = Some op_or
                       \/ (type firstSchema <> None
                           /\ type firstSchema <> Some t_object))
            then ret (z_call "intersection" (map Some itemTypes), schema)
            else
              ret (fold_left (fun e item => method e "and" [Some item])
                     others first,
                   schema)
        | _, _ =>
            throw (TypeError "Cannot read properties of undefined (reading 'logicalOperator')")
        end
      else ret (z_call "union" [Some (TsArrayLiteral itemTypes)], schema)
  | None =>
      let* expression := rec (nested false schema) in
      ret (expression, schema)
  end.

(** The modifiers applied after the dispatch. *)
Definition postModifiers (optional : bool) (schema : SchemaObject)
    (expression : Expression) : Expression :=
  let e1 :=
    if decide (accessScope schema = Some scope_read)
    then method expression "readonly" [] else expression in
  let e2 := if optional then method e1 "optional" [] else e1 in
  match default_ schema with
  | JUndefined => e2
  | value =>
      match numberParameter (isInt64 schema) value with
      | Some callParameter => method e2 "default" [Some callParameter]
      | None => e2
      end
  end.

(** The statement added for a new identifier. *)
Definition declaration (st : State) (n : string) (anyType : option string)
    (schema : SchemaObject) (expression : Expression) : ConstVariable :=
  {| cv_comment :=
       if comments (config plugin) then createSchemaComment schema else None;
     cv_exportConst := true;
     cv_expression := expression;
     cv_name := n;
     cv_typeName :=
       if hasCircularReference st
       then Some (TsPropertyAccess zIdentifier
                    (default "ZodTypeAny" (Js.truthy anyType)))
       else None |}.

(** The dispatch on the schema: [anyType], [expression], and [schema] as
    the rest of the function sees it. *)
Definition dispatch (schema : SchemaObject)
  : M (option string * Expression * SchemaObject) :=
  match Js.truthy (ref schema) with
  | Some r =>
      let* expression := refToZodSchema r in
      ret (None, expression, schema)
  | None =>
      match type schema with
      | Some t =>
          let* (anyType, expression) := schemaTypeToZodSchema t schema in
          ret (anyType, describe schema expression, schema)
      | None =>
          match items schema with
          | Some _ =>
              let* (expression, schema) := itemsToZodSchema schema in
              ret (None, expression, schema)
          | None =>
              let* (anyType, expression) :=
                schemaTypeToZodSchema t_unknown (schemaOfType t_unknown) in
              ret (anyType, expression, schema)
          end
      end
  end.

(** The block [if ($ref) { ... }] at the start: the identifier the call
    works with. *)
Definition enter (a : Args) : M (option Identifier) :=
  match Js.truthy (arg_ref a) with
  | Some r =>
      trackerAdd r ;;
      match arg_identifier a with
      | Some i => ret (Some i)
      | None =>
          let* st := getState in
          let* i := identifier r (nameCase st) true (nameTransformer st) ns_value in
          ret (Some i)
      end
  | None => ret (arg_identifier a)
  end.

(** The block [if ($ref) { ... }] after the dispatch. *)
Definition leave (a : Args) : M unit :=
  match Js.truthy (arg_ref a) with
  | Some r => trackerDelete r
  | None => ret tt
  end.

(** The block [if (identifier && identifier.name && identifier.created)]. *)
Definition emit (i : option Identifier) (anyType : option string)
    (schema : SchemaObject) (expression : Expression) : M unit :=
  match i with
  | Some i =>
      if (negb (bool_decide (name i = "")) && created i)%bool
      then
        let* st := getState in
        fileAdd (declaration st (name i) anyType schema expression)
      else ret tt
  | None => ret tt
  end.

(** The body of [schemaToZodSchema].  After the dispatch [expression] is
    always set, so [if (expression)] is taken. *)
Definition schemaToZodSchema_body (a : Args) : M Expression :=
  let* i := enter a in
  let* (anyType, expression, schema) := dispatch (arg_schema a) in
  leave a ;;
  let expression := postModifiers (arg_optional a) schema expression in
  emit i anyType schema expression ;;
  ret expression.

End Open.

(** [schemaToZodSchema], with a bound on the depth of nested calls. *)
Fixpoint schemaToZodSchema (fuel : nat) (a : Args) : M Expression :=
  match fuel with
  | 0 => fun _ => OutOfFuel
  | S n => schemaToZodSchema_body (schemaToZodSchema n) a
  end.

(** *** Operations *)

(** Modelled from the spec: [hasParameterGroupObjectRequired] of
    [ir/parameter] is not among the sources.  A group is required when
    any of its members is. *)
Definition hasParameterGroupObjectRequired
    (g : option (list (string * ParameterObject))) : bool :=
  existsb (fun kv => param_required (snd kv)) (default [] g).

(** One [for (const key in group)] loop: the properties, by parameter
    name, and the names of the required parameters. *)
Definition groupProperties (g : list (string * ParameterObject))
  : list (string * SchemaObject) * list string :=
  fold_left
    (fun acc kv =>
       let parameter := snd kv in
       (Js.obj_set (param_name parameter) (param_schema parameter) (fst acc),
        if param_required parameter
        then snd acc ++ [param_name parameter] else snd acc))
    g ([], []).

(** A group as a property of the request object. *)
Definition groupSchema (g : option (list (string * ParameterObject)))
  : SchemaObject :=
  let collected := groupProperties (default [] g) in
  match fst collected with
  | [] => schemaOfType t_never
  | props => objectSchema props (snd collected)
  end.

(** [requiredProperties] *)
Definition requiredProperties (operation : OperationObject) : list string :=
  (match op_body operation with
   | Some body => if body_required body then ["body"] else []
   | None => []
   end)
  ++ match op_parameters operation with
     | Some parameters =>
         (match header parameters with
          | Some _ =>
              if hasParameterGroupObjectRequired (path parameters)
              then ["headers"] else []
          | None => []
          end)
         ++ (match path parameters with
             | Some _ =>
                 if hasParameterGroupObjectRequired (path parameters)
                 then ["path"] else []
             | None => []
             end)
         ++ (match query parameters with
             | Some _ =>
                 if hasParameterGroupObjectRequired (query parameters)
                 then ["query"] else []
             | None => []
             end)
     | None => []
     end.

(** The schema of the request object of an operation. *)
Definition requestSchema (operation : OperationObject) : SchemaObject :=
  let parameters (loc : ParameterLocation) :=
    match op_parameters operation with
    | Some ps => group loc ps
    | None => None
    end in
  objectSchema
    [ ("body", match op_body operation with
               | Some body => body_schema body
               | None => schemaOfType t_never
               end);
      ("headers", groupSchema (parameters in_header));
      ("path", groupSchema (parameters in_path));
      ("query", groupSchema (parameters in_query)) ]
    (requiredProperties operation).

Definition operationToZodSchema (fuel : nat) (operation : OperationObject)
  : M unit :=
  (if requests_enabled (config plugin)
   then
     let r := ("#/zod-data/" ++ op_id operation)%string in
     let* identifierData :=
       identifier r (requests_case (config plugin)) true
         (requests_name (config plugin)) ns_value in
     schemaToZodSchema fuel
       {| arg_ref := Some r; arg_identifier := Some identifierData;
          arg_optional := false; arg_schema := requestSchema operation |} ;;
     ret tt
   else ret tt) ;;
  if responses_enabled (config plugin)
  then
    match op_responses operation with
    | Some _ =>
        match operationResponsesMap operation with
        | Some response =>
            let r := ("#/zod-response/" ++ op_id operation)%string in
            let* identifierResponse :=
              identifier r (responses_case (config plugin)) true
                (responses_name (config plugin)) ns_value in
            schemaToZodSchema fuel
              {| arg_ref := Some r; arg_identifier := Some identifierResponse;
                 arg_optional := false; arg_schema := response |} ;;
            ret tt
        | None => ret tt
        end
    | None => ret tt
    end
  else ret tt.

(** *** The subscribers of [handler] *)

(** The state every subscriber starts from. *)
Definition newState : State :=
  {| circularReferenceTracker := ∅;
     hasCircularReference := false;
     nameCase := definitions_case (config plugin);
     nameTransformer := definitions_name (config plugin) |}.

(** The subscribers of [parameter], [requestBody] and [schema], which
    differ in where the schema comes from. *)
Definition onComponent (fuel : nat) (r : string) (schema : SchemaObject)
    (f : GeneratedFile) : Result Expression :=
  schemaToZodSchema fuel
    {| arg_ref := Some r; arg_identifier := None; arg_optional := false;
       arg_schema := schema |}
    {| state := newState; file := f |}.

Definition onOperation (fuel : nat) (operation : OperationObject)
    (f : GeneratedFile) : Result unit :=
  operationToZodSchema fuel operation {| state := newState; file := f |}.

(** *** Properties of the emitters *)

(** [e] is [base] with bound refinements ([gt], [gte], [lt], [lte])
    applied to it. *)
Inductive bounded (base : Expression) : Expression -> Prop :=
| bounded_base : bounded base base
| bounded_step e m ps :
    bounded base e -> m ∈ ["gt"; "gte"; "lt"; "lte"] ->
    bounded base (method e m ps).

Lemma numberType_no_const schema :
  (forall c, const_ schema <> JNumber c) ->
  numberTypeToZodSchema schema =
  let isBigInt := isInt64 schema in
  let e0 :=
    if isBigInt
    then TsCall (TsPropertyAccess (TsPropertyAccess zIdentifier "coerce") "bigint") []
    else z_call "number" [] in
  let e1 :=
    if (negb isBigInt && bool_decide (type schema = Some t_integer))%bool
    then method e0 "int" [] else e0 in
  let e2 :=
    match exclusiveMinimum schema, minimum schema with
    | Some v, _ => method e1 "gt" [numberParameter isBigInt (JNumber v)]
    | None, Some v => method e1 "gte" [numberParameter isBigInt (JNumber v)]
    | None, None => e1
    end in
  match exclusiveMaximum schema, maximum schema with
  | Some v, _ => method e2 "lt" [numberParameter isBigInt (JNumber v)]
  | None, Some v => method e2 "lte" [numberParameter isBigInt (JNumber v)]
  | None, None => e2
  end.
Proof.
  intros Hc. unfold numberTypeToZodSchema.
  destruct (const_ schema); try reflexivity. exfalso; eapply Hc; eauto.
Qed.

(** C10.  For an integer schema without a numeric [const]: when the
    format is not [int64], the expression is [z.number().int()] with only
    bound refinements applied after it; when the format is [int64], it is
    [z.coerce.bigint()] with only bound refinements applied, and [.int()]
    is nowhere on it. *)
Theorem integer_int_refinement schema :
  type schema = Some t_integer ->
  (forall c, const_ schema <> JNumber c) ->
  (format schema <> Some "int64" ->
   bounded (method (z_call "number" []) "int" [])
     (numberTypeToZodSchema schema)) /\
  (format schema = Some "int64" ->
   bounded
     (TsCall (TsPropertyAccess (TsPropertyAccess zIdentifier "coerce") "bigint") [])
     (numberTypeToZodSchema schema) /\
   "int" ∉ spine (numberTypeToZodSchema schema)).
Proof.
  intros Ht Hc. rewrite (numberType_no_const schema Hc). cbv zeta.
  split; intros Hf.
  - assert (isInt64 schema = false) as ->.
    { unfold isInt64. apply bool_decide_eq_false. intros [_ H]. exact (Hf H). }
    rewrite bool_decide_eq_true_2 by exact Ht. simpl.
    destruct (exclusiveMinimum schema), (minimum schema),
      (exclusiveMaximum schema), (maximum schema);
      repeat (first [apply bounded_base
             | apply bounded_step; [|apply (bool_decide_unpack _); vm_compute; exact I]]).
  - assert (isInt64 schema = true) as ->.
    { unfold isInt64. apply bool_decide_eq_true. split; assumption. }
    simpl. split.
    + destruct (exclusiveMinimum schema), (minimum schema),
        (exclusiveMaximum schema), (maximum schema);
        repeat (first [apply bounded_base
             | apply bounded_step; [|apply (bool_decide_unpack _); vm_compute; exact I]]).
    + destruct (exclusiveMinimum schema), (minimum schema),
        (exclusiveMaximum schema), (maximum schema); simpl;
        apply (bool_decide_unpack _); vm_compute; exact I.
Qed.

(** The request object has exactly the properties [body], [headers],
    [path] and [query], in this order. *)
Lemma requestSchema_properties operation :
  type (requestSchema operation) = Some t_object /\
  map fst (default [] (properties (requestSchema operation))) =
  ["body"; "headers"; "path"; "query"].
Proof. split; reflexivity. Qed.

(** [x] is none of the strings of a list written out. *)
Ltac not_among H :=
  repeat (apply elem_of_cons in H as [H|H]; [discriminate H|]);
  apply elem_of_nil in H; destruct H.

(** [headers] is required exactly when the operation has a header group
    and a member of its *path* group is required. *)
Lemma headers_required_iff operation :
  "headers" ∈ requiredProperties operation <->
  exists parameters,
    op_parameters operation = Some parameters /\
    header parameters <> None /\
    hasParameterGroupObjectRequired (path parameters) = true.
Proof.
  unfold requiredProperties. rewrite elem_of_app. split.
  - intros [H|H].
    + destruct (op_body operation) as [b|]; [destruct (body_required b)|];
        not_among H.
    + destruct (op_parameters operation) as [ps|]; [|not_among H].
      rewrite !elem_of_app in H. destruct H as [H|[H|H]].
      * destruct (header ps) as [h|] eqn:Eh; [|not_among H].
        destruct (hasParameterGroupObjectRequired (path ps)) eqn:E;
          [|not_among H].
        exists ps. rewrite Eh. repeat split; [discriminate|exact E].
      * destruct (path ps); [|not_among H].
        destruct (hasParameterGroupObjectRequired _); not_among H.
      * destruct (query ps); [|not_among H].
        destruct (hasParameterGroupObjectRequired _); not_among H.
  - intros (ps & Hps & Hh & Hr). right. rewrite Hps, !elem_of_app. left.
    destruct (header ps); [|congruence]. rewrite Hr. apply elem_of_cons. auto.
Qed.

(** [path] is required exactly when a member of the path group is. *)
Lemma path_required_iff operation :
  "path" ∈ requiredProperties operation <->
  exists parameters,
    op_parameters operation = Some parameters /\
    hasParameterGroupObjectRequired (path parameters) = true.
Proof.
  unfold requiredProperties. rewrite elem_of_app. split.
  - intros [H|H].
    + destruct (op_body operation) as [b|]; [destruct (body_required b)|];
        not_among H.
    + destruct (op_parameters operation) as [ps|]; [|not_among H].
      rewrite !elem_of_app in H. destruct H as [H|[H|H]].
      * destruct (header ps); [|not_among H].
        destruct (hasParameterGroupObjectRequired _); not_among H.
      * destruct (path ps) as [pa|] eqn:Ep; [|not_among H].
        destruct (hasParameterGroupObjectRequired (Some pa)) eqn:E;
          [|not_among H].
        exists ps. rewrite Ep. split; [reflexivity|exact E].
      * destruct (query ps); [|not_among H].
        destruct (hasParameterGroupObjectRequired _); not_among H.
  - intros (ps & Hps & Hr). right. rewrite Hps, !elem_of_app. right. left.
    destruct (path ps); [|discriminate Hr]. rewrite Hr. apply elem_of_cons. auto.
Qed.

(** The call [.describe(description)] of the branch [else if
    (schema.type)]. *)
Definition describeModifier (schema : SchemaObject)
  : list (string * list (option Expression)) :=
  match Js.truthy (description schema) with
  | Some d =>
      if metadata (config plugin)
      then [("describe", [Some (TsStringLiteral d)])] else []
  | None => []
  end.

(** The calls of the block after the dispatch, in the order they are
    applied. *)
Definition blockModifiers (optional : bool) (schema : SchemaObject)
  : list (string * list (option Expression)) :=
  (if decide (accessScope schema = Some scope_read)
   then [("readonly", [])] else [])
  ++ (if optional then [("optional", [])] else [])
  ++ (match default_ schema with
      | JUndefined => []
      | value =>
          match numberParameter (isInt64 schema) value with
          | Some callParameter => [("default", [Some callParameter])]
          | None => []
          end
      end).

(** The calls appended to the expression of a typed schema, in the order
    they are applied. *)
Definition modifiers (optional : bool) (schema : SchemaObject)
  : list (string * list (option Expression)) :=
  describeModifier schema ++ blockModifiers optional schema.

Definition applyModifiers (base : Expression)
    (ms : list (string * list (option Expression))) : Expression :=
  fold_left (fun e m => method e (fst m) (snd m)) ms base.

Lemma describe_modifier schema base :
  describe schema base = applyModifiers base (describeModifier schema).
Proof.
  unfold describe, describeModifier, applyModifiers.
  destruct (Js.truthy (description schema)) as [d|];
    [destruct (metadata (config plugin))|]; reflexivity.
Qed.

Lemma postModifiers_block optional schema base :
  postModifiers optional schema base =
  applyModifiers base (blockModifiers optional schema).
Proof.
  unfold postModifiers, blockModifiers, applyModifiers.
  rewrite !fold_left_app.
  destruct (decide (accessScope schema = Some scope_read));
    destruct optional;
    (destruct (default_ schema); [reflexivity|..];
     match goal with
     | |- context [numberParameter ?b ?v] => destruct (numberParameter b v)
     end; reflexivity).
Qed.

Lemma postModifiers_describe optional schema base :
  postModifiers optional schema (describe schema base) =
  applyModifiers base (modifiers optional schema).
Proof.
  rewrite postModifiers_block, describe_modifier.
  unfold modifiers, applyModifiers. rewrite fold_left_app. reflexivity.
Qed.

(** C4, as the code has it.  Whatever the schema, what a call returns is
    the expression of the dispatch with the calls of the last block
    appended, in this order: [.readonly()] when [accessScope] is ['read'];
    [.optional()] when the caller passed [optional]; [.default(value)]
    when [default] is not [undefined] and the value has an expression, the
    value wrapped in [BigInt(...)] when the schema is an [int64] integer
    and the value a bigint, number, string or boolean.  These are judged
    on the schema as the dispatch leaves it: the deduplicated schema for a
    composition, the schema of the call otherwise.

    [.describe(description)] is not part of that block.  The typed branch
    (a [type] and no [$ref]) appends it to the expression of the type's
    emitter when metadata is enabled and the description is not empty, so
    there it comes first, before [.readonly()], [.optional()] and
    [.default()].  The other branches append nothing of their own: the
    expression is that of the [$ref] branch, that of the composition (for
    a composition deduplicated to a schema without items, what the nested
    call on that schema returns, with the calls that call appended), or
    [z.unknown()]. *)
Theorem typed_modifier_order fuel a s e s' :
  schemaToZodSchema (S fuel) a s = Ok e s' ->
  exists i anyType base x s0 s1,
    enter a s = Ok i s0 /\
    dispatch (schemaToZodSchema fuel) (arg_schema a) s0
      = Ok (anyType, base, x) s1 /\
    e = applyModifiers base (blockModifiers (arg_optional a) x) /\
    (forall t,
       Js.truthy (ref (arg_schema a)) = None ->
       type (arg_schema a) = Some t ->
       x = arg_schema a /\
       exists base0,
         schemaTypeToZodSchema (schemaToZodSchema fuel) t (arg_schema a) s0
           = Ok (anyType, base0) s1 /\
         base = applyModifiers base0 (describeModifier (arg_schema a)) /\
         e = applyModifiers base0 (modifiers (arg_optional a) (arg_schema a))) /\
    (forall r,
       Js.truthy (ref (arg_schema a)) = Some r ->
       x = arg_schema a /\
       refToZodSchema (schemaToZodSchema fuel) r s0 = Ok base s1) /\
    (Js.truthy (ref (arg_schema a)) = None ->
     type (arg_schema a) = None ->
     items (arg_schema a) <> None ->
     x = deduplicateSchema (arg_schema a) /\
     itemsToZodSchema (schemaToZodSchema fuel) (arg_schema a) s0
       = Ok (base, x) s1 /\
     (items x = None ->
      schemaToZodSchema fuel (nested false x) s0 = Ok base s1)) /\
    (Js.truthy (ref (arg_schema a)) = None ->
     type (arg_schema a) = None ->
     items (arg_schema a) = None ->
     x = arg_schema a /\ base = unknownTypeToZodSchema).
Proof.
  intros Hrun. simpl in Hrun. unfold schemaToZodSchema_body in Hrun.
  run_inv Hrun.
  match goal with H : enter _ _ = Ok ?i ?s0 |- _ => exists i end.
  match goal with H : dispatch _ _ ?s0 = Ok (?t, ?b, ?x) ?s1 |- _ =>
    exists t, b, x, s0, s1; rename H into Hd end.
  split; [assumption|]. split; [exact Hd|].
  split; [apply postModifiers_block|].
  unfold dispatch in Hd.
  split; [|split; [|split]].
  - intros t Href Htype. rewrite Href, Htype in Hd. run_inv Hd.
    match goal with H : (_, _, _) = (_, _, _) |- _ => injection H as <- <- <- end.
    split; [reflexivity|]. eexists. split; [eassumption|].
    split; [apply describe_modifier|apply postModifiers_describe].
  - intros r Href. rewrite Href in Hd. run_inv Hd.
    match goal with H : (_, _, _) = (_, _, _) |- _ => injection H as <- <- <- end.
    split; [reflexivity|assumption].
  - intros Href Htype Hitems. rewrite Href, Htype in Hd.
    destruct (items (arg_schema a)) eqn:Ei; [|congruence].
    run_inv Hd.
    match goal with H : (_, _, _) = (_, _, _) |- _ => injection H as <- <- <- end.
    match goal with H : itemsToZodSchema _ _ _ = Ok (_, ?x) _ |- _ =>
      rename H into Hi; assert (Hx : x = deduplicateSchema (arg_schema a)) end.
    { unfold itemsToZodSchema in Hi.
      destruct (items (deduplicateSchema (arg_schema a))) as [its|] eqn:Ed.
      - run_inv Hi.
        destruct (decide (logicalOperator _ = Some op_and)).
        + destruct its; [discriminate Hi|].
          match goal with H : mapM _ _ _ = Ok ?l _ |- _ => destruct l end;
            [discriminate Hi|].
          destruct (decide _); run_inv Hi; congruence.
        + run_inv Hi. congruence.
      - run_inv Hi. congruence. }
    split; [exact Hx|]. split; [exact Hi|].
    intros Hnone. unfold itemsToZodSchema in Hi. rewrite <- Hx, Hnone in Hi.
    run_inv Hi. congruence.
  - intros Href Htype Hitems. rewrite Href, Htype, Hitems in Hd.
    simpl in Hd. injection Hd as <- <- <- <-. split; reflexivity.
Qed.

(** The identifier a call works with, as its first block sets it. *)
Definition identifierOnEntry (a : Args) (s : Store) : option Identifier :=
  match Js.truthy (arg_ref a), arg_identifier a with
  | Some r, None =>
      Some match names (file s) !! (r, ns_value) with
           | Some n => {| name := n; created := false |}
           | None =>
               {| name :=
                    uniqueName (names (file s)) ns_value (nameCase (state s))
                      (nameTransformer (state s)) r;
                  created := true |}
           end
  | _, i => i
  end.

Lemma enter_identifier a s i s1 :
  enter a s = Ok i s1 -> i = identifierOnEntry a s.
Proof.
  unfold enter, identifierOnEntry. intros H.
  destruct (Js.truthy (arg_ref a)) as [r|]; [|apply ret_Ok in H as [-> _];
    destruct (arg_identifier a); reflexivity].
  apply bind_Ok in H as (u & s0 & Hadd & H).
  unfold trackerAdd, getState, setTracker, bind in Hadd. injection Hadd as _ <-.
  destruct (arg_identifier a) as [j|]; [apply ret_Ok in H as [<- _]; reflexivity|].
  apply bind_Ok in H as (st & s2 & Hget & H).
  unfold getState in Hget. injection Hget as <- <-.
  apply bind_Ok in H as (j & s3 & Hid & H). apply ret_Ok in H as [<- _].
  unfold identifier in Hid; simpl in Hid.
  destruct (names (file s) !! (r, ns_value)); injection Hid as <- _; reflexivity.
Qed.

(** A schema the dispatch treats as an object. *)
Definition objectRoot (schema : SchemaObject) : bool :=
  bool_decide (Js.truthy (ref schema) = None /\ type schema = Some t_object).

Lemma schemaType_anyType rec t schema s anyType e s' :
  schemaTypeToZodSchema rec t schema s = Ok (anyType, e) s' ->
  anyType = if decide (t = t_object) then Some "AnyZodObject" else None.
Proof.
  intros H. destruct t; simpl in H; unfold objectTypeToZodSchema in H;
    run_inv H; simplify_eq; reflexivity.
Qed.

Lemma dispatch_anyType rec schema s anyType e schema' s' :
  dispatch rec schema s = Ok (anyType, e, schema') s' ->
  anyType = if objectRoot schema then Some "AnyZodObject" else None.
Proof.
  unfold dispatch, objectRoot. intros H.
  destruct (Js.truthy (ref schema)) as [r|] eqn:Er.
  { run_inv H. rewrite bool_decide_eq_false_2; [congruence|].
    intros [? _]; discriminate. }
  destruct (type schema) as [t|] eqn:Et.
  { run_inv H.
    match goal with H : (_, _, _) = (_, _, _) |- _ => injection H as <- <- <- end.
    apply schemaType_anyType in Hrun. subst.
    destruct (decide (t = t_object)) as [->|Hne].
    - rewrite bool_decide_eq_true_2; [reflexivity|split; reflexivity].
    - rewrite bool_decide_eq_false_2; [reflexivity|]. intros [_ [= ->]]. congruence. }
  rewrite bool_decide_eq_false_2 by (intros [_ ?]; discriminate).
  destruct (items schema); run_inv H; [congruence|].
  match goal with H : (_, _, _) = (_, _, _) |- _ => injection H as <- <- <- end.
  simpl in Hrun. apply ret_Ok in Hrun as [[= <- <-] _]. reflexivity.
Qed.

(** Top-level emission: when the identifier the call works with is new
    and has a name, the last node of the file afterwards is the
    declaration of that name, with the expression returned; it has a
    type annotation exactly when [state.hasCircularReference] is set at
    that time, and the annotation is [z.AnyZodObject] for an object
    schema and [z.ZodTypeAny] otherwise. *)
Lemma declaration_annotation fuel a s e s' i :
  schemaToZodSchema (S fuel) a s = Ok e s' ->
  identifierOnEntry a s = Some i ->
  name i <> "" ->
  created i = true ->
  exists decl,
    last (nodes (file s')) = Some decl /\
    cv_name decl = name i /\
    cv_expression decl = e /\
    cv_typeName decl =
      if hasCircularReference (state s')
      then Some (TsPropertyAccess zIdentifier
                   (if objectRoot (arg_schema a)
                    then "AnyZodObject" else "ZodTypeAny"))
      else None.
Proof.
  intros Hrun Hi Hname Hcreated. simpl in Hrun.
  unfold schemaToZodSchema_body in Hrun. run_inv Hrun.
  match goal with H : enter _ _ = Ok _ _ |- _ =>
    apply enter_identifier in H; rewrite Hi in H; subst end.
  match goal with H : dispatch _ _ _ = Ok _ _ |- _ =>
    apply dispatch_anyType in H; subst end.
  match goal with H : emit _ _ _ _ _ = Ok _ _ |- _ =>
    unfold emit in H;
    rewrite bool_decide_eq_false_2, Hcreated in H by exact Hname;
    simpl in H; apply bind_Ok in H; destruct H as (st & sx & Hget & Hadd) end.
  unfold getState in Hget. injection Hget as <- <-.
  unfold fileAdd in Hadd. injection Hadd as _ <-. simpl.
  eexists. split; [apply last_snoc|]. simpl. repeat split.
  match goal with |- context [hasCircularReference ?x] =>
    destruct (hasCircularReference x) end; [|reflexivity].
  destruct (objectRoot (arg_schema a)); reflexivity.
Qed.

(** *** The traversal: invariants *)

(** The references the emitter comes to when it is given a schema,
    without following them: [$ref] itself, or the references of the
    parts the dispatch hands to nested calls. *)
Inductive visits : SchemaObject -> string -> Prop :=
| visits_ref s r :
    Js.truthy (ref s) = Some r -> visits s r
| visits_array s its i r :
    Js.truthy (ref s) = None -> type s = Some t_array -> items s <> None ->
    items (deduplicateSchema s) = Some its -> i ∈ its -> visits i r ->
    visits s r
| visits_object s k i r :
    Js.truthy (ref s) = None -> type s = Some t_object ->
    (k, i) ∈ default [] (properties s) -> visits i r ->
    visits s r
| visits_tuple s i r :
    Js.truthy (ref s) = None -> type s = Some t_tuple ->
    (forall l, const_ s <> JArray l) ->
    i ∈ default [] (items s) -> visits i r ->
    visits s r
| visits_items s its i r :
    Js.truthy (ref s) = None -> type s = None -> items s <> None ->
    items (deduplicateSchema s) = Some its -> i ∈ its -> visits i r ->
    visits s r
| visits_lifted s r :
    Js.truthy (ref s) = None -> type s = None -> items s <> None ->
    items (deduplicateSchema s) = None -> visits (deduplicateSchema s) r ->
    visits s r.

(** [r'] is referenced from the component at [r]. *)
Definition edge (r r' : string) : Prop :=
  exists s, components plugin !! r = Some s /\ visits s r'.

(** The components reachable from [r] along such references. *)
Definition reachable (r : string) : string -> Prop := rtc edge r.

Definition tracker (s : Store) : gset string :=
  circularReferenceTracker (state s).

(** [r] has an identifier in the file. *)
Definition named (s : Store) (r : string) : Prop :=
  is_Some (names (file s) !! (r, ns_value)).

(** Every reference of [x] the emitter comes to has an identifier. *)
Definition covered (s : Store) (x : SchemaObject) : Prop :=
  forall r, visits x r -> named s r.

(** The names of the declarations in the file, and how often a name is
    declared. *)
Definition declared_names (s : Store) : list string :=
  map cv_name (nodes (file s)).

Definition occurrences (n : string) (l : list string) : nat :=
  length (filter (fun x => x = n) l).

(** Names are not empty, and what is on the traversal stack has an
    identifier. *)
Record Inv (s : Store) : Prop := {
  inv_nonempty : forall k n, names (file s) !! k = Some n -> n <> "";
  inv_tracked : forall r, r ∈ tracker s -> named s r;
}.

(** Declarations against identifiers.  [pending] are the references whose
    declaration is still to come: those a call in progress created the
    identifier of.  Distinct references have distinct names; a named
    reference is declared once, or not yet if it is pending; every
    declaration belongs to a named reference; and a named component that
    is not pending has identifiers for all it references. *)
Record Decls (pending : gset string) (s : Store) : Prop := {
  d_inj : forall r1 r2 n,
    names (file s) !! (r1, ns_value) = Some n ->
    names (file s) !! (r2, ns_value) = Some n -> r1 = r2;
  d_count : forall r n,
    names (file s) !! (r, ns_value) = Some n ->
    occurrences n (declared_names s) = if decide (r ∈ pending) then 0 else 1;
  d_owned : forall n,
    n ∈ declared_names s -> exists r, names (file s) !! (r, ns_value) = Some n;
  d_pending : pending ⊆ tracker s;
  d_closed : forall r x,
    named s r -> r ∉ pending -> components plugin !! r = Some x -> covered s x;
}.

(** A schema the emitter gets through without a throw: every reference
    it comes to resolves, deduplication keeps the items of an array, and
    an intersection has an item. *)
Inductive safe : SchemaObject -> Prop :=
| safe_ref s r :
    Js.truthy (ref s) = Some r -> is_Some (components plugin !! r) -> safe s
| safe_array s its :
    Js.truthy (ref s) = None -> type s = Some t_array -> items s <> None ->
    items (deduplicateSchema s) = Some its ->
    (forall i, i ∈ its -> safe i) -> safe s
| safe_object s :
    Js.truthy (ref s) = None -> type s = Some t_object ->
    (forall k i, (k, i) ∈ default [] (properties s) -> safe i) -> safe s
| safe_tuple s :
    Js.truthy (ref s) = None -> type s = Some t_tuple ->
    (forall l, const_ s <> JArray l) ->
    (forall i, i ∈ default [] (items s) -> safe i) -> safe s
| safe_items s its :
    Js.truthy (ref s) = None -> type s = None -> items s <> None ->
    items (deduplicateSchema s) = Some its ->
    (logicalOperator (deduplicateSchema s) = Some op_and -> its <> []) ->
    (forall i, i ∈ its -> safe i) -> safe s
| safe_lifted s :
    Js.truthy (ref s) = None -> type s = None -> items s <> None ->
    items (deduplicateSchema s) = None -> safe (deduplicateSchema s) ->
    safe s
| safe_leaf s :
    Js.truthy (ref s) = None ->
    (type s = Some t_array -> items s = None) ->
    type s <> Some t_object ->
    (type s = Some t_tuple -> exists l, const_ s = JArray l) ->
    (type s = None -> items s = None) ->
    safe s.

(** What a call with a [$ref] needs: the reference is not on the stack,
    and an identifier passed in is the file's. *)
Definition call_ok (a : Args) (s : Store) : Prop :=
  forall r, Js.truthy (arg_ref a) = Some r ->
    (r ∉ tracker s) /\ (arg_identifier a <> None -> named s r).

Section Walk.

(** [partial]: a run cut off by the bound counts as fine (partial
    correctness); otherwise it does not (the bound is shown to suffice).
    [strong]: declarations are tracked too, for calls that are not given
    an identifier.  [nothrow]: a throw does not count as fine (the schema
    is assumed [safe]). *)
Variable partial strong nothrow : bool.

Definition triple {A} (m : M A) (s : Store) (Q : A -> Store -> Prop) : Prop :=
  match m s with
  | Ok a s' => Q a s'
  | Throw _ => nothrow = false
  | OutOfFuel => partial = true
  end.

Lemma triple_ret {A} (a : A) s (Q : A -> Store -> Prop) :
  Q a s -> triple (ret a) s Q.
Proof. intros H. exact H. Qed.

Lemma triple_throw {A} e s (Q : A -> Store -> Prop) :
  nothrow = false -> triple (throw e) s Q.
Proof. intros H. exact H. Qed.

Lemma triple_bind {A B} (m : M A) (k : A -> M B) s (Q : B -> Store -> Prop) :
  triple m s (fun a s1 => triple (k a) s1 Q) -> triple (bind m k) s Q.
Proof.
  unfold triple, bind. destruct (m s) as [a s1| |]; auto.
Qed.

Lemma triple_mono {A} (m : M A) s (Q Q' : A -> Store -> Prop) :
  triple m s Q -> (forall a s', Q a s' -> Q' a s') -> triple m s Q'.
Proof.
  unfold triple. destruct (m s) as [a s1| |]; auto.
Qed.

Definition Good (pending : gset string) (s : Store) : Prop :=
  Inv s /\ (strong = true -> Decls pending s).

(** From [s] to [s']: the invariants hold, identifiers are kept, and the
    traversal stack is the same. *)
Definition evolve (pending : gset string) (s s' : Store) : Prop :=
  Good pending s' /\
  names (file s) ⊆ names (file s') /\
  tracker s' = tracker s.

Lemma evolve_refl pending s : Good pending s -> evolve pending s s.
Proof. intros H. split; [exact H|]. split; reflexivity. Qed.

Lemma evolve_trans pending s1 s2 s3 :
  evolve pending s1 s2 -> evolve pending s2 s3 -> evolve pending s1 s3.
Proof.
  intros (_ & Hn1 & Ht1) (Hg & Hn2 & Ht2). split; [exact Hg|]. split.
  - etrans; eassumption.
  - congruence.
Qed.

Lemma named_mono s s' r :
  names (file s) ⊆ names (file s') -> named s r -> named s' r.
Proof.
  intros Hsub [n Hn]. exists n. eapply lookup_weaken; eassumption.
Qed.

Lemma covered_mono s s' x :
  names (file s) ⊆ names (file s') -> covered s x -> covered s' x.
Proof. intros Hsub Hc r Hr. eapply named_mono; eauto. Qed.

(** The loop [map]: each call keeps the invariants, and what a call
    established for its element stays. *)
Lemma mapM_triple {A B} (f : A -> M B) pending (C : A -> Store -> Prop) l :
  (forall x s1 s2, C x s1 -> names (file s1) ⊆ names (file s2) -> C x s2) ->
  forall s,
    Good pending s ->
    (forall x s1, x ∈ l -> evolve pending s s1 ->
       triple (f x) s1 (fun _ s2 => evolve pending s1 s2 /\ C x s2)) ->
    triple (mapM f l) s
      (fun ys s' =>
         evolve pending s s' /\ length ys = length l /\
         forall x, x ∈ l -> C x s').
Proof.
  intros Hmono. induction l as [|x l IH]; intros s Hgood Hf; simpl.
  - apply triple_ret. split; [apply evolve_refl, Hgood|]. split; [reflexivity|].
    intros x Hx. apply elem_of_nil in Hx. destruct Hx.
  - apply triple_bind.
    eapply triple_mono.
    { apply Hf; [apply elem_of_cons; left; reflexivity|apply evolve_refl, Hgood]. }
    intros y s1 [Hev1 Hc]. apply triple_bind.
    eapply triple_mono.
    { apply IH; [apply Hev1|].
      intros x' s2 Hx' Hev2. apply Hf; [apply elem_of_cons; right; exact Hx'|].
      eapply evolve_trans; eassumption. }
    intros ys s2 (Hev2 & Hlen & Hcs). apply triple_ret. split; [|split].
    + eapply evolve_trans; eassumption.
    + simpl. rewrite Hlen. reflexivity.
    + intros x' Hx'. apply elem_of_cons in Hx' as [->|Hx'].
      * eapply Hmono; [exact Hc|]. apply Hev2.
      * apply Hcs, Hx'.
Qed.

(** **** The bound on nested calls *)

(** The components that have no identifier yet. *)
Definition unnamed (s : Store) : gset string :=
  filter (fun r => names (file s) !! (r, ns_value) = None)
    (dom (components plugin)).

Definition maxsize : nat :=
  max_list (map (fun kv => schema_size (snd kv))
              (map_to_list (components plugin))).

(** A schema the dispatch hands to the branch for [items]. *)
Definition composite (x : SchemaObject) : bool :=
  bool_decide (Js.truthy (ref x) = None /\ type x = None /\ items x <> None).

Definition weight (x : SchemaObject) : nat :=
  2 * schema_size x + (if composite x then 1 else 0).

Definition slack : nat := 2 * maxsize + 3.

Definition entryUnnamed (a : Args) (s : Store) : gset string :=
  match Js.truthy (arg_ref a) with
  | Some r => unnamed s ∖ {[r]}
  | None => unnamed s
  end.

(** The depth of nested calls a call needs at most. *)
Definition req (a : Args) (s : Store) : nat :=
  slack * size (entryUnnamed a s) + weight (arg_schema a).

Definition budget (n x : nat) : Prop := partial = true \/ x <= n.

Lemma budget_le n x y :
  budget n x -> (partial = false -> y <= x) -> budget n y.
Proof.
  intros [H|H] Hle; [left; exact H|].
  destruct (decide (partial = true)) as [E|E]; [left; exact E|right].
  apply not_true_is_false in E. specialize (Hle E). lia.
Qed.

Lemma budget_step n x y :
  budget (S n) x -> (partial = false -> S y <= x) -> budget n y.
Proof.
  intros [H|H] Hle; [left; exact H|].
  destruct (decide (partial = true)) as [E|E]; [left; exact E|right].
  apply not_true_is_false in E. specialize (Hle E). lia.
Qed.

Lemma unnamed_mono s s' :
  names (file s) ⊆ names (file s') -> unnamed s' ⊆ unnamed s.
Proof.
  intros Hsub r. unfold unnamed. rewrite !elem_of_filter.
  intros [Hn Hd]. split; [|exact Hd].
  destruct (names (file s) !! (r, ns_value)) as [n|] eqn:E; [|reflexivity].
  eapply lookup_weaken in E; [|exact Hsub]. congruence.
Qed.

Lemma unnamed_size_mono s s' :
  names (file s) ⊆ names (file s') -> size (unnamed s') <= size (unnamed s).
Proof. intros H. apply subseteq_size, unnamed_mono, H. Qed.

Lemma maxsize_le r x :
  components plugin !! r = Some x -> schema_size x <= maxsize.
Proof.
  intros H. unfold maxsize. apply max_list_elem_of_le.
  apply list_elem_of_In, in_map_iff. exists (r, x). split; [reflexivity|].
  apply list_elem_of_In, elem_of_map_to_list, H.
Qed.

Lemma weight_le x : weight x <= 2 * schema_size x + 1.
Proof. unfold weight. destruct (composite x); lia. Qed.

Lemma weight_pos x : 2 <= weight x.
Proof. unfold weight. destruct x; simpl. lia. Qed.

Lemma list_sum_elem n (l : list nat) : n ∈ l -> n <= list_sum l.
Proof.
  induction l as [|y l IH]; intros H.
  - apply elem_of_nil in H. destruct H.
  - apply elem_of_cons in H as [->|H]; simpl; [lia|]. specialize (IH H). lia.
Qed.

Lemma size_item x its i :
  items x = Some its -> i ∈ its -> schema_size i < schema_size x.
Proof.
  intros Hits Hi. destruct x; simpl in *. rewrite Hits.
  assert (schema_size i <= list_sum (map schema_size its)); [|lia].
  apply list_sum_elem, list_elem_of_In, in_map, list_elem_of_In, Hi.
Qed.

Lemma size_property x ps k i :
  properties x = Some ps -> (k, i) ∈ ps -> schema_size i < schema_size x.
Proof.
  intros Hps Hi. destruct x; simpl in *. rewrite Hps.
  assert (schema_size i
          <= list_sum (map (fun p => schema_size (snd p)) ps)); [|lia].
  apply list_sum_elem, list_elem_of_In, in_map_iff. exists (k, i).
  split; [reflexivity|]. apply list_elem_of_In, Hi.
Qed.

(** **** What is assumed of a call, and what it gives *)

Definition PreF (pending : gset string) (a : Args) (s : Store) : Prop :=
  Good pending s /\
  call_ok a s /\
  (nothrow = true -> safe (arg_schema a)) /\
  (strong = true ->
   arg_identifier a = None /\
   forall r x, Js.truthy (arg_ref a) = Some r ->
     components plugin !! r = Some x -> x = arg_schema a).

Definition PostF (pending : gset string) (a : Args) (s s' : Store) : Prop :=
  evolve pending s s' /\
  (forall r, Js.truthy (arg_ref a) = Some r -> named s' r) /\
  (strong = true -> covered s' (arg_schema a)).

Definition rec_spec (rec : Args -> M Expression) (n : nat) : Prop :=
  forall pending a s,
    PreF pending a s -> budget n (req a s) ->
    triple (rec a) s (fun _ s' => PostF pending a s s').

(** A nested call on a part [x] of the schema. *)
Lemma nested_call rec n pending o x s0 s1 :
  rec_spec rec n ->
  evolve pending s0 s1 ->
  budget n (slack * size (unnamed s0) + weight x) ->
  (nothrow = true -> safe x) ->
  triple (rec (nested o x)) s1
    (fun _ s2 => evolve pending s1 s2 /\ (strong = true -> covered s2 x)).
Proof.
  intros Hrec (Hgood & Hsub & _) Hb Hsafe.
  eapply triple_mono.
  - apply (Hrec pending (nested o x) s1).
    + split; [exact Hgood|]. split; [|split].
      * intros r Hr. discriminate Hr.
      * exact Hsafe.
      * intros _. split; [reflexivity|]. intros r y Hr. discriminate Hr.
    + eapply budget_le; [exact Hb|]. intros _. unfold req, entryUnnamed; simpl.
      apply Nat.add_le_mono_r, Nat.mul_le_mono_l, unnamed_size_mono, Hsub.
  - intros _ s2 (Hev & _ & Hc). split; assumption.
Qed.

(** **** The emitters keep the invariants *)

(** What is assumed of the parts that are not among the sources: names
    are not empty; when declarations are tracked, a new name is not taken
    in its namespace; when the bound is to suffice, deduplication does
    not grow a schema. *)
Hypothesis Hname : forall table ns c t r, uniqueName table ns c t r <> "".
Hypothesis Hfresh :
  strong = true ->
  forall table ns c t r r', table !! (r', ns) <> Some (uniqueName table ns c t r).
Hypothesis Hdedup :
  partial = false ->
  forall x, schema_size (deduplicateSchema x) <= schema_size x.
Hypothesis Hclosed :
  nothrow = true -> forall r x, components plugin !! r = Some x -> safe x.

Lemma safe_ref_inv s r :
  safe s -> Js.truthy (ref s) = Some r -> is_Some (components plugin !! r).
Proof. intros H Hr. inversion H; subst; congruence. Qed.

Lemma safe_array_inv s :
  safe s -> Js.truthy (ref s) = None -> type s = Some t_array ->
  items s <> None ->
  exists its, items (deduplicateSchema s) = Some its /\
              forall i, i ∈ its -> safe i.
Proof.
  intros H Hr Ht Hi. inversion H; subst; try congruence; [eauto|].
  match goal with H : type s = Some t_array -> items s = None |- _ =>
    specialize (H Ht) end. congruence.
Qed.

Lemma safe_object_inv s :
  safe s -> Js.truthy (ref s) = None -> type s = Some t_object ->
  forall k i, (k, i) ∈ default [] (properties s) -> safe i.
Proof. intros H Hr Ht. inversion H; subst; try congruence. assumption. Qed.

Lemma safe_tuple_inv s :
  safe s -> Js.truthy (ref s) = None -> type s = Some t_tuple ->
  (forall l, const_ s <> JArray l) ->
  forall i, i ∈ default [] (items s) -> safe i.
Proof.
  intros H Hr Ht Hc. inversion H; subst; try congruence; [assumption|].
  match goal with H : type s = Some t_tuple -> _ |- _ =>
    destruct (H Ht) as [l Hl] end.
  exfalso. eapply Hc, Hl.
Qed.

Lemma safe_items_inv s :
  safe s -> Js.truthy (ref s) = None -> type s = None -> items s <> None ->
  (exists its, items (deduplicateSchema s) = Some its /\
     (logicalOperator (deduplicateSchema s) = Some op_and -> its <> []) /\
     forall i, i ∈ its -> safe i) \/
  (items (deduplicateSchema s) = None /\ safe (deduplicateSchema s)).
Proof.
  intros H Hr Ht Hi. inversion H; subst; try congruence; [left; eauto|right; auto|].
  match goal with H : type s = None -> items s = None |- _ =>
    specialize (H Ht) end. congruence.
Qed.

(** Under [nothrow] a case that throws does not arise. *)
Lemma throw_excluded {A} e s (Q : A -> Store -> Prop) :
  (nothrow = true -> False) -> triple (throw e) s Q.
Proof.
  intros H. apply triple_throw.
  destruct (decide (nothrow = true)) as [E|E]; [destruct (H E)|].
  apply not_true_is_false, E.
Qed.

Lemma triple_eq {A} (m : M A) s a s' (Q : A -> Store -> Prop) :
  m s = Ok a s' -> Q a s' -> triple m s Q.
Proof. unfold triple. intros -> H. exact H. Qed.

Lemma covered_mono' x s1 s2 :
  (strong = true -> covered s1 x) -> names (file s1) ⊆ names (file s2) ->
  strong = true -> covered s2 x.
Proof. intros H Hsub Hs. eapply covered_mono; eauto. Qed.

Lemma array_triple rec n pending schema s :
  rec_spec rec n ->
  Good pending s ->
  budget n (slack * size (unnamed s) + (2 * schema_size schema - 1)) ->
  (nothrow = true -> safe schema) ->
  Js.truthy (ref schema) = None ->
  type schema = Some t_array ->
  triple (arrayTypeToZodSchema rec schema) s
    (fun _ s' => evolve pending s s' /\ (strong = true -> covered s' schema)).
Proof using Hdedup.
  intros Hrec Hgood Hb Hsafe Href Htype. unfold arrayTypeToZodSchema.
  apply triple_bind.
  destruct (items schema) as [its0|] eqn:Eit.
  2: { apply triple_ret, triple_ret. split; [apply evolve_refl, Hgood|].
       intros _ r Hv. inversion Hv; subst; congruence. }
  assert (Hin : nothrow = true ->
            exists its, items (deduplicateSchema schema) = Some its /\
                        forall i, i ∈ its -> safe i).
  { intros Hn. apply safe_array_inv; auto. congruence. }
  destruct (items (deduplicateSchema schema)) as [its|] eqn:Ed.
  2: { apply throw_excluded. intros Hn. destruct (Hin Hn) as (? & ? & _).
       discriminate. }
  apply triple_bind. eapply triple_mono.
  { apply (mapM_triple _ pending (fun x s' => strong = true -> covered s' x));
      [intros; eapply covered_mono'; eauto|exact Hgood|].
    intros x s1 Hx Hev. eapply nested_call; [exact Hrec|exact Hev| |].
    - eapply budget_le; [exact Hb|]. intros Hp.
      pose proof (size_item _ _ _ Ed Hx). pose proof (Hdedup Hp schema).
      pose proof (weight_le x). lia.
    - intros Hn. destruct (Hin Hn) as (its' & [= <-] & Hall). apply Hall, Hx. }
  intros es s1 (Hev & _ & Hc).
  assert (HQ : strong = true -> covered s1 schema).
  { intros Hs r Hv. inversion Hv; subst; try congruence.
    match goal with H : items (deduplicateSchema schema) = Some _ |- _ =>
      rewrite Ed in H; injection H as <- end.
    eapply Hc; eauto. }
  destruct es as [|e [|e' es]]; apply triple_ret, triple_ret; auto.
Qed.

Lemma object_triple rec n pending schema s :
  rec_spec rec n ->
  Good pending s ->
  budget n (slack * size (unnamed s) + (2 * schema_size schema - 1)) ->
  (nothrow = true -> safe schema) ->
  Js.truthy (ref schema) = None ->
  type schema = Some t_object ->
  triple (objectTypeToZodSchema rec schema) s
    (fun _ s' => evolve pending s s' /\ (strong = true -> covered s' schema)).
Proof.
  intros Hrec Hgood Hb Hsafe Href Htype. unfold objectTypeToZodSchema.
  apply triple_bind. eapply triple_mono.
  { apply (mapM_triple _ pending
             (fun kv s' => strong = true -> covered s' (snd kv)));
      [intros; eapply covered_mono'; eauto|exact Hgood|].
    intros [k x] s1 Hx Hev. apply triple_bind. eapply triple_mono.
    - eapply nested_call; [exact Hrec|exact Hev| |].
      + eapply budget_le; [exact Hb|]. intros _.
        destruct (properties schema) as [ps|] eqn:Eps;
          [|apply elem_of_nil in Hx; destruct Hx].
        pose proof (size_property _ _ _ _ Eps Hx). pose proof (weight_le x). lia.
      + intros Hn. eapply safe_object_inv; eauto.
    - intros e s2 H. apply triple_ret. exact H. }
  intros ms s1 (Hev & _ & Hc). apply triple_ret. split; [exact Hev|].
  intros Hs r Hv. inversion Hv; subst; try congruence.
  match goal with H : (_, _) ∈ _ |- _ => apply (Hc _ H Hs) end. assumption.
Qed.

Lemma tuple_triple rec n pending schema s :
  rec_spec rec n ->
  Good pending s ->
  budget n (slack * size (unnamed s) + (2 * schema_size schema - 1)) ->
  (nothrow = true -> safe schema) ->
  Js.truthy (ref schema) = None ->
  type schema = Some t_tuple ->
  triple (tupleTypeToZodSchema rec schema) s
    (fun _ s' => evolve pending s s' /\ (strong = true -> covered s' schema)).
Proof.
  intros Hrec Hgood Hb Hsafe Href Htype. unfold tupleTypeToZodSchema.
  assert (Hloop : (forall l, const_ schema <> JArray l) ->
    triple
      (let* tupleElements :=
         mapM (fun item => rec (nested false item)) (default [] (items schema)) in
       ret (z_call "tuple" [Some (TsArrayLiteral tupleElements)])) s
      (fun _ s' => evolve pending s s' /\
                   (strong = true ->
                    forall x, x ∈ default [] (items schema) -> covered s' x))).
  { intros Hconst. apply triple_bind. eapply triple_mono.
    { apply (mapM_triple _ pending (fun x s' => strong = true -> covered s' x));
        [intros; eapply covered_mono'; eauto|exact Hgood|].
      intros x s1 Hx Hev. eapply nested_call; [exact Hrec|exact Hev| |].
      - eapply budget_le; [exact Hb|]. intros _.
        destruct (items schema) as [its|] eqn:Eit;
          [|apply elem_of_nil in Hx; destruct Hx].
        pose proof (size_item _ _ _ Eit Hx). pose proof (weight_le x). lia.
      - intros Hn. eapply safe_tuple_inv; eauto. }
    intros es s1 (Hev & _ & Hc). apply triple_ret. split; [exact Hev|].
    intros Hs x Hx. apply Hc; assumption. }
  destruct (const_ schema) eqn:Ec;
    try (eapply triple_mono; [apply Hloop; intros l; discriminate|];
         intros e s1 [Hev Hc]; split; [exact Hev|];
         intros Hs r Hv; inversion Hv; subst; try congruence;
         eapply Hc; eauto).
  apply triple_ret. split; [apply evolve_refl, Hgood|].
  intros _ r Hv. inversion Hv; subst; try congruence;
    match goal with H : forall l, const_ schema <> JArray l |- _ =>
      exfalso; eapply H; eauto end.
Qed.

Lemma schemaType_triple rec n pending t schema s :
  rec_spec rec n ->
  Good pending s ->
  budget n (slack * size (unnamed s) + (2 * schema_size schema - 1)) ->
  (nothrow = true -> safe schema) ->
  Js.truthy (ref schema) = None ->
  type schema = Some t ->
  triple (schemaTypeToZodSchema rec t schema) s
    (fun _ s' => evolve pending s s' /\ (strong = true -> covered s' schema)).
Proof using Hdedup.
  intros Hrec Hgood Hb Hsafe Href Htype.
  assert (Hleaf : t <> t_array -> t <> t_object -> t <> t_tuple ->
            evolve pending s s /\ (strong = true -> covered s schema)).
  { intros H1 H2 H3. split; [apply evolve_refl, Hgood|].
    intros _ r Hv. inversion Hv; subst; congruence. }
  destruct t; simpl;
    try (apply triple_ret; apply Hleaf; discriminate).
  - apply triple_bind. eapply triple_mono; [eapply array_triple; eauto|].
    intros e s1 H. apply triple_ret. exact H.
  - eapply object_triple; eauto.
  - apply triple_bind. eapply triple_mono; [eapply tuple_triple; eauto|].
    intros e s1 H. apply triple_ret. exact H.
Qed.

(** The invariants look at the identifiers, the nodes and the stack
    only. *)
Lemma Good_ext pending s s' :
  file s' = file s -> tracker s' = tracker s ->
  Good pending s -> Good pending s'.
Proof.
  intros Hf Ht [Hi Hd]. split.
  - destruct Hi as [H1 H2]. split.
    + rewrite Hf. exact H1.
    + intros r. rewrite Ht. unfold named. rewrite Hf. apply H2.
  - intros Hs. destruct (Hd Hs) as [D1 D2 D3 D4 D5]. split.
    + rewrite Hf. exact D1.
    + unfold declared_names. rewrite Hf. exact D2.
    + unfold declared_names. rewrite Hf. exact D3.
    + rewrite Ht. exact D4.
    + unfold covered, named. rewrite Hf. exact D5.
Qed.

Lemma identifier_lookup r c t ns s :
  identifier r c false t ns s =
  Ok {| name := default "" (names (file s) !! (r, ns)); created := false |} s.
Proof. unfold identifier. destruct (names (file s) !! (r, ns)); reflexivity. Qed.

Lemma referTo_triple pending b nm s0 s :
  evolve pending s0 s ->
  triple (referTo b nm) s
    (fun _ s' => evolve pending s0 s' /\ file s' = file s).
Proof.
  intros Hev. unfold referTo. destruct b; [|apply triple_ret; auto].
  apply triple_bind. eapply triple_eq; [reflexivity|]. apply triple_ret.
  split; [|reflexivity].
  destruct Hev as (Hg & Hn & Ht). split; [|split; assumption].
  eapply Good_ext; [| |exact Hg]; reflexivity.
Qed.

Lemma size_unnamed_remove s r :
  r ∈ unnamed s -> size (unnamed s ∖ {[r]}) + 1 = size (unnamed s).
Proof.
  intros Hr. rewrite size_difference by (apply singleton_subseteq_l, Hr).
  rewrite size_singleton.
  assert (size (unnamed s) <> 0); [|lia].
  intros H0. apply size_empty_inv in H0.
  apply (not_elem_of_empty (C:=gset string) r). rewrite <- H0. exact Hr.
Qed.

Lemma ref_triple rec n pending r s :
  rec_spec rec n ->
  Good pending s ->
  budget n (slack * size (unnamed s)) ->
  (nothrow = true -> is_Some (components plugin !! r)) ->
  r <> "" ->
  triple (refToZodSchema rec r) s
    (fun _ s' => evolve pending s s' /\ named s' r).
Proof using Hclosed.
  intros Hrec Hgood Hb Hres Hr. unfold refToZodSchema.
  apply triple_bind. eapply triple_eq; [reflexivity|].
  apply triple_bind. eapply triple_eq; [apply identifier_lookup|]. simpl.
  destruct (names (file s) !! (r, ns_value)) as [nm|] eqn:En; simpl.
  { destruct (decide (nm = "")) as [->|Hnm].
    - exfalso. eapply (inv_nonempty s); [apply Hgood|exact En|reflexivity].
    - eapply triple_mono; [apply referTo_triple, evolve_refl, Hgood|].
      intros e s' [Hev Hf]. split; [exact Hev|].
      exists nm. rewrite Hf. exact En. }
  destruct (decide ("" = "")) as [_|Hne]; [|congruence].
  apply triple_bind. unfold resolveIrRef.
  destruct (components plugin !! r) as [x|] eqn:Ex.
  2: { apply throw_excluded. intros Hn. destruct (Hres Hn) as [? ?].
       discriminate. }
  apply triple_ret. apply triple_bind. eapply triple_mono.
  { apply (Hrec pending).
    - split; [exact Hgood|]. split; [|split].
      2: { intros Hn. simpl. eapply Hclosed; eauto. }
      + intros r0 Hr0. cbn [arg_ref] in Hr0.
        rewrite Js.truthy_intro in Hr0 by exact Hr.
        injection Hr0 as <-. split; [|intros H; simpl in H; congruence].
        intros Hin. apply (inv_tracked s) in Hin; [|apply Hgood].
        destruct Hin as [nm Hnm]. congruence.
      + intros _. split; [reflexivity|]. intros r0 y Hr0 Hy.
        cbn [arg_ref] in Hr0.
        rewrite Js.truthy_intro in Hr0 by exact Hr. injection Hr0 as <-.
        simpl. congruence.
    - eapply budget_le; [exact Hb|]. intros _. unfold req, entryUnnamed.
      cbn [arg_ref arg_schema]. rewrite Js.truthy_intro by exact Hr.
      assert (Hin : r ∈ unnamed s).
      { unfold unnamed. apply elem_of_filter. split; [exact En|].
        apply elem_of_dom. eauto. }
      pose proof (size_unnamed_remove s r Hin).
      pose proof (weight_le x). pose proof (maxsize_le r x Ex).
      unfold slack. nia. }
  intros e s1 (Hev & Hnamed & _). cbn [arg_ref] in Hnamed.
  specialize (Hnamed r (Js.truthy_intro r Hr)). destruct Hnamed as [nm Hnm].
  apply triple_bind. eapply triple_eq; [reflexivity|].
  apply triple_bind. eapply triple_eq; [apply identifier_lookup|]. simpl.
  rewrite Hnm. simpl. destruct (decide (nm = "")) as [->|Hne'].
  { exfalso. eapply (inv_nonempty s1); [apply Hev|exact Hnm|reflexivity]. }
  eapply triple_mono; [apply referTo_triple, Hev|].
  intros e' s' [Hev' Hf]. split; [exact Hev'|].
  exists nm. rewrite Hf. exact Hnm.
Qed.

Lemma items_triple rec n pending schema s :
  rec_spec rec n ->
  Good pending s ->
  budget n (slack * size (unnamed s) + 2 * schema_size schema) ->
  (nothrow = true -> safe schema) ->
  Js.truthy (ref schema) = None ->
  type schema = None ->
  items schema <> None ->
  triple (itemsToZodSchema rec schema) s
    (fun _ s' => evolve pending s s' /\ (strong = true -> covered s' schema)).
Proof using Hdedup.
  intros Hrec Hgood Hb Hsafe Href Htype Hitems. unfold itemsToZodSchema.
  assert (Hin : nothrow = true ->
    (exists its, items (deduplicateSchema schema) = Some its /\
       (logicalOperator (deduplicateSchema schema) = Some op_and -> its <> []) /\
       forall i, i ∈ its -> safe i) \/
    (items (deduplicateSchema schema) = None /\ safe (deduplicateSchema schema))).
  { intros Hn. apply safe_items_inv; auto. }
  destruct (items (deduplicateSchema schema)) as [its|] eqn:Ed.
  - apply triple_bind. eapply triple_mono.
    { apply (mapM_triple _ pending (fun x s' => strong = true -> covered s' x));
        [intros; eapply covered_mono'; eauto|exact Hgood|].
      intros x s1 Hx Hev. eapply nested_call; [exact Hrec|exact Hev| |].
      - eapply budget_le; [exact Hb|]. intros Hp.
        pose proof (size_item _ _ _ Ed Hx). pose proof (Hdedup Hp schema).
        pose proof (weight_le x). lia.
      - intros Hn. destruct (Hin Hn) as [(its' & [= <-] & _ & Hall)|[? _]];
          [apply Hall, Hx|discriminate]. }
    intros es s1 (Hev & Hlen & Hc).
    assert (HQ : evolve pending s s1 /\ (strong = true -> covered s1 schema)).
    { split; [exact Hev|]. intros Hs r Hv. inversion Hv; subst; try congruence.
      match goal with H : items (deduplicateSchema schema) = Some _ |- _ =>
        rewrite Ed in H; injection H as <- end.
      eapply Hc; eauto. }
    destruct (decide (logicalOperator (deduplicateSchema schema) = Some op_and))
      as [Hand|Hand]; [|apply triple_ret; exact HQ].
    destruct its as [|firstSchema its'].
    { apply throw_excluded. intros Hn.
      destruct (Hin Hn) as [(its' & [= <-] & Hne & _)|[? _]];
        [apply (Hne Hand); reflexivity|discriminate]. }
    destruct es as [|first others]; [discriminate Hlen|].
    match goal with |- context [decide ?P] => destruct (decide P) end;
      apply triple_ret; exact HQ.
  - apply triple_bind. eapply triple_mono.
    { eapply nested_call; [exact Hrec|apply evolve_refl, Hgood| |].
      - eapply budget_le; [exact Hb|]. intros Hp.
        pose proof (Hdedup Hp schema). unfold weight, composite.
        rewrite bool_decide_eq_false_2; [lia|]. intros (_ & _ & Hit). congruence.
      - intros Hn. destruct (Hin Hn) as [(? & ? & _)|[_ Hsf]];
          [discriminate|exact Hsf]. }
    intros e s1 [Hev Hc]. apply triple_ret. split; [exact Hev|].
    intros Hs r Hv. inversion Hv; subst; try congruence. eapply Hc; eauto.
Qed.

Lemma dispatch_triple rec n pending schema s :
  rec_spec rec n ->
  Good pending s ->
  budget n (slack * size (unnamed s) + (weight schema - 1)) ->
  (nothrow = true -> safe schema) ->
  triple (dispatch rec schema) s
    (fun _ s' => evolve pending s s' /\ (strong = true -> covered s' schema)).
Proof using Hdedup Hclosed.
  intros Hrec Hgood Hb Hsafe. unfold dispatch.
  destruct (Js.truthy (ref schema)) as [r|] eqn:Er.
  { apply Js.truthy_Some in Er as Hr. destruct Hr as [_ Hr].
    apply triple_bind. eapply triple_mono.
    - eapply ref_triple; [exact Hrec|exact Hgood| | |exact Hr].
      + eapply budget_le; [exact Hb|]. intros _. lia.
      + intros Hn. eapply safe_ref_inv; eauto.
    - intros e s1 [Hev Hn]. apply triple_ret. split; [exact Hev|].
      intros _ r' Hv. inversion Hv; subst; congruence. }
  destruct (type schema) as [t|] eqn:Et.
  { apply triple_bind. eapply triple_mono.
    - eapply schemaType_triple;
        [exact Hrec|exact Hgood| |exact Hsafe|exact Er|exact Et].
      eapply budget_le; [exact Hb|]. intros _. unfold weight. lia.
    - intros [anyType e] s1 H. apply triple_ret. exact H. }
  destruct (items schema) as [its|] eqn:Ei.
  { apply triple_bind. eapply triple_mono.
    - eapply items_triple;
        [exact Hrec|exact Hgood| |exact Hsafe|exact Er|exact Et|congruence].
      eapply budget_le; [exact Hb|]. intros _. unfold weight, composite.
      rewrite bool_decide_eq_true_2; [lia|]. repeat split; congruence.
    - intros [e x] s1 H. apply triple_ret. exact H. }
  simpl. apply triple_ret. split; [apply evolve_refl, Hgood|].
  intros _ r Hv. inversion Hv; subst; congruence.
Qed.

(** **** The body: the stores it goes through *)

Definition withTracker (t : gset string) (s : Store) : Store :=
  {| state := {| circularReferenceTracker := t;
                 hasCircularReference := hasCircularReference (state s);
                 nameCase := nameCase (state s);
                 nameTransformer := nameTransformer (state s) |};
     file := file s |}.

Definition registered (r n : string) (s : Store) : Store :=
  {| state := state s;
     file := {| names := <[(r, ns_value) := n]> (names (file s));
                nodes := nodes (file s) |} |}.

Definition appended (d : ConstVariable) (s : Store) : Store :=
  {| state := state s;
     file := {| names := names (file s); nodes := nodes (file s) ++ [d] |} |}.

(** The store after the first block. *)
Definition entered (a : Args) (s : Store) : Store :=
  match Js.truthy (arg_ref a) with
  | Some r =>
      let s1 := withTracker ({[r]} ∪ tracker s) s in
      match arg_identifier a with
      | Some _ => s1
      | None =>
          match names (file s) !! (r, ns_value) with
          | Some _ => s1
          | None =>
              registered r
                (uniqueName (names (file s)) ns_value (nameCase (state s))
                   (nameTransformer (state s)) r) s1
          end
      end
  | None => s
  end.

(** The store after the block that takes [$ref] off the stack. *)
Definition released (a : Args) (s : Store) : Store :=
  match Js.truthy (arg_ref a) with
  | Some r => withTracker (tracker s ∖ {[r]}) s
  | None => s
  end.

(** The store after the block that adds the declaration. *)
Definition emitted (i : option Identifier) (anyType : option string)
    (schema : SchemaObject) (e : Expression) (s : Store) : Store :=
  match i with
  | Some i =>
      if (negb (bool_decide (name i = "")) && created i)%bool
      then appended (declaration (state s) (name i) anyType schema e) s
      else s
  | None => s
  end.

Lemma enter_eq a s : enter a s = Ok (identifierOnEntry a s) (entered a s).
Proof.
  unfold enter, identifierOnEntry, entered.
  destruct (Js.truthy (arg_ref a)) as [r|]; [|destruct (arg_identifier a); reflexivity].
  destruct (arg_identifier a) as [i|]; [reflexivity|].
  unfold bind, trackerAdd, getState, setTracker, identifier, ret, bind. simpl.
  destruct (names (file s) !! (r, ns_value)); reflexivity.
Qed.

Lemma leave_eq a s : leave a s = Ok tt (released a s).
Proof.
  unfold leave, released. destruct (Js.truthy (arg_ref a)); reflexivity.
Qed.

Lemma emit_eq i anyType schema e s :
  emit i anyType schema e s = Ok tt (emitted i anyType schema e s).
Proof.
  unfold emit, emitted. destruct i as [i|]; [|reflexivity].
  destruct (negb (bool_decide (name i = "")) && created i)%bool; reflexivity.
Qed.

(** The references pending inside a call: the call's own too, when it
    creates the identifier. *)
Definition pendingInside (pending : gset string) (a : Args) (s : Store)
  : gset string :=
  match Js.truthy (arg_ref a), arg_identifier a with
  | Some r, None =>
      match names (file s) !! (r, ns_value) with
      | Some _ => pending
      | None => pending ∪ {[r]}
      end
  | _, _ => pending
  end.

Lemma occurrences_app n l1 l2 :
  occurrences n (l1 ++ l2) = occurrences n l1 + occurrences n l2.
Proof. unfold occurrences. rewrite filter_app, length_app. reflexivity. Qed.

Lemma occurrences_zero n l : n ∉ l -> occurrences n l = 0.
Proof.
  unfold occurrences. induction l as [|x l IH]; intros H; [reflexivity|].
  apply not_elem_of_cons in H as [Hne Hl].
  rewrite filter_cons_False by congruence. apply IH, Hl.
Qed.

Lemma occurrences_one n m :
  occurrences n [m] = if decide (m = n) then 1 else 0.
Proof.
  unfold occurrences. destruct (decide (m = n)) as [->|Hne].
  - rewrite filter_cons_True by reflexivity. reflexivity.
  - rewrite filter_cons_False by exact Hne. reflexivity.
Qed.

Lemma Good_push pending r s :
  Good pending s -> named s r ->
  Good pending (withTracker ({[r]} ∪ tracker s) s).
Proof.
  intros [Hi Hd] Hr. split.
  - destruct Hi as [H1 H2]. split; [exact H1|].
    intros r0 Hr0. unfold tracker in Hr0; simpl in Hr0.
    apply elem_of_union in Hr0 as [Hr0|Hr0].
    + apply elem_of_singleton in Hr0 as ->. exact Hr.
    + apply H2, Hr0.
  - intros Hs. destruct (Hd Hs) as [D1 D2 D3 D4 D5].
    split; [exact D1|exact D2|exact D3| |exact D5].
    unfold tracker; simpl. intros r0 Hr0. apply elem_of_union. right.
    apply D4, Hr0.
Qed.

Lemma Good_register pending r n s :
  Good pending s ->
  names (file s) !! (r, ns_value) = None ->
  n <> "" ->
  (strong = true -> forall r', names (file s) !! (r', ns_value) <> Some n) ->
  Good (pending ∪ {[r]})
    (registered r n (withTracker ({[r]} ∪ tracker s) s)).
Proof.
  intros [Hi Hd] Hnone Hn Hfr. split.
  - destruct Hi as [H1 H2]. split.
    + intros k m. simpl. rewrite lookup_insert.
      destruct (decide ((r, ns_value) = k)); [intros [= <-]; exact Hn|apply H1].
    + intros r0 Hr0. unfold tracker in Hr0; simpl in Hr0. unfold named; simpl.
      rewrite lookup_insert.
      destruct (decide ((r, ns_value) = (r0, ns_value))); [eauto|].
      apply elem_of_union in Hr0 as [Hr0|Hr0]; [|apply H2, Hr0].
      apply elem_of_singleton in Hr0 as ->. congruence.
  - intros Hs. specialize (Hfr Hs). destruct (Hd Hs) as [D1 D2 D3 D4 D5]. split.
    + intros r1 r2 m. simpl. rewrite !lookup_insert.
      destruct (decide ((r, ns_value) = (r1, ns_value))) as [E1|E1];
        destruct (decide ((r, ns_value) = (r2, ns_value))) as [E2|E2].
      * intros _ _. congruence.
      * intros [= <-] H2. exfalso. eapply Hfr, H2.
      * intros H1 [= <-]. exfalso. eapply Hfr, H1.
      * apply D1.
    + intros r0 m. simpl. rewrite lookup_insert.
      change (declared_names (registered r n (withTracker ({[r]} ∪ tracker s) s)))
        with (declared_names s).
      destruct (decide ((r, ns_value) = (r0, ns_value))) as [E|E].
      * intros [= <-]. injection E as <-.
        rewrite decide_True by (apply elem_of_union; right; apply elem_of_singleton; reflexivity).
        apply occurrences_zero. intros Hin.
        destruct (D3 _ Hin) as [r' Hr']. eapply Hfr, Hr'.
      * intros Hm. rewrite (D2 _ _ Hm).
        assert (r0 <> r) by congruence.
        destruct (decide (r0 ∈ pending)) as [Hp|Hp].
        -- rewrite decide_True; [reflexivity|]. apply elem_of_union. auto.
        -- rewrite decide_False; [reflexivity|]. intros Hin.
           apply elem_of_union in Hin as [Hin|Hin]; [auto|].
           apply elem_of_singleton in Hin. auto.
    + intros m Hm. destruct (D3 m Hm) as [r' Hr']. exists r'. simpl.
      rewrite lookup_insert_ne; [exact Hr'|]. intros [= ->]. congruence.
    + unfold tracker; simpl. intros r0 Hr0.
      apply elem_of_union in Hr0 as [Hr0|Hr0]; apply elem_of_union; auto.
    + intros r0 x Hr0 Hp Hx. unfold named in Hr0; simpl in Hr0.
      assert (r0 <> r).
      { intros ->. apply Hp, elem_of_union. right. apply elem_of_singleton. reflexivity. }
      rewrite lookup_insert_ne in Hr0 by congruence.
      eapply covered_mono; [|eapply D5; eauto].
      * simpl. apply insert_subseteq. exact Hnone.
      * intros Hin. apply Hp, elem_of_union. auto.
Qed.

Lemma entered_good pending a s :
  PreF pending a s -> Good (pendingInside pending a s) (entered a s).
Proof using Hname Hfresh.
  intros (Hgood & Hok & _ & Hstrong). unfold entered, pendingInside.
  destruct (Js.truthy (arg_ref a)) as [r|] eqn:Er;
    [|destruct (arg_identifier a); exact Hgood].
  destruct (Hok r Er) as [HrT Hid].
  destruct (arg_identifier a) as [i|] eqn:Ei.
  { apply Good_push; [exact Hgood|]. apply Hid. discriminate. }
  destruct (names (file s) !! (r, ns_value)) as [nm|] eqn:En.
  { apply Good_push; [exact Hgood|]. exists nm. exact En. }
  apply Good_register; [exact Hgood|exact En|apply Hname|].
  intros Hs r'. apply Hfresh, Hs.
Qed.

Lemma entered_names a s : names (file s) ⊆ names (file (entered a s)).
Proof.
  unfold entered. destruct (Js.truthy (arg_ref a)) as [r|]; [|reflexivity].
  destruct (arg_identifier a); [reflexivity|].
  destruct (names (file s) !! (r, ns_value)) eqn:E; [reflexivity|].
  simpl. apply insert_subseteq, E.
Qed.

Lemma entered_tracker a s :
  tracker (entered a s) =
  match Js.truthy (arg_ref a) with
  | Some r => {[r]} ∪ tracker s
  | None => tracker s
  end.
Proof.
  unfold entered. destruct (Js.truthy (arg_ref a)) as [r|]; [|reflexivity].
  destruct (arg_identifier a); [reflexivity|].
  destruct (names (file s) !! (r, ns_value)); reflexivity.
Qed.

Lemma entered_nodes a s : nodes (file (entered a s)) = nodes (file s).
Proof.
  unfold entered. destruct (Js.truthy (arg_ref a)) as [r|]; [|reflexivity].
  destruct (arg_identifier a); [reflexivity|].
  destruct (names (file s) !! (r, ns_value)); reflexivity.
Qed.

Lemma entered_named a s r :
  call_ok a s -> Js.truthy (arg_ref a) = Some r -> named (entered a s) r.
Proof.
  intros Hok Er. unfold entered. rewrite Er. destruct (Hok r Er) as [_ Hid].
  destruct (arg_identifier a) as [i|]; [apply Hid; discriminate|].
  destruct (names (file s) !! (r, ns_value)) as [nm|] eqn:En.
  - exists nm. exact En.
  - unfold named; simpl. rewrite lookup_insert_eq. eauto.
Qed.

Lemma entered_unnamed a s :
  call_ok a s -> unnamed (entered a s) ⊆ entryUnnamed a s.
Proof.
  intros Hok. unfold entryUnnamed.
  destruct (Js.truthy (arg_ref a)) as [r|] eqn:Er.
  - intros x Hx. apply elem_of_difference. split.
    + eapply unnamed_mono; [apply entered_names|exact Hx].
    + intros Hxr. apply elem_of_singleton in Hxr as ->.
      destruct (entered_named a s r Hok Er) as [nm Hnm].
      unfold unnamed in Hx. apply elem_of_filter in Hx as [Hx _]. congruence.
  - unfold entered. rewrite Er. reflexivity.
Qed.

Lemma Decls_tracker pending s t :
  Decls pending s -> pending ⊆ t -> Decls pending (withTracker t s).
Proof.
  intros [D1 D2 D3 D4 D5] Ht. split; [exact D1|exact D2|exact D3|exact Ht|exact D5].
Qed.

Lemma declared_names_appended d t s :
  declared_names (appended d (withTracker t s)) = declared_names s ++ [cv_name d].
Proof. unfold declared_names; simpl. apply map_app. Qed.

(** Adding the declaration of a pending reference. *)
Lemma Decls_declare pending r n d s t :
  Decls (pending ∪ {[r]}) s ->
  names (file s) !! (r, ns_value) = Some n ->
  cv_name d = n ->
  r ∉ pending ->
  pending ⊆ t ->
  (forall x, components plugin !! r = Some x -> covered s x) ->
  Decls pending (appended d (withTracker t s)).
Proof.
  intros [D1 D2 D3 D4 D5] Hn Hd Hr Ht Hc. split.
  - exact D1.
  - intros r0 m Hm. simpl in Hm.
    rewrite declared_names_appended.
    rewrite occurrences_app, occurrences_one, Hd, (D2 _ _ Hm).
    destruct (decide (r0 = r)) as [->|Hne].
    + assert (m = n) as -> by congruence.
      rewrite decide_True by (apply elem_of_union; right; apply elem_of_singleton; reflexivity).
      rewrite decide_True by reflexivity. rewrite decide_False by exact Hr.
      reflexivity.
    + rewrite (decide_False (P := n = m)).
      2: { intros <-. apply Hne. eapply D1; eassumption. }
      destruct (decide (r0 ∈ pending)) as [Hp|Hp].
      * rewrite decide_True; [reflexivity|]. apply elem_of_union. auto.
      * rewrite decide_False; [reflexivity|]. intros Hin.
        apply elem_of_union in Hin as [Hin|Hin]; [auto|].
        apply elem_of_singleton in Hin. auto.
  - intros m Hm. rewrite declared_names_appended in Hm.
    apply elem_of_app in Hm as [Hm|Hm]; [apply D3, Hm|].
    apply list_elem_of_singleton in Hm as ->. exists r. rewrite Hd. exact Hn.
  - exact Ht.
  - intros r0 x Hr0 Hp Hx. destruct (decide (r0 = r)) as [->|Hne].
    + apply (Hc x Hx).
    + apply (D5 r0 x Hr0); [|exact Hx]. intros Hin.
      apply elem_of_union in Hin as [Hin|Hin]; [auto|].
      apply elem_of_singleton in Hin. auto.
Qed.

Lemma emitted_names i anyType x e s :
  names (file (emitted i anyType x e s)) = names (file s).
Proof.
  unfold emitted. destruct i as [i|]; [|reflexivity].
  destruct (negb (bool_decide (name i = "")) && created i)%bool; reflexivity.
Qed.

Lemma emitted_tracker i anyType x e s :
  tracker (emitted i anyType x e s) = tracker s.
Proof.
  unfold emitted. destruct i as [i|]; [|reflexivity].
  destruct (negb (bool_decide (name i = "")) && created i)%bool; reflexivity.
Qed.

Lemma released_tracker a s0 s :
  call_ok a s0 ->
  tracker s = tracker (entered a s0) ->
  tracker (released a s) = tracker s0.
Proof.
  intros Hok Ht. rewrite entered_tracker in Ht. unfold released.
  destruct (Js.truthy (arg_ref a)) as [r|] eqn:Er; [|exact Ht].
  destruct (Hok r Er) as [Hr _]. unfold tracker at 1; simpl. rewrite Ht.
  apply set_eq. intros y. rewrite elem_of_difference, elem_of_union, elem_of_singleton.
  split; [intros [[->|H] Hn]; [congruence|exact H]|].
  intros H. split; [right; exact H|]. intros ->. exact (Hr H).
Qed.

(** What the call leaves, from what its dispatch left. *)
Lemma finished_post pending a s anyType e x s2 :
  PreF pending a s ->
  evolve (pendingInside pending a s) (entered a s) s2 ->
  (strong = true -> covered s2 (arg_schema a)) ->
  PostF pending a s (emitted (identifierOnEntry a s) anyType x e (released a s2)).
Proof using Hname.
  intros Hpre (Hg2 & Hn2 & Ht2) Hc2.
  pose proof Hpre as (Hgood & Hok & _ & Hstrong).
  set (s4 := emitted (identifierOnEntry a s) anyType x e (released a s2)).
  assert (F1 : names (file s4) = names (file s2)).
  { unfold s4. rewrite emitted_names. unfold released.
    destruct (Js.truthy (arg_ref a)); reflexivity. }
  assert (F2 : tracker s4 = tracker s).
  { unfold s4. rewrite emitted_tracker. apply released_tracker; assumption. }
  assert (Hsub : names (file s) ⊆ names (file s4)).
  { rewrite F1. etrans; [apply entered_names|exact Hn2]. }
  assert (Hcov : forall y, covered s2 y -> covered s4 y).
  { intros y. apply covered_mono. rewrite F1. reflexivity. }
  split; [|split].
  2: { intros r Er. eapply named_mono; [|eapply entered_named; eassumption].
       rewrite F1. exact Hn2. }
  2: { intros Hs. apply Hcov, Hc2, Hs. }
  split; [|split; [exact Hsub|exact F2]].
  split.
  { split.
    - rewrite F1. apply (inv_nonempty s2), Hg2.
    - intros r. rewrite F2. intros Hr. eapply named_mono; [exact Hsub|].
      apply (inv_tracked s); [apply Hgood|exact Hr]. }
  intros Hs. destruct (Hstrong Hs) as [Hid Hcomp].
  destruct Hgood as [_ Hd]. specialize (Hd Hs).
  destruct Hg2 as [_ Hd2]. specialize (Hd2 Hs).
  unfold s4, identifierOnEntry, released. unfold pendingInside in Hd2.
  rewrite Hid in *.
  destruct (Js.truthy (arg_ref a)) as [r|] eqn:Er; [|exact Hd2].
  destruct (Hok r Er) as [HrT _].
  assert (Ht : tracker s2 ∖ {[r]} = tracker s).
  { assert (H := released_tracker a s s2 Hok Ht2). unfold released in H.
    rewrite Er in H. exact H. }
  rewrite Ht.
  destruct (names (file s) !! (r, ns_value)) as [nm|] eqn:En.
  { simpl. rewrite andb_false_r. apply Decls_tracker; [exact Hd2|apply Hd]. }
  simpl. rewrite bool_decide_eq_false_2 by apply Hname. simpl.
  eapply Decls_declare; [exact Hd2| |reflexivity| |apply Hd|].
  - eapply lookup_weaken; [|exact Hn2]. unfold entered. rewrite Er, Hid, En.
    simpl. apply lookup_insert_eq.
  - intros Hin. apply HrT. apply (d_pending _ _ Hd), Hin.
  - intros y Hy. rewrite (Hcomp r y eq_refl Hy). apply Hc2, Hs.
Qed.

Lemma body_triple rec n :
  rec_spec rec n -> rec_spec (schemaToZodSchema_body rec) (S n).
Proof using Hname Hfresh Hdedup Hclosed.
  intros Hrec pending a s Hpre Hb. unfold schemaToZodSchema_body.
  apply triple_bind. eapply triple_eq; [apply enter_eq|].
  apply triple_bind. eapply triple_mono.
  { apply (dispatch_triple rec n (pendingInside pending a s));
      [exact Hrec|apply entered_good, Hpre| |apply Hpre].
    eapply budget_step; [exact Hb|]. intros _. unfold req.
    assert (size (unnamed (entered a s)) <= size (entryUnnamed a s)).
    { apply subseteq_size, entered_unnamed, Hpre. }
    pose proof (weight_pos (arg_schema a)).
    assert (slack * size (unnamed (entered a s))
            <= slack * size (entryUnnamed a s))
      by (apply Nat.mul_le_mono_l; assumption).
    lia. }
  intros [[anyType e] x] s2 [Hev Hc].
  apply triple_bind. eapply triple_eq; [apply leave_eq|].
  apply triple_bind. eapply triple_eq; [apply emit_eq|].
  apply triple_ret. apply finished_post; assumption.
Qed.

(** The invariants hold for [schemaToZodSchema] at every bound; and with
    [partial = false], a bound of [req] is enough. *)
Lemma schemaToZodSchema_spec n : rec_spec (schemaToZodSchema n) n.
Proof using Hname Hfresh Hdedup Hclosed.
  induction n as [|n IH].
  - intros pending a s _ [Hp|Hb]; [exact Hp|].
    unfold req in Hb. pose proof (weight_pos (arg_schema a)). lia.
  - apply body_triple, IH.
Qed.

End Walk.

(** *** The traversal stack and the declarations of a completed run *)

(** With complete declarations, what is reachable from a named component
    is named. *)
Lemma reachable_named s r r' :
  Decls ∅ s -> named s r -> reachable r r' -> named s r'.
Proof.
  intros Hd Hn Hr. induction Hr as [r|r y r' (x & Hx & Hv) _ IH]; [exact Hn|].
  apply IH. eapply (d_closed _ _ Hd r x); [exact Hn| |exact Hx|exact Hv].
  apply not_elem_of_empty.
Qed.

(** A [$ref] that has a name: [z.lazy] when it is on the stack, the bare
    name otherwise; the nested call is not reached. *)
Lemma dispatch_named rec x r n s :
  Js.truthy (ref x) = Some r ->
  names (file s) !! (r, ns_value) = Some n -> n <> "" ->
  dispatch rec x s =
  (let* e := referTo (bool_decide (r ∈ tracker s)) n in ret (None, e, x)) s.
Proof.
  intros Hr Hn Hne. unfold dispatch. rewrite Hr.
  unfold refToZodSchema, bind, getState. rewrite identifier_lookup, Hn. simpl.
  destruct (decide (n = "")) as [E|_]; [destruct (Hne E)|]. reflexivity.
Qed.

(** C9.  A call of [schemaToZodSchema] that returns leaves
    [state.circularReferenceTracker] as it found it.  Assumed: the
    identifier service gives no empty name; on entry the names of the file
    are not empty and what is on the stack has an identifier ([Inv], which
    the call keeps); and the [$ref] passed is not on the stack, the
    identifier passed with it being the file's ([call_ok], which holds at
    every top-level call, where the stack is empty, and at every nested
    call).  For a call with a [$ref]: the reference is on the stack when
    the dispatch on the schema starts, the stack is the same when the
    dispatch ends, and the reference is off the stack when the call
    returns. *)
Theorem tracker_restored fuel a s e s' :
  (forall table ns c t r, uniqueName table ns c t r <> "") ->
  Inv s -> call_ok a s ->
  schemaToZodSchema fuel a s = Ok e s' ->
  tracker s' = tracker s /\ Inv s' /\
  forall r, Js.truthy (arg_ref a) = Some r ->
    (r ∉ tracker s') /\
    exists n i s1 out s2,
      fuel = S n /\
      enter a s = Ok i s1 /\
      dispatch (schemaToZodSchema n) (arg_schema a) s1 = Ok out s2 /\
      tracker s1 = {[r]} ∪ tracker s /\
      tracker s2 = {[r]} ∪ tracker s.
Proof.
  intros Hname Hinv Hok Hrun.
  assert (HF : forall n, rec_spec true false false (schemaToZodSchema n) n).
  { intros n. apply schemaToZodSchema_spec; [exact Hname|discriminate..]. }
  assert (Hpre : PreF false false ∅ a s).
  { split; [split; [exact Hinv|discriminate]|].
    split; [exact Hok|]. split; discriminate. }
  pose proof (HF fuel ∅ a s Hpre (or_introl eq_refl)) as Hpost.
  unfold triple in Hpost. rewrite Hrun in Hpost.
  destruct Hpost as (([Hinv' _] & _ & Ht) & _ & _).
  split; [exact Ht|]. split; [exact Hinv'|].
  intros r Hr. split; [rewrite Ht; apply (Hok r Hr)|].
  destruct fuel as [|n]; [discriminate Hrun|]. simpl in Hrun.
  unfold schemaToZodSchema_body, bind in Hrun. rewrite enter_eq in Hrun.
  pose proof (dispatch_triple true false false ltac:(discriminate)
                ltac:(discriminate) (schemaToZodSchema n) n
                (pendingInside ∅ a s) (arg_schema a) (entered a s)
                (HF n)
                (entered_good false false Hname ltac:(discriminate) ∅ a s Hpre)
                (or_introl eq_refl) ltac:(discriminate)) as Hd.
  unfold triple in Hd.
  destruct (dispatch (schemaToZodSchema n) (arg_schema a) (entered a s))
    as [out s2| |] eqn:Ed; try discriminate Hrun.
  destruct Hd as ((_ & _ & Ht2) & _).
  pose proof (entered_tracker a s) as Ht1. rewrite Hr in Ht1.
  exists n, (identifierOnEntry a s), (entered a s), out, s2.
  split; [reflexivity|]. split; [apply enter_eq|]. split; [exact Ed|].
  split; [exact Ht1|]. rewrite Ht2. exact Ht1.
Qed.

(** **** The calls in progress *)


(** The calls of [schemaToZodSchema] the dispatch on [x] makes from the
    store [s], each with the store it is made in: the call on the
    component in the branch for [$ref], when the reference has no
    identifier; the calls on the items of an array, on the properties of
    an object, on the items of a tuple and on the items of a composition,
    each after the calls on the items before it have returned; and the
    call on a composition that deduplication left without items. *)
Inductive calls (rec : Args -> M Expression) (x : SchemaObject) (s : Store)
  : Args -> Store -> Prop :=
| calls_ref r y :
    Js.truthy (ref x) = Some r ->
    default "" (names (file s) !! (r, ns_value)) = "" ->
    components plugin !! r = Some y ->
    calls rec x s
      {| arg_ref := Some r; arg_identifier := None; arg_optional := false;
         arg_schema := y |} s
| calls_array its pre i post es s' :
    Js.truthy (ref x) = None -> type x = Some t_array -> items x <> None ->
    items (deduplicateSchema x) = Some its -> its = pre ++ i :: post ->
    mapM (fun item => rec (nested false item)) pre s = Ok es s' ->
    calls rec x s (nested false i) s'
| calls_object pre k i post ms s' :
    Js.truthy (ref x) = None -> type x = Some t_object ->
    default [] (properties x) = pre ++ (k, i) :: post ->
    mapM (fun '(name, property) =>
            let isRequired := bool_decide (name ∈ default [] (required x)) in
            let* propertyExpression := rec (nested (negb isRequired) property) in
            ret (propertyName name, propertyExpression))
      pre s = Ok ms s' ->
    calls rec x s
      (nested (negb (bool_decide (k ∈ default [] (required x)))) i) s'
| calls_tuple pre i post es s' :
    Js.truthy (ref x) = None -> type x = Some t_tuple ->
    (forall l, const_ x <> JArray l) ->
    default [] (items x) = pre ++ i :: post ->
    mapM (fun item => rec (nested false item)) pre s = Ok es s' ->
    calls rec x s (nested false i) s'
| calls_items its pre i post es s' :
    Js.truthy (ref x) = None -> type x = None -> items x <> None ->
    items (deduplicateSchema x) = Some its -> its = pre ++ i :: post ->
    mapM (fun item => rec (nested false item)) pre s = Ok es s' ->
    calls rec x s (nested false i) s'
| calls_lifted :
    Js.truthy (ref x) = None -> type x = None -> items x <> None ->
    items (deduplicateSchema x) = None ->
    calls rec x s (nested false (deduplicateSchema x)) s.












(** *** More on the emitters of one type *)

Lemma enumMember_Some item e :
  enumMember item = Some e <->
  type item = Some t_string /\
  exists c, const_ item = JString c /\ e = TsStringLiteral c.
Proof.
  unfold enumMember. split.
  - destruct (type item) as [[]|]; try discriminate.
    destruct (const_ item); try discriminate. intros [= <-]. eauto.
  - intros (-> & c & -> & ->). reflexivity.
Qed.

(** An item that makes an enum nullable. *)
Definition nullItem (item : SchemaObject) : Prop :=
  enumMember item = None /\ (type item = Some t_null \/ const_ item = JNull).

Lemma enumNull_true item : enumNull item = true <-> nullItem item.
Proof.
  unfold enumNull, nullItem, enumMember.
  destruct (type item) as [[]|], (const_ item); simpl; split; intros H;
    try discriminate H; try reflexivity;
    try (split; [reflexivity|]; auto; fail);
    destruct H as [H1 [H2|H2]]; discriminate.
Qed.

(** X12.  An enum without an item that is a string constant becomes
    [z.unknown()], also when it has a [null] item: numbers, booleans and
    [null] alone make no [z.enum]. *)
Theorem enum_without_strings schema :
  (forall item c, item ∈ default [] (items schema) ->
     type item = Some t_string -> const_ item <> JString c) ->
  enumTypeToZodSchema schema = z_call "unknown" [].
Proof.
  intros H. unfold enumTypeToZodSchema.
  destruct (omap enumMember (default [] (items schema))) as [|e l] eqn:E;
    [reflexivity|].
  assert (He : e ∈ omap enumMember (default [] (items schema))).
  { rewrite E. apply elem_of_cons. auto. }
  apply list_elem_of_omap in He as (item & Hitem & Hm).
  apply enumMember_Some in Hm as (Ht & c & Hc & _).
  destruct (H item c Hitem Ht Hc).
Qed.

(** X13.  An enum with a string constant among its items becomes
    [z.enum([...])] of string literals, never of an empty array: every
    member is the constant of an item of type [string]; items that are
    no string constants give no member.  [.nullable()] is appended
    exactly when one of those other items is of type [null] or has the
    constant [null]. *)
Theorem enum_with_strings schema :
  (exists item c, item ∈ default [] (items schema) /\
     type item = Some t_string /\ const_ item = JString c) ->
  exists members,
    members <> [] /\
    Forall (fun e => exists item c,
              item ∈ default [] (items schema) /\
              type item = Some t_string /\ const_ item = JString c /\
              e = TsStringLiteral c) members /\
    length members <= length (default [] (items schema)) /\
    ((enumTypeToZodSchema schema
      = z_call "enum" [Some (TsArrayLiteral members)] /\
      ~ exists item, item ∈ default [] (items schema) /\ nullItem item) \/
     (enumTypeToZodSchema schema
      = method (z_call "enum" [Some (TsArrayLiteral members)]) "nullable" [] /\
      exists item, item ∈ default [] (items schema) /\ nullItem item)).
Proof.
  intros (item & c & Hitem & Ht & Hc). unfold enumTypeToZodSchema.
  set (its := default [] (items schema)) in *.
  exists (omap enumMember its).
  assert (Hne : omap enumMember its <> []).
  { intros E. assert (Hin : TsStringLiteral c ∈ omap enumMember its).
    { apply list_elem_of_omap. exists item. split; [exact Hitem|].
      apply enumMember_Some. eauto. }
    rewrite E in Hin. apply elem_of_nil in Hin. exact Hin. }
  split; [exact Hne|]. split; [|split].
  - apply Forall_forall. intros e He.
    apply list_elem_of_omap in He as (i & Hi & Hm).
    apply enumMember_Some in Hm as (Hti & ci & Hci & ->). eauto 10.
  - clear. induction its as [|i its IH]; [reflexivity|].
    change (omap enumMember (i :: its))
      with (match enumMember i with
            | Some y => y :: omap enumMember its
            | None => omap enumMember its
            end).
    destruct (enumMember i); simpl; lia.
  - destruct (omap enumMember its) as [|e l] eqn:E; [destruct (Hne eq_refl)|].
    destruct (existsb enumNull its) eqn:Ex.
    + right. split; [reflexivity|]. apply existsb_exists in Ex as (i & Hi & Hn).
      exists i. split; [apply list_elem_of_In, Hi|apply enumNull_true, Hn].
    + left. split; [reflexivity|]. intros (i & Hi & Hn).
      assert (existsb enumNull its = true); [|congruence].
      apply existsb_exists. exists i. split; [apply list_elem_of_In, Hi|].
      apply enumNull_true, Hn.
Qed.

Lemma spine_method e n ps : spine (method e n ps) = spine e ++ [n].
Proof. reflexivity. Qed.

(** The names of the length refinements, by the bounds given. *)
Definition lengthNames (lo hi : option Z) : list string :=
  match lo, hi with
  | Some n, Some m => if decide (n = m) then ["length"] else ["min"; "max"]
  | Some _, None => ["min"]
  | None, Some _ => ["max"]
  | None, None => []
  end.

Lemma spine_lengthRefinements lo hi e :
  spine (lengthRefinements lo hi e) = spine e ++ lengthNames lo hi.
Proof.
  unfold lengthRefinements, lengthNames.
  destruct lo as [n|], hi as [m|]; simpl; rewrite ?app_nil_r; try reflexivity.
  - destruct (decide (Some n = Some m)) as [E|E], (decide (n = m)) as [E'|E'];
      try congruence; simpl; rewrite <- ?app_assoc; reflexivity.
Qed.

(** The refinement a string format stands for, if any. *)
Definition formatNames (f : string) : list string :=
  if decide (f = "date-time") then ["datetime"]
  else if decide (f = "ipv4" \/ f = "ipv6") then ["ip"]
  else if decide (f = "uri") then ["url"]
  else if decide (f = "date" \/ f = "email" \/ f = "time" \/ f = "uuid")
       then [f]
  else [].

(** X14.  A string schema with a string constant is [z.literal(c)] and
    nothing else, whatever format, lengths and pattern it has.  Without
    one it is [z.string()] with refinements in this order: the one of the
    format, for the formats known (others, and the empty one, are passed
    over); [.length] when both length bounds are given and equal, else
    [.min] and [.max] for the bounds given, never [.length] together
    with them; [.regex] for a pattern that is not empty. *)
Theorem string_refinements_order schema :
  (forall c, const_ schema = JString c ->
     stringTypeToZodSchema schema = z_call "literal" [Some (OtsString c)]) /\
  ((forall c, const_ schema <> JString c) ->
   spine (stringTypeToZodSchema schema) =
   ["string"]
   ++ match Js.truthy (format schema) with
      | Some f => formatNames f
      | None => []
      end
   ++ lengthNames (minLength schema) (maxLength schema)
   ++ match Js.truthy (pattern schema) with
      | Some _ => ["regex"]
      | None => []
      end).
Proof.
  unfold stringTypeToZodSchema. split.
  - intros c ->. reflexivity.
  - intros Hc.
    assert (Hs : forall f e, spine (stringFormat f e) = spine e ++ formatNames f).
    { intros f e. unfold stringFormat, formatNames.
      repeat (case_decide; [reflexivity|]). rewrite app_nil_r. reflexivity. }
    destruct (const_ schema) eqn:Ec; try (destruct (Hc _ eq_refl));
      (destruct (Js.truthy (pattern schema));
       rewrite ?spine_method, spine_lengthRefinements;
       destruct (Js.truthy (format schema));
       rewrite ?Hs; simpl; rewrite <- ?app_assoc, ?app_nil_r; reflexivity).
Qed.

(** Membership in a list of strings written out. *)
Ltac among :=
  apply (bool_decide_unpack _); vm_compute; exact I.

(** X15.  The bounds of a number.  An exclusive bound shadows the
    inclusive one on its side: [.gt] is there exactly when
    [exclusiveMinimum] is given, and [.gte] exactly when it is not and
    [minimum] is; likewise [.lt] and [.lte]; so never both of a side.
    A schema of type [number] starts with [z.number()] and has no
    [.int()], whatever its format. *)
Theorem number_bounds schema :
  (forall c, const_ schema <> JNumber c) ->
  let names := spine (numberTypeToZodSchema schema) in
  ("gt" ∈ names <-> exclusiveMinimum schema <> None) /\
  ("gte" ∈ names <->
     exclusiveMinimum schema = None /\ minimum schema <> None) /\
  ("lt" ∈ names <-> exclusiveMaximum schema <> None) /\
  ("lte" ∈ names <->
     exclusiveMaximum schema = None /\ maximum schema <> None) /\
  (type schema = Some t_number ->
   bounded (z_call "number" []) (numberTypeToZodSchema schema) /\
   "int" ∉ names).
Proof.
  intros Hc. rewrite (numberType_no_const schema Hc). cbv zeta.
  assert (Hn : type schema = Some t_number -> isInt64 schema = false).
  { intros Ht. apply bool_decide_eq_false. intros [E _]. congruence. }
  split; [|split; [|split; [|split]]].
  1-4: destruct (isInt64 schema),
         (bool_decide (type schema = Some t_integer)),
         (exclusiveMinimum schema), (minimum schema),
         (exclusiveMaximum schema), (maximum schema);
       cbn [spine method z_call negb andb app zIdentifier];
       (split; intros H;
        [first [not_among H | discriminate
               | split; [reflexivity|discriminate]]
        |first [among | congruence | destruct H; congruence]]).
  intros H. split.
  - rewrite (Hn H).
    rewrite bool_decide_eq_false_2 by (rewrite H; discriminate). simpl.
    destruct (exclusiveMinimum schema), (minimum schema),
      (exclusiveMaximum schema), (maximum schema);
      repeat (first [apply bounded_base | apply bounded_step; [|among]]).
  - rewrite (Hn H).
    rewrite bool_decide_eq_false_2 by (rewrite H; discriminate). simpl.
    destruct (exclusiveMinimum schema), (minimum schema),
      (exclusiveMaximum schema), (maximum schema); simpl;
      intros Hin; not_among Hin.
Qed.

(** X16.  The name of a property that starts with [-], a negative number
    among them, is emitted in quotes: the string literal the branch for
    numbers makes of it is replaced, whatever [numberRegExp] says of the
    name. *)
Theorem propertyName_dash name :
  Js.starts_with "-" name = true ->
  Js.ends_with "'" name = false ->
  propertyName name = pn_text ("'" ++ name ++ "'")%string.
Proof.
  intros Hs He. unfold propertyName. rewrite He.
  destruct name as [|c rest]; [discriminate Hs|].
  simpl in Hs. apply bool_decide_eq_true in Hs. subst c.
  assert (Hc : existsb (fun c => negb (Js.is_word c))
                 (Js.chars (String "-" rest)) = true) by reflexivity.
  rewrite Hc, orb_true_r. reflexivity.
Qed.

(** X17.  A name of letters, digits and underscores that does not start
    with a digit, or is all digits, is never put in quotes: it is
    emitted as it is, as a numeric literal when [numberRegExp] matches
    it. *)
Theorem propertyName_plain name :
  forallb Js.is_word (Js.chars name) = true ->
  (Js.starts_with "-" name = false) /\
  ((match name with String c _ => Js.is_digit c | EmptyString => false end
    = false \/ forallb Js.is_digit (Js.chars name) = true) ->
   propertyName name =
   if numberRegExp_test name then pn_numeric_literal name else pn_text name).
Proof.
  intros Hw.
  assert (Hd : Js.starts_with "-" name = false).
  { destruct name as [|c rest]; [reflexivity|]. simpl in *.
    apply andb_true_iff in Hw as [Hc _]. apply bool_decide_eq_false.
    intros <-. discriminate Hc. }
  split; [exact Hd|]. intros Hlead. unfold propertyName. rewrite Hd.
  assert (Hnw : existsb (fun c => negb (Js.is_word c)) (Js.chars name) = false).
  { clear -Hw. induction (Js.chars name) as [|c l IH]; [reflexivity|].
    simpl in *. apply andb_true_iff in Hw as [Hc Hl].
    rewrite Hc, (IH Hl). reflexivity. }
  rewrite Hnw, orb_false_r.
  assert (Hld : ((match name with String c _ => Js.is_digit c
                  | EmptyString => false end)
                 && existsb (fun c => negb (Js.is_digit c)) (Js.chars name))%bool
                = false).
  { destruct Hlead as [->|Hall]; [reflexivity|].
    apply andb_false_iff. right. clear -Hall.
    induction (Js.chars name) as [|c l IH]; [reflexivity|].
    simpl in *. apply andb_true_iff in Hall as [Hc Hl].
    rewrite Hc, (IH Hl). reflexivity. }
  rewrite Hld. reflexivity.
Qed.

(** *** What a run never undoes *)

(** From [s] to [s']: identifiers are kept, declarations are only added
    at the end, the naming settings of the state are the same, and
    [hasCircularReference] is not cleared. *)
Record extends (s s' : Store) : Prop := {
  ext_names : names (file s) ⊆ names (file s');
  ext_nodes : nodes (file s) `prefix_of` nodes (file s');
  ext_case : nameCase (state s') = nameCase (state s);
  ext_transformer : nameTransformer (state s') = nameTransformer (state s);
  ext_circular :
    hasCircularReference (state s) = true ->
    hasCircularReference (state s') = true;
}.

Lemma extends_refl s : extends s s.
Proof. split; auto; reflexivity. Qed.

Lemma extends_trans s1 s2 s3 : extends s1 s2 -> extends s2 s3 -> extends s1 s3.
Proof.
  intros [] []. split; try (etrans; eassumption); auto.
Qed.

(** Every run of [m] that returns extends the store. *)
Definition keeps {A} (m : M A) : Prop :=
  forall s a s', m s = Ok a s' -> extends s s'.

Lemma keeps_ret {A} (a : A) : keeps (ret a).
Proof. intros s b s' [= _ <-]. apply extends_refl. Qed.

Lemma keeps_throw {A} e : keeps (throw (A:=A) e).
Proof. intros s b s' H. discriminate H. Qed.

Lemma keeps_bind {A B} (m : M A) (k : A -> M B) :
  keeps m -> (forall a, keeps (k a)) -> keeps (bind m k).
Proof.
  intros Hm Hk s b s' H. apply bind_Ok in H as (a & s1 & H1 & H2).
  eapply extends_trans; [eapply Hm|eapply Hk]; eassumption.
Qed.

Lemma keeps_mapM {A B} (f : A -> M B) l :
  (forall x, keeps (f x)) -> keeps (mapM f l).
Proof.
  intros Hf. induction l as [|x l IH]; simpl; [apply keeps_ret|].
  apply keeps_bind; [apply Hf|]. intros y.
  apply keeps_bind; [apply IH|]. intros ys. apply keeps_ret.
Qed.

Lemma keeps_getState : keeps getState.
Proof. intros s a s' [= _ <-]. apply extends_refl. Qed.

Lemma keeps_setTracker t : keeps (setTracker t).
Proof. intros s a s' [= _ <-]. split; simpl; auto; reflexivity. Qed.

Lemma keeps_markCircular : keeps markCircular.
Proof. intros s a s' [= _ <-]. split; simpl; auto; reflexivity. Qed.

Lemma keeps_fileAdd d : keeps (fileAdd d).
Proof.
  intros s a s' [= _ <-]. split; simpl; auto; try reflexivity.
  apply prefix_app_r. reflexivity.
Qed.

Lemma keeps_identifier r c create t ns : keeps (identifier r c create t ns).
Proof.
  intros s i s'. unfold identifier.
  destruct (names (file s) !! (r, ns)) as [n|] eqn:E.
  - intros [= _ <-]. apply extends_refl.
  - destruct create; intros [= _ <-]; [|apply extends_refl].
    split; simpl; auto; try reflexivity. apply insert_subseteq, E.
Qed.

Lemma keeps_resolveIrRef r : keeps (resolveIrRef r).
Proof.
  unfold resolveIrRef. destruct (components plugin !! r);
    [apply keeps_ret|apply keeps_throw].
Qed.

(** Go through a monadic term by its binds and case distinctions. *)
Ltac keeps_step :=
  first
    [ apply keeps_ret | apply keeps_throw | apply keeps_getState
    | apply keeps_setTracker | apply keeps_markCircular | apply keeps_fileAdd
    | apply keeps_identifier | apply keeps_resolveIrRef
    | assumption
    | apply keeps_mapM; intros ?
    | apply keeps_bind; [|intros ?]
    | match goal with
      | |- keeps (match ?x with _ => _ end) => destruct x
      | |- keeps (if ?x then _ else _) => destruct x
      | H : forall a, keeps (?rec a) |- keeps (?rec _) => apply H
      end ].

Lemma keeps_body rec :
  (forall a, keeps (rec a)) -> forall a, keeps (schemaToZodSchema_body rec a).
Proof.
  intros Hrec a.
  unfold schemaToZodSchema_body, enter, leave, emit, dispatch, refToZodSchema,
    referTo, itemsToZodSchema, schemaTypeToZodSchema, arrayTypeToZodSchema,
    objectTypeToZodSchema, tupleTypeToZodSchema, trackerAdd, trackerDelete.
  repeat keeps_step.
Qed.

Lemma keeps_schemaToZodSchema fuel a : keeps (schemaToZodSchema fuel a).
Proof.
  revert a. induction fuel as [|fuel IH]; intros a.
  - intros s e s' H. discriminate H.
  - apply keeps_body, IH.
Qed.

Lemma keeps_operationToZodSchema fuel operation :
  keeps (operationToZodSchema fuel operation).
Proof.
  unfold operationToZodSchema.
  repeat first [apply keeps_schemaToZodSchema | keeps_step].
Qed.

(** X18.  Emission only adds to the file.  After a call of
    [schemaToZodSchema] that returns, every identifier the file had is
    still there under the same name, and the declarations the file had
    are still there, in their places, followed by those the call added.
    The same holds for the emission of an operation. *)
Theorem emission_append_only fuel :
  (forall a s e s',
     schemaToZodSchema fuel a s = Ok e s' ->
     (forall k n, names (file s) !! k = Some n ->
                  names (file s') !! k = Some n) /\
     exists added, nodes (file s') = nodes (file s) ++ added) /\
  (forall operation s s',
     operationToZodSchema fuel operation s = Ok tt s' ->
     (forall k n, names (file s) !! k = Some n ->
                  names (file s') !! k = Some n) /\
     exists added, nodes (file s') = nodes (file s) ++ added).
Proof.
  split.
  - intros a s e s' H. destruct (keeps_schemaToZodSchema fuel a s e s' H).
    split; [|assumption]. intros k n Hk. eapply lookup_weaken; eassumption.
  - intros operation s s' H.
    destruct (keeps_operationToZodSchema fuel operation s tt s' H).
    split; [|assumption]. intros k n Hk. eapply lookup_weaken; eassumption.
Qed.

(** X19.  [state.hasCircularReference] is only ever set: once a
    reference back into the stack was met, it stays set for the rest of
    the event, so that every declaration added afterwards is annotated,
    whether its own schema is part of a cycle or not.  [nameCase] and
    [nameTransformer] of the state are never changed. *)
Theorem circular_flag_sticky fuel a s e s' :
  schemaToZodSchema fuel a s = Ok e s' ->
  (hasCircularReference (state s) = true ->
   hasCircularReference (state s') = true) /\
  nameCase (state s') = nameCase (state s) /\
  nameTransformer (state s') = nameTransformer (state s).
Proof.
  intros H. destruct (keeps_schemaToZodSchema fuel a s e s' H). auto.
Qed.

(** *** Calls that need no nested call *)

(** The dispatch on a schema that needs no nested call. *)
Lemma leaf_dispatch schema :
  Js.truthy (ref schema) = None ->
  (type schema = Some t_array -> items schema = None) ->
  type schema <> Some t_object ->
  (type schema = Some t_tuple -> exists l, const_ schema = JArray l) ->
  (type schema = None -> items schema = None) ->
  exists e,
    (forall rec s, dispatch rec schema s = Ok (None, e, schema) s) /\
    (type schema = None -> e = z_call "unknown" []).
Proof.
  intros Hr Ha Ho Ht Hn.
  unfold dispatch. rewrite Hr. destruct (type schema) as [t|] eqn:Et.
  - destruct t;
      try (eexists; split; [intros; reflexivity|discriminate]).
    + unfold schemaTypeToZodSchema, arrayTypeToZodSchema.
      rewrite (Ha eq_refl).
      eexists; split; [intros; reflexivity|discriminate].
    + congruence.
    + destruct (Ht eq_refl) as [l Hl].
      unfold schemaTypeToZodSchema, tupleTypeToZodSchema. rewrite Hl.
      eexists; split; [intros; reflexivity|discriminate].
  - rewrite (Hn eq_refl). eexists; split; [intros; reflexivity|].
    intros _. reflexivity.
Qed.

(** X20.  A schema without [$ref] that is no object, no array with items,
    no tuple without a constant array, and, when it has no type, has no
    items: a nested call on it returns without calling
    [schemaToZodSchema] again, whatever the depth left, and leaves the
    state and the file as they are; the expression does not depend on
    them.  For a schema without type and items, [{}] among them, it is
    [z.unknown()] with [.readonly()], [.optional()] and [.default()] as
    they apply, and without [.describe()]. *)
Theorem leaf_is_pure schema o :
  Js.truthy (ref schema) = None ->
  (type schema = Some t_array -> items schema = None) ->
  type schema <> Some t_object ->
  (type schema = Some t_tuple -> exists l, const_ schema = JArray l) ->
  (type schema = None -> items schema = None) ->
  exists e,
    (forall rec s, schemaToZodSchema_body rec (nested o schema) s = Ok e s) /\
    (forall fuel s, schemaToZodSchema (S fuel) (nested o schema) s = Ok e s) /\
    (type schema = None -> e = postModifiers o schema (z_call "unknown" [])).
Proof.
  intros Hr Ha Ho Ht Hn.
  destruct (leaf_dispatch schema Hr Ha Ho Ht Hn) as (e & H & Hx).
  exists (postModifiers o schema e).
  assert (Hb : forall rec s,
            schemaToZodSchema_body rec (nested o schema) s
            = Ok (postModifiers o schema e) s).
  { intros rec s. unfold schemaToZodSchema_body, bind. simpl.
    rewrite H. reflexivity. }
  split; [exact Hb|]. split; [intros fuel s; apply Hb|].
  intros Et. rewrite (Hx Et). reflexivity.
Qed.

(** X29.  The [parameter], [requestBody] and [schema] events start from a
    state of their own.  For a component of such a schema whose pointer
    has no identifier yet: the event returns; the pointer gets the name
    the identifier service makes from the case and the name pattern of
    [definitions]; one declaration is added at the end of the file, an
    exported constant of that name whose expression is the one returned,
    without a type annotation, whatever events came before; and the
    pointer is off the stack again. *)
Theorem leaf_component_declared fuel r schema f :
  (forall table ns c t r, uniqueName table ns c t r <> "") ->
  r <> "" ->
  names f !! (r, ns_value) = None ->
  Js.truthy (ref schema) = None ->
  (type schema = Some t_array -> items schema = None) ->
  type schema <> Some t_object ->
  (type schema = Some t_tuple -> exists l, const_ schema = JArray l) ->
  (type schema = None -> items schema = None) ->
  let n := uniqueName (names f) ns_value (definitions_case (config plugin))
             (definitions_name (config plugin)) r in
  exists e s',
    onComponent (S fuel) r schema f = Ok e s' /\
    names (file s') = <[(r, ns_value) := n]> (names f) /\
    nodes (file s') =
    nodes f ++
    [{| cv_comment :=
          if comments (config plugin) then createSchemaComment schema else None;
        cv_exportConst := true;
        cv_expression := e;
        cv_name := n;
        cv_typeName := None |}] /\
    (r ∉ circularReferenceTracker (state s')) /\
    hasCircularReference (state s') = false.
Proof.
  intros Hname Hr Hnone Href Ha Ho Ht Hn. cbv zeta.
  destruct (leaf_dispatch schema Href Ha Ho Ht Hn) as (e & H & _).
  unfold onComponent. cbn [schemaToZodSchema].
  unfold schemaToZodSchema_body, bind.
  rewrite enter_eq. cbn [arg_schema]. rewrite H, leave_eq, emit_eq.
  unfold identifierOnEntry, entered, released, emitted, ret.
  cbn [arg_ref arg_identifier arg_optional].
  rewrite (Js.truthy_intro r Hr). cbn [file state names]. rewrite Hnone.
  cbn [name created].
  rewrite bool_decide_eq_false_2 by apply Hname. cbn [negb andb].
  eexists _, _. split; [reflexivity|]. cbn.
  split; [reflexivity|]. split; [reflexivity|]. split; [|reflexivity].
  intros Hin. apply elem_of_difference in Hin as [_ Hin].
  apply Hin, elem_of_singleton. reflexivity.
Qed.

(** *** Objects *)

Lemma mapM_Ok_Forall2 {A B} (f : A -> M B) l s ys s' :
  mapM f l s = Ok ys s' ->
  Forall2 (fun x y => exists s1 s2, f x s1 = Ok y s2) l ys.
Proof.
  revert s ys. induction l as [|x l IH]; simpl; intros s ys H.
  - apply ret_Ok in H as [<- _]. constructor.
  - run_inv H. constructor; [eauto|]. eapply IH. eassumption.
Qed.

Lemma objectType_inv rec schema s anyType e s' :
  objectTypeToZodSchema rec schema s = Ok (anyType, e) s' ->
  anyType = Some "AnyZodObject" /\
  exists members,
    e = z_call "object" [Some (TsObjectLiteral members)] /\
    Forall2
      (fun property member =>
         member.1 = propertyName property.1 /\
         exists s1 s2,
           rec (nested
                  (negb (bool_decide
                           (property.1 ∈ default [] (required schema))))
                  property.2) s1
           = Ok member.2 s2)
      (default [] (properties schema)) members.
Proof.
  unfold objectTypeToZodSchema. intros H. run_inv H.
  match goal with H : (_, _) = (_, _) |- _ => injection H as <- <- end.
  split; [reflexivity|]. eexists. split; [reflexivity|].
  match goal with H : mapM _ _ _ = Ok _ _ |- _ =>
    apply mapM_Ok_Forall2 in H; eapply Forall2_impl; [exact H|] end.
  intros [name property] [pn ex] (s1 & s2 & H).
  run_inv H. match goal with H : (_, _) = (_, _) |- _ =>
    injection H as <- <- end.
  simpl. split; [reflexivity|eauto].
Qed.

(** X21.  The expression of an object is [z.object({...})] with one
    member for each property, in the order of the properties, under the
    name [propertyName] gives; the expression of a member is what the
    nested call gives for the property's schema, called with [optional]
    exactly when the name is not listed in [required].  A name listed in
    [required] that is no property adds nothing. *)
Theorem object_members rec schema s anyType e s' :
  objectTypeToZodSchema rec schema s = Ok (anyType, e) s' ->
  anyType = Some "AnyZodObject" /\
  exists members,
    e = z_call "object" [Some (TsObjectLiteral members)] /\
    Forall2
      (fun property member =>
         member.1 = propertyName property.1 /\
         exists s1 s2,
           rec (nested
                  (negb (bool_decide
                           (property.1 ∈ default [] (required schema))))
                  property.2) s1
           = Ok member.2 s2)
      (default [] (properties schema)) members.
Proof. apply objectType_inv. Qed.

(** *** The request object *)

(** The operation with [parameters.cookie] set to [c]. *)
Definition with_cookie (c : option (list (string * ParameterObject)))
    (operation : OperationObject) : OperationObject :=
  {| op_id := op_id operation;
     op_parameters :=
       Some match op_parameters operation with
            | Some ps =>
                {| cookie := c; header := header ps; path := path ps;
                   query := query ps |}
            | None =>
                {| cookie := c; header := None; path := None; query := None |}
            end;
     op_body := op_body operation;
     op_responses := op_responses operation |}.

(** X22.  Cookie parameters do not reach the request object: whatever
    the cookies of an operation are, its request schema is the same, and
    so is everything the emission of its request does. *)
Theorem request_ignores_cookies c operation :
  requestSchema (with_cookie c operation) = requestSchema operation /\
  (responses_enabled (config plugin) = false ->
   forall fuel s,
     operationToZodSchema fuel (with_cookie c operation) s
     = operationToZodSchema fuel operation s).
Proof.
  assert (H : requestSchema (with_cookie c operation) = requestSchema operation).
  { unfold requestSchema, requiredProperties, with_cookie; simpl.
    destruct (op_parameters operation) as [ps|]; reflexivity. }
  split; [exact H|]. intros Hres fuel s. unfold operationToZodSchema.
  rewrite Hres, H. reflexivity.
Qed.

(** X23.  The properties of the request object that are required are
    among [body], [headers], [path] and [query], in this order and each
    at most once; [body] is one exactly when the operation has a body
    that is required, and [query] exactly when a parameter of the query
    group is. *)
Theorem requiredProperties_shape operation :
  requiredProperties operation `sublist_of` ["body"; "headers"; "path"; "query"] /\
  ("body" ∈ requiredProperties operation <->
   exists b, op_body operation = Some b /\ body_required b = true) /\
  ("query" ∈ requiredProperties operation <->
   exists ps, op_parameters operation = Some ps /\
     hasParameterGroupObjectRequired (query ps) = true).
Proof.
  unfold requiredProperties.
  destruct (op_body operation) as [b|]; [destruct (body_required b) eqn:Eb|];
    (destruct (op_parameters operation) as [ps|];
     [destruct (header ps), (path ps) as [pa|],
        (query ps) as [qu|] eqn:Eq;
      try destruct (hasParameterGroupObjectRequired (Some pa));
      try destruct (hasParameterGroupObjectRequired (Some qu)) eqn:Equ|]);
    simpl;
    (split;
     [repeat first [apply sublist_nil | apply sublist_skip | apply sublist_cons]
     |split; split; intros H;
      first [ not_among H
            | among
            | destruct H as (x & H1 & H2); congruence
            | destruct H as (x & [= <-] & H2); rewrite Eq in H2;
              first [congruence | discriminate H2]
            | eexists; split; [reflexivity|]; first [exact Eb | rewrite Eq; exact Equ]
            ]]).
Qed.

(** *** Arrays and compositions *)

(** X25.  An array with [items] is emitted from the deduplicated schema:
    [z.array(item)] when one item is left, and [z.array(z.union([...]))]
    of all of them otherwise, none included; each expression is what the
    nested call gives for the item, in order.  The length refinements
    follow from [minItems] and [maxItems] of the deduplicated schema. *)
Theorem array_items rec schema s e s' :
  items schema <> None ->
  arrayTypeToZodSchema rec schema s = Ok e s' ->
  exists its es,
    items (deduplicateSchema schema) = Some its /\
    Forall2 (fun item ex => exists s1 s2, rec (nested false item) s1 = Ok ex s2)
      its es /\
    e = lengthRefinements (minItems (deduplicateSchema schema))
          (maxItems (deduplicateSchema schema))
          (match es with
           | [one] => z_call "array" [Some one]
           | _ => z_call "array"
                    [Some (z_call "union" [Some (TsArrayLiteral es)])]
           end).
Proof.
  intros Hi H. unfold arrayTypeToZodSchema in H.
  destruct (items schema) as [its0|]; [clear Hi|destruct (Hi eq_refl)].
  destruct (items (deduplicateSchema schema)) as [its|] eqn:Ed.
  2: { run_inv H. discriminate. }
  run_inv H.
  match goal with H : bind (mapM _ _) _ _ = Ok _ _ |- _ => run_inv H end.
  match goal with H : mapM _ _ _ = Ok _ _ |- _ =>
    apply mapM_Ok_Forall2 in H; rename H into Hm end.
  eexists its, _. split; [reflexivity|]. split; [exact Hm|].
  match goal with H : match ?es with _ => _ end _ = Ok _ _ |- _ =>
    destruct es as [|e1 [|e2 es']]; apply ret_Ok in H as [[= <- <-] _] end;
    reflexivity.
Qed.

(** X26.  A schema without [$ref] and type that has [items] is emitted
    from the deduplicated schema, and the modifiers that follow are
    those of the deduplicated schema.  With items left: a union
    [z.union([...])] of all items unless the operator is ['and']; for
    ['and'], [z.intersection(...)] of all items when the first item is
    itself a union or has a type other than [object], and otherwise the
    chain [first.and(second).and(...)], which for one item is that
    item's expression.  With no items left, the deduplicated schema is
    emitted by a nested call. *)
Theorem composition_shape rec schema s anyType e x s' :
  Js.truthy (ref schema) = None ->
  type schema = None ->
  items schema <> None ->
  dispatch rec schema s = Ok (anyType, e, x) s' ->
  anyType = None /\ x = deduplicateSchema schema /\
  match items x with
  | None => rec (nested false x) s = Ok e s'
  | Some its =>
      exists es,
        Forall2
          (fun item ex => exists s1 s2, rec (nested false item) s1 = Ok ex s2)
          its es /\
        match logicalOperator x, its, es with
        | Some op_and, firstSchema :: _, first :: others =>
            e = if decide (logicalOperator firstSchema = Some op_or
                           \/ (type firstSchema <> None
                               /\ type firstSchema <> Some t_object))
                then z_call "intersection" (map Some es)
                else fold_left (fun acc item => method acc "and" [Some item])
                       others first
        | Some op_and, _, _ => False
        | _, _, _ => e = z_call "union" [Some (TsArrayLiteral es)]
        end
  end.
Proof.
  intros Hr Ht Hi H. unfold dispatch in H. rewrite Hr, Ht in H.
  destruct (items schema) as [its0|]; [clear Hi|destruct (Hi eq_refl)].
  run_inv H.
  match goal with H : (_, _, _) = (_, _, _) |- _ => injection H as <- <- <- end.
  split; [reflexivity|].
  match goal with H : itemsToZodSchema _ _ _ = Ok _ _ |- _ =>
    unfold itemsToZodSchema in H; rename H into Hrun end.
  destruct (items (deduplicateSchema schema)) as [its|] eqn:Ed.
  - run_inv Hrun.
    match goal with H : mapM _ _ _ = Ok _ _ |- _ =>
      apply mapM_Ok_Forall2 in H; rename H into Hm end.
    destruct (decide (logicalOperator (deduplicateSchema schema) = Some op_and))
      as [Hop|Hop].
    + destruct its as [|firstSchema its']; [discriminate Hrun|].
      match goal with H : Forall2 _ (_ :: _) ?es |- _ =>
        destruct es as [|first others]; [discriminate Hrun|] end.
      destruct (decide _) as [Hd|Hd] in Hrun;
        apply ret_Ok in Hrun as [[= <- <-] _];
        (split; [reflexivity|]); rewrite Ed; eexists; (split; [exact Hm|]);
        rewrite Hop; destruct (decide _) as [Hd'|Hd']; try reflexivity;
        first [destruct (Hd Hd') | destruct (Hd' Hd)].
    + apply ret_Ok in Hrun as [[= <- <-] _]. split; [reflexivity|].
      rewrite Ed. eexists. split; [exact Hm|].
      destruct (logicalOperator (deduplicateSchema schema)) as [[]|];
        [congruence|reflexivity..].
  - run_inv Hrun. match goal with H : (_, _) = (_, _) |- _ =>
      injection H as <- <- end.
    split; [reflexivity|]. rewrite Ed. assumption.
Qed.

(** *** The declaration of a request *)

(** X27.  With requests enabled and responses not, for an operation
    whose request has no identifier yet, an emission that returns
    registers the pointer [#/zod-data/<id>] under the name the identifier
    service makes for it from the case and the name pattern of
    [requests] (not those of [definitions]), and the last declaration of
    the file is the one of that name: an object of the four members
    [body], [headers], [path] and [query], in this order. *)
Theorem operation_request_declared fuel operation s s' :
  (forall table ns c t r, uniqueName table ns c t r <> "") ->
  requests_enabled (config plugin) = true ->
  responses_enabled (config plugin) = false ->
  names (file s) !! (("#/zod-data/" ++ op_id operation)%string, ns_value) = None ->
  operationToZodSchema fuel operation s = Ok tt s' ->
  let n := uniqueName (names (file s)) ns_value (requests_case (config plugin))
             (requests_name (config plugin))
             ("#/zod-data/" ++ op_id operation)%string in
  names (file s') !! (("#/zod-data/" ++ op_id operation)%string, ns_value)
  = Some n /\
  exists decl members,
    last (nodes (file s')) = Some decl /\
    cv_name decl = n /\
    cv_expression decl = z_call "object" [Some (TsObjectLiteral members)] /\
    map fst members = map propertyName ["body"; "headers"; "path"; "query"].
Proof.
  intros Hname Hreq Hres Hnone H. cbv zeta.
  unfold operationToZodSchema in H. rewrite Hreq, Hres in H.
  cbv beta iota in H. run_inv H. run_inv Hrun.
  match goal with H : identifier _ _ _ _ _ _ = Ok _ _ |- _ =>
    unfold identifier in H; rewrite Hnone in H; injection H as <- <- end.
  match goal with H : schemaToZodSchema _ _ _ = Ok _ _ |- _ =>
    rename H into Hrun end.
  split.
  { eapply lookup_weaken;
      [|apply (ext_names _ _ (keeps_schemaToZodSchema _ _ _ _ _ Hrun))].
    simpl. apply lookup_insert_eq. }
  destruct fuel as [|fuel]; [discriminate Hrun|].
  pose proof Hrun as Hdecl.
  eapply declaration_annotation in Hdecl;
    [|unfold identifierOnEntry; cbn [arg_ref arg_identifier];
      destruct (Js.truthy _); reflexivity
     |apply Hname|reflexivity].
  destruct Hdecl as (decl & Hlast & Hn & He & _).
  simpl in Hrun. unfold schemaToZodSchema_body in Hrun. run_inv Hrun.
  match goal with H : dispatch _ _ _ = Ok _ _ |- _ =>
    unfold dispatch in H; cbn [arg_schema] in H;
    change (Js.truthy (ref (requestSchema operation))) with (@None string) in H;
    change (type (requestSchema operation)) with (Some t_object) in H;
    cbv beta iota in H; run_inv H end.
  match goal with H : (_, _, _) = (_, _, _) |- _ => injection H as <- <- <- end.
  match goal with H : schemaTypeToZodSchema _ _ _ _ = Ok _ _ |- _ =>
    apply objectType_inv in H; destruct H as (_ & members & -> & Hm) end.
  exists decl, members. split; [exact Hlast|]. split; [exact Hn|].
  split; [rewrite He; reflexivity|].
  cbn [requestSchema objectSchema properties default from_option] in Hm.
  unfold id in Hm.
  repeat match goal with
         | H : Forall2 _ (_ :: _) _ |- _ =>
             apply Forall2_cons_inv_l in H;
             destruct H as (? & ? & [? _] & H & ->)
         | H : Forall2 _ [] _ |- _ => apply Forall2_nil_inv_l in H; subst
         end.
  cbn [map].
  repeat match goal with
         | H : _ = propertyName _ |- _ => cbn [fst] in H; rewrite H; clear H
         end.
  reflexivity.
Qed.

(** *** Emitting what is already there *)

Section Quiet.

(** A file whose names are not empty. *)
Variable f : GeneratedFile.
Hypothesis Hnonempty : forall k n, names f !! k = Some n -> n <> "".

(** Every reference [x] comes to has an identifier in [f]. *)
Definition coveredIn (x : SchemaObject) : Prop :=
  forall r, visits x r -> is_Some (names f !! (r, ns_value)).

(** On a store with the file [f], a run of [m] that returns leaves the
    file as it is, and [Q] holds of what it returns. *)
Definition still {A} (m : M A) (Q : A -> Prop) : Prop :=
  forall s a s', file s = f -> m s = Ok a s' -> file s' = f /\ Q a.

Lemma still_ret {A} (a : A) (Q : A -> Prop) : Q a -> still (ret a) Q.
Proof. intros H s b s' Hf [= <- <-]. auto. Qed.

Lemma still_throw {A} e (Q : A -> Prop) : still (throw e) Q.
Proof. intros s b s' _ H. discriminate H. Qed.

Lemma still_bind {A B} (m : M A) (k : A -> M B) Q R :
  still m Q -> (forall a, Q a -> still (k a) R) -> still (bind m k) R.
Proof.
  intros Hm Hk s b s' Hf H. apply bind_Ok in H as (a & s1 & H1 & H2).
  destruct (Hm _ _ _ Hf H1) as [Hf1 Ha]. exact (Hk a Ha _ _ _ Hf1 H2).
Qed.

Lemma still_mono {A} (m : M A) (Q R : A -> Prop) :
  still m Q -> (forall a, Q a -> R a) -> still m R.
Proof. intros Hm HQ s a s' Hf H. destruct (Hm _ _ _ Hf H). auto. Qed.

Lemma still_mapM {A B} (g : A -> M B) l :
  (forall x, x ∈ l -> still (g x) (fun _ => True)) ->
  still (mapM g l) (fun _ => True).
Proof.
  induction l as [|x l IH]; intros Hg; simpl; [apply still_ret; exact I|].
  eapply still_bind; [apply Hg, elem_of_cons; auto|]. intros y _.
  eapply still_bind; [apply IH; intros z Hz; apply Hg, elem_of_cons; auto|].
  intros ys _. apply still_ret. exact I.
Qed.

Lemma still_state {A} (m : M A) (Q : A -> Prop) :
  (forall s, exists a s', m s = Ok a s' /\ file s' = file s /\ Q a) ->
  still m Q.
Proof.
  intros H s a s' Hf Hm. destruct (H s) as (a0 & s0 & H0 & Hf0 & Ha).
  rewrite H0 in Hm. injection Hm as <- <-. split; [congruence|exact Ha].
Qed.

(** The nested calls assumed to leave the file alone, on a schema whose
    references have identifiers. *)
Definition quietRec (rec : Args -> M Expression) : Prop :=
  forall o x, coveredIn x -> still (rec (nested o x)) (fun _ => True).

Lemma still_dispatch rec x :
  quietRec rec -> coveredIn x -> still (dispatch rec x) (fun _ => True).
Proof using Hnonempty.
  intros Hrec Hc.
  destruct (Js.truthy (ref x)) as [r|] eqn:Er.
  { destruct (Hc r (visits_ref _ _ Er)) as [n Hn].
    pose proof (Hnonempty _ _ Hn) as Hne.
    intros s a s' Hf Hd. rewrite <- Hf in Hn.
    rewrite (dispatch_named rec x r n s Er Hn Hne) in Hd.
    unfold referTo, bind, markCircular, ret in Hd.
    destruct (bool_decide (r ∈ tracker s)); injection Hd as _ <-; auto. }
  unfold dispatch. rewrite Er.
  destruct (type x) as [t|] eqn:Et.
  { eapply still_bind with (Q := fun _ => True);
      [|intros [anyType e] _; apply still_ret; exact I].
    destruct t; simpl; try (apply still_ret; exact I).
    - (* array *)
      eapply still_bind with (Q := fun _ => True);
        [|intros e _; apply still_ret; exact I].
      unfold arrayTypeToZodSchema.
      eapply still_bind with (Q := fun _ => True);
        [|intros [e y] _; apply still_ret; exact I].
      destruct (items x) as [its0|] eqn:Ei; [|apply still_ret; exact I].
      destruct (items (deduplicateSchema x)) as [its|] eqn:Ed;
        [|apply still_throw].
      eapply still_bind; [apply still_mapM|].
      + intros i Hi. apply Hrec. intros r Hr.
        apply Hc. eapply visits_array; eauto. congruence.
      + intros es _. destruct es as [|e [|e2 es]]; apply still_ret; exact I.
    - (* object *)
      unfold objectTypeToZodSchema.
      eapply still_bind; [apply still_mapM|intros ms _; apply still_ret; exact I].
      intros [k i] Hi.
      eapply still_bind; [|intros e _; apply still_ret; exact I].
      apply Hrec. intros r Hr. apply Hc. eapply visits_object; eauto.
    - (* tuple *)
      eapply still_bind with (Q := fun _ => True);
        [|intros e _; apply still_ret; exact I].
      unfold tupleTypeToZodSchema.
      destruct (const_ x) eqn:Ec; try (apply still_ret; exact I);
        (eapply still_bind;
         [apply still_mapM|intros es _; apply still_ret; exact I];
         intros i Hi; apply Hrec; intros r Hr; apply Hc;
         eapply visits_tuple; eauto; intros l; congruence). }
  destruct (items x) as [its0|] eqn:Ei.
  2: { eapply still_bind with (Q := fun _ => True);
         [|intros [anyType e] _; apply still_ret; exact I].
       simpl. apply still_ret. exact I. }
  eapply still_bind with (Q := fun _ => True);
    [|intros [e y] _; apply still_ret; exact I].
  unfold itemsToZodSchema.
  destruct (items (deduplicateSchema x)) as [its|] eqn:Ed.
  - eapply still_bind; [apply still_mapM|].
    + intros i Hi. apply Hrec. intros r Hr.
      apply Hc. eapply visits_items; eauto. congruence.
    + intros es _.
      destruct (decide (logicalOperator (deduplicateSchema x) = Some op_and));
        [|apply still_ret; exact I].
      destruct its as [|firstSchema its']; [apply still_throw|].
      destruct es as [|first others]; [apply still_throw|].
      destruct (decide _); apply still_ret; exact I.
  - eapply still_bind; [|intros e _; apply still_ret; exact I].
    apply Hrec. intros r Hr. apply Hc. eapply visits_lifted; eauto. congruence.
Qed.

(** A call that is given no identifier, on a schema whose references
    have identifiers, for a [$ref] that has one. *)
Lemma still_body rec a :
  quietRec rec ->
  coveredIn (arg_schema a) ->
  arg_identifier a = None ->
  (forall r, Js.truthy (arg_ref a) = Some r -> is_Some (names f !! (r, ns_value))) ->
  still (schemaToZodSchema_body rec a) (fun _ => True).
Proof using Hnonempty.
  intros Hrec Hc Hid Hr. unfold schemaToZodSchema_body.
  eapply still_bind with
    (Q := fun i => match i with Some i => created i = false | None => True end).
  { intros s i s' Hf H. rewrite enter_eq in H. injection H as <- <-.
    unfold identifierOnEntry, entered. rewrite Hid.
    destruct (Js.truthy (arg_ref a)) as [r|] eqn:Er; [|auto].
    destruct (Hr r eq_refl) as [n Hn]. rewrite Hf, Hn. simpl. auto. }
  intros i Hi.
  eapply still_bind; [apply still_dispatch; assumption|].
  intros [[anyType e] x] _.
  eapply still_bind with (Q := fun _ => True).
  { intros s u s' Hf H. rewrite leave_eq in H. injection H as _ <-.
    unfold released. destruct (Js.truthy (arg_ref a)); auto. }
  intros _ _.
  eapply still_bind with (Q := fun _ => True);
    [|intros _ _; apply still_ret; exact I].
  intros s u s' Hf H. rewrite emit_eq in H. injection H as _ <-.
  unfold emitted. destruct i as [i|]; [|auto].
  rewrite Hi, andb_false_r. auto.
Qed.

Lemma still_schemaToZodSchema fuel : quietRec (schemaToZodSchema fuel).
Proof using Hnonempty.
  induction fuel as [|fuel IH]; intros o x Hc.
  - intros s e s' _ H. discriminate H.
  - apply still_body; [exact IH|exact Hc|reflexivity|].
    intros r Hr. discriminate Hr.
Qed.

End Quiet.

(** X24.  Emission is idempotent.  After the component at [r] was
    emitted, emitting it again, or any component reachable from it, at
    whatever depth and from whatever state, adds no identifier and no
    declaration: the file stays as the first emission left it.  Assumed,
    as for the first emission to keep its books: the identifier service
    gives new names that are not empty, and the file had one declaration
    for each identifier before. *)
Theorem emission_idempotent r x s fuel e s' r' x' st fuel' e' s'' :
  (forall table ns c t r, uniqueName table ns c t r <> "") ->
  (forall table ns c t r r',
     table !! (r', ns) <> Some (uniqueName table ns c t r)) ->
  components plugin !! r = Some x -> r <> "" ->
  Inv s -> Decls ∅ s -> r ∉ tracker s ->
  schemaToZodSchema fuel
    {| arg_ref := Some r; arg_identifier := None; arg_optional := false;
       arg_schema := x |} s = Ok e s' ->
  reachable r r' -> components plugin !! r' = Some x' ->
  schemaToZodSchema fuel'
    {| arg_ref := Some r'; arg_identifier := None; arg_optional := false;
       arg_schema := x' |} {| state := st; file := file s' |} = Ok e' s'' ->
  file s'' = file s'.
Proof.
  intros Hname Hfresh Hx Hr Hinv Hdecls Hstack Hrun Hreach Hx' Hrun'.
  pose proof (Js.truthy_intro r Hr) as Htr.
  pose proof (schemaToZodSchema_spec true true false Hname
                (fun _ => Hfresh) ltac:(discriminate) ltac:(discriminate)
                fuel ∅
                {| arg_ref := Some r; arg_identifier := None;
                   arg_optional := false; arg_schema := x |} s) as H.
  unfold triple in H. rewrite Hrun in H.
  destruct H as (([Hinv' Hd'] & _ & _) & Hnamed & _).
  { split; [split; [exact Hinv|intros _; exact Hdecls]|]. split; [|split].
    - intros r0 Hr0. cbn [arg_ref arg_identifier] in *.
      rewrite Htr in Hr0. injection Hr0 as <-.
      split; [exact Hstack|]. intros Hn. destruct (Hn eq_refl).
    - discriminate.
    - intros _. split; [reflexivity|]. intros r0 y Hr0 Hy.
      cbn [arg_ref arg_schema] in *. rewrite Htr in Hr0.
      injection Hr0 as <-. congruence. }
  { left. reflexivity. }
  specialize (Hd' eq_refl).
  pose proof (reachable_named s' r r' Hd' (Hnamed r Htr) Hreach) as Hn'.
  assert (Hcov : coveredIn (file s') x').
  { intros r0 Hr0. eapply (d_closed _ _ Hd' r' x'); eauto.
    apply not_elem_of_empty. }
  destruct fuel' as [|fuel']; [discriminate Hrun'|].
  refine (proj1 (still_body (file s') (inv_nonempty s' Hinv')
                   (schemaToZodSchema fuel')
                   {| arg_ref := Some r'; arg_identifier := None;
                      arg_optional := false; arg_schema := x' |}
                   (still_schemaToZodSchema (file s') (inv_nonempty s' Hinv') fuel')
                   Hcov eq_refl _ {| state := st; file := file s' |} e' s''
                   eq_refl Hrun')).
  intros r0 Hr0. cbn [arg_ref] in Hr0.
  apply Js.truthy_Some in Hr0 as [[= <-] _]. exact Hn'.
Qed.

End Emitter.

(** *** An instance of the parts that are not among the sources *)

(** Numbers, strings, booleans and [null] become literals; arrays become
    array literals of their elements that have an expression. *)
Fixpoint demo_valueToExpression (v : JsValue) : option Expression :=
  match v with
  | JUndefined => None
  | JNull => Some (TsIdentifier "null")
  | JBool b => Some (OtsBoolean b)
  | JNumber n => Some (OtsNumber n)
  | JBigInt n => Some (OtsNumber n)
  | JString s => Some (OtsString s)
  | JArray l => Some (TsArrayLiteral (omap demo_valueToExpression l))
  | JObject _ => None
  end.

(** The names taken in a namespace. *)
Definition taken (table : gmap (string * Namespace) string) (ns : Namespace)
  : gset string :=
  map_img (filter (fun kv => snd (fst kv) = ns) table).

(** [z] and the last segment of the pointer; on a collision, some name
    that is free. *)
Definition demo_uniqueName (table : gmap (string * Namespace) string)
    (ns : Namespace) (case : StringCase) (transformer : NameTransformer)
    (r : string) : string :=
  let base := ("z" ++ default "" (last (Js.split_on "/" r)))%string in
  if decide (base ∈ taken table ns)
  then fresh ({[""]} ∪ taken table ns)
  else base.

Definition demo_config : Config :=
  {| comments := false; metadata := true;
     definitions_case := camelCase; definitions_name := name_pattern "z{{name}}";
     requests_enabled := true; requests_case := camelCase;
     requests_name := name_pattern "z{{name}}Data";
     responses_enabled := true; responses_case := camelCase;
     responses_name := name_pattern "z{{name}}Response" |}.

Definition demo_plugin (cs : list (string * SchemaObject)) : Plugin :=
  {| config := demo_config; components := list_to_map cs |}.

Definition emptyFile : GeneratedFile := {| names := ∅; nodes := [] |}.

(** [onComponent] and [onOperation] at that instance; [deduplicateSchema]
    keeps the schema, [numberRegExp] accepts digit strings. *)
Definition demo_onComponent (cs : list (string * SchemaObject)) (fuel : nat)
    (r : string) (schema : SchemaObject) (f : GeneratedFile)
  : Result Expression :=
  onComponent (fun s => s) demo_valueToExpression
    (fun n => forallb Js.is_digit (Js.chars n) && negb (bool_decide (n = "")))%bool
    (fun _ => None) demo_uniqueName (demo_plugin cs) fuel r schema f.


Definition demo_onOperation (fuel : nat) (operation : OperationObject)
    (f : GeneratedFile) : Result unit :=
  onOperation (fun s => s) demo_valueToExpression
    (fun n => forallb Js.is_digit (Js.chars n) && negb (bool_decide (n = "")))%bool
    (fun _ => None) (fun _ => None) demo_uniqueName (demo_plugin []) fuel
    operation f.

Definition demo_numberRegExp (n : string) : bool :=
  (forallb Js.is_digit (Js.chars n) && negb (bool_decide (n = "")))%bool.

Definition demo_schemaToZodSchema (cs : list (string * SchemaObject))
  : nat -> Args -> M Expression :=
  schemaToZodSchema (fun s => s) demo_valueToExpression demo_numberRegExp
    (fun _ => None) demo_uniqueName (demo_plugin cs).

Definition demo_state : State :=
  newState (demo_plugin []).

Definition demo_store : Store :=
  {| state := demo_state; file := emptyFile |}.

(** What a run returned, and the store it left. *)
Definition returned {A} (r : Result A) : option A :=
  match r with
  | Ok a _ => Some a
  | _ => None
  end.

Definition final {A} (r : Result A) : option Store :=
  match r with
  | Ok _ s => Some s
  | _ => None
  end.

(** *** Numbers *)

(** [{ type: 'integer', minimum: 0, exclusiveMaximum: 10 }] *)
Definition small_integer : SchemaObject :=
  with_bounds (Some 0%Z) None None (Some 10%Z) (schemaOfType t_integer).

Lemma integer_int_refinement_witness :
  (format small_integer <> Some "int64" ->
   bounded (method (z_call "number" []) "int" [])
     (numberTypeToZodSchema demo_valueToExpression small_integer)) /\
  (format small_integer = Some "int64" ->
   bounded
     (TsCall (TsPropertyAccess (TsPropertyAccess zIdentifier "coerce") "bigint") [])
     (numberTypeToZodSchema demo_valueToExpression small_integer) /\
   "int" ∉ spine (numberTypeToZodSchema demo_valueToExpression small_integer)).
Proof.
  apply (integer_int_refinement demo_valueToExpression small_integer).
  - reflexivity.
  - intros c H. discriminate H.
Defined.

Example small_integer_emitted :
  numberTypeToZodSchema demo_valueToExpression small_integer =
  method (method (method (z_call "number" []) "int" [])
            "gte" [Some (OtsNumber 0)])
    "lt" [Some (OtsNumber 10)].
Proof. reflexivity. Qed.

Example int64_emitted :
  numberTypeToZodSchema demo_valueToExpression
    (with_format "int64" small_integer) =
  method (method
            (TsCall (TsPropertyAccess (TsPropertyAccess zIdentifier "coerce") "bigint") [])
            "gte" [Some (TsCall (TsIdentifier "BigInt") [Some (OtsNumber 0)])])
    "lt" [Some (TsCall (TsIdentifier "BigInt") [Some (OtsNumber 10)])].
Proof. reflexivity. Qed.

(** *** Modifiers *)

(** [{ type: 'string', description: 'd', default: 'x' }] *)
Definition described_string : SchemaObject :=
  with_default (JString "x") (with_description "d" (schemaOfType t_string)).

(** C4 fails as stated: for an optional property with a description and
    a default, [.describe()] comes before [.optional()] and [.default()],
    not last. *)
Lemma describe_is_not_last :
  returned (demo_schemaToZodSchema [] 1 (nested true described_string) demo_store) =
  Some (method (method (method (z_call "string" [])
                          "describe" [Some (TsStringLiteral "d")])
                  "optional" [])
          "default" [Some (OtsString "x")]) /\
  spine <$> returned (demo_schemaToZodSchema [] 1 (nested true described_string) demo_store) =
  Some ["string"; "describe"; "optional"; "default"] /\
  spine <$> returned (demo_schemaToZodSchema [] 1 (nested true described_string) demo_store) <>
  Some ["string"; "optional"; "default"; "describe"].
Proof. vm_compute. repeat split; try reflexivity. discriminate. Qed.

(** [{ items: [{ type: 'string' }, { type: 'null' }], logicalOperator:
    'or', description: 'd', default: 'x' }] *)
Definition described_union : SchemaObject :=
  with_default (JString "x")
    (with_description "d"
       (with_items [schemaOfType t_string; schemaOfType t_null] (Some op_or)
          emptySchema)).

(** The typed schema gets [.describe()] first; the composition gets none,
    and the calls of the last block in the same order. *)
Lemma typed_modifier_order_witness :
  (exists anyType base s0 s1,
     schemaTypeToZodSchema (fun s => s) demo_valueToExpression demo_numberRegExp
       (demo_schemaToZodSchema [] 0) t_string described_string s0
       = Ok (anyType, base) s1 /\
     method (method (method (z_call "string" [])
                       "describe" [Some (TsStringLiteral "d")])
               "optional" [])
       "default" [Some (OtsString "x")] =
     applyModifiers base
       (modifiers demo_valueToExpression (demo_plugin []) true described_string)) /\
  (exists base s0 s1,
     itemsToZodSchema (fun s => s) (demo_schemaToZodSchema [] 1) described_union s0
       = Ok (base, described_union) s1 /\
     base = z_call "union" [Some (TsArrayLiteral [z_call "string" []; z_call "null" []])] /\
     method (method
               (z_call "union"
                  [Some (TsArrayLiteral [z_call "string" []; z_call "null" []])])
               "optional" [])
       "default" [Some (OtsString "x")] =
     applyModifiers base
       (blockModifiers demo_valueToExpression true described_union)).
Proof.
  split.
  - destruct (typed_modifier_order (fun s => s) demo_valueToExpression
                demo_numberRegExp (fun _ => None) demo_uniqueName (demo_plugin [])
                0 (nested true described_string) demo_store _ demo_store eq_refl)
      as (i & anyType & base & x & s0 & s1 & _ & _ & _ & Htyped & _).
    destruct (Htyped t_string eq_refl eq_refl) as (_ & base0 & Hs & _ & He).
    exists anyType, base0, s0, s1. split; [exact Hs|exact He].
  - destruct (typed_modifier_order (fun s => s) demo_valueToExpression
                demo_numberRegExp (fun _ => None) demo_uniqueName (demo_plugin [])
                1 (nested true described_union) demo_store _ demo_store eq_refl)
      as (i & anyType & base & x & s0 & s1 & Henter & _ & He & _ & _ & Hitems & _).
    destruct (Hitems eq_refl eq_refl) as (Hx & Hi & _); [discriminate|].
    injection Henter as _ <-. subst x.
    exists base, demo_store, s1. split; [exact Hi|]. split; [|exact He].
    vm_compute in Hi. injection Hi as <- _. reflexivity.
Defined.

(** *** Request objects *)

Definition version_header (req : bool) : ParameterObject :=
  {| param_name := "version"; param_in := in_header; param_required := req;
     param_schema := schemaOfType t_string |}.

Definition id_path : ParameterObject :=
  {| param_name := "id"; param_in := in_path; param_required := true;
     param_schema := schemaOfType t_string |}.

(** An operation whose only parameter is a required header. *)
Definition header_only : OperationObject :=
  {| op_id := "getPets";
     op_parameters :=
       Some {| cookie := None;
               header := Some [("version", version_header true)];
               path := None; query := None |};
     op_body := None; op_responses := None |}.

(** An operation with an optional header and a required path
    parameter. *)
Definition optional_header : OperationObject :=
  {| op_id := "getPet";
     op_parameters :=
       Some {| cookie := None;
               header := Some [("version", version_header false)];
               path := Some [("id", id_path)]; query := None |};
     op_body := None; op_responses := None |}.

(** The member of an object literal with a given plain name. *)
Fixpoint member (n : string) (ms : list (PropertyName * Expression))
  : option Expression :=
  match ms with
  | [] => None
  | (pn_text k, e) :: r => if decide (k = n) then Some e else member n r
  | _ :: r => member n r
  end.

(** The [headers] member of the emitted request object. *)
Definition emitted_headers (operation : OperationObject) : option Expression :=
  match final (demo_onOperation 3 operation emptyFile) with
  | Some s =>
      match nodes (file s) with
      | [decl] =>
          match cv_expression decl with
          | TsCall _ [Some (TsObjectLiteral members)] => member "headers" members
          | _ => None
          end
      | _ => None
      end
  | None => None
  end.

(** C3 at its failing inputs.  With a required header and no path
    parameters, [headers] is not in the required set and the emitted
    [headers] member is optional; with an optional header and a required
    path parameter, [headers] is in the required set.  The block for the
    header group tests [operation.parameters.path]. *)
Theorem headers_required_follows_path_group :
  hasParameterGroupObjectRequired
    (Some [("version", version_header true)]) = true /\
  requiredProperties header_only = [] /\
  required (requestSchema header_only) = Some [] /\
  emitted_headers header_only =
    Some (method
            (z_call "object"
               [Some (TsObjectLiteral [(pn_text "version", z_call "string" [])])])
            "optional" []) /\
  hasParameterGroupObjectRequired
    (Some [("version", version_header false)]) = false /\
  requiredProperties optional_header = ["headers"; "path"] /\
  emitted_headers optional_header =
    Some (z_call "object"
            [Some (TsObjectLiteral
                     [(pn_text "version",
                       method (z_call "string" []) "optional" [])])]).
Proof. vm_compute. repeat split; reflexivity. Qed.

(** Scenario S6: no parameters and no body. *)
Example empty_request :
  requestSchema
    {| op_id := "ping"; op_parameters := None; op_body := None;
       op_responses := None |} =
  objectSchema
    [ ("body", schemaOfType t_never); ("headers", schemaOfType t_never);
      ("path", schemaOfType t_never); ("query", schemaOfType t_never) ] [].
Proof. reflexivity. Qed.

(** *** A cycle of two schemas (scenario S2) *)

Definition refA : string := "#/components/schemas/A".
Definition refB : string := "#/components/schemas/B".

(** [A = { type: object, properties: { b: { $ref: B } } }] and
    [B = { type: object, properties: { a: { $ref: A } } }] *)
Definition schemaA : SchemaObject := objectSchema [("b", schemaOfRef refB)] [].
Definition schemaB : SchemaObject := objectSchema [("a", schemaOfRef refA)] [].

Definition cycle : list (string * SchemaObject) :=
  [(refA, schemaA); (refB, schemaB)].

Definition componentArgs (r : string) (schema : SchemaObject) : Args :=
  {| arg_ref := Some r; arg_identifier := None; arg_optional := false;
     arg_schema := schema |}.

(** The [schema] event for [A] on an empty file. *)
Definition cycle_run : Result Expression :=
  demo_schemaToZodSchema cycle 4 (componentArgs refA schemaA) demo_store.

Definition cycle_store : Store := default demo_store (final cycle_run).

Definition cycle_expression : Expression :=
  default zIdentifier (returned cycle_run).

(** C7.  When a call of [schemaToZodSchema] works with a new, named
    identifier, the declaration it adds carries a type annotation
    exactly when [state.hasCircularReference] is set at that time:
    [z.AnyZodObject] for an object schema, [z.ZodTypeAny] otherwise.  For
    the cycle of [A] and [B], emitting [A] adds the declarations of [zB]
    and [zA], both annotated with [z.AnyZodObject]; the one use of
    [z.lazy] is in [zB]. *)
Theorem circular_declarations_annotated :
  (forall deduplicateSchema valueToExpression numberRegExp_test
          createSchemaComment uniqueName plugin fuel a s e s' i,
     schemaToZodSchema deduplicateSchema valueToExpression numberRegExp_test
       createSchemaComment uniqueName plugin (S fuel) a s = Ok e s' ->
     identifierOnEntry uniqueName a s = Some i ->
     name i <> "" ->
     created i = true ->
     exists decl,
       last (nodes (file s')) = Some decl /\
       cv_name decl = name i /\
       cv_expression decl = e /\
       cv_typeName decl =
         if hasCircularReference (state s')
         then Some (TsPropertyAccess zIdentifier
                      (if objectRoot (arg_schema a)
                       then "AnyZodObject" else "ZodTypeAny"))
         else None) /\
  (final cycle_run = Some cycle_store /\
   nodes (file cycle_store) =
   [ {| cv_comment := None; cv_exportConst := true;
        cv_expression :=
          z_call "object"
            [Some (TsObjectLiteral
                     [(pn_text "a",
                       method (z_call "lazy" [Some (TsArrowFunction (TsIdentifier "zA"))])
                         "optional" [])])];
        cv_name := "zB";
        cv_typeName := Some (TsPropertyAccess zIdentifier "AnyZodObject") |};
     {| cv_comment := None; cv_exportConst := true;
        cv_expression :=
          z_call "object"
            [Some (TsObjectLiteral
                     [(pn_text "b", method (TsIdentifier "zB") "optional" [])])];
        cv_name := "zA";
        cv_typeName := Some (TsPropertyAccess zIdentifier "AnyZodObject") |} ]).
Proof.
  split.
  - intros. eapply declaration_annotation; eassumption.
  - vm_compute. split; reflexivity.
Qed.

Lemma circular_declarations_annotated_witness :
  exists decl,
    last (nodes (file cycle_store)) = Some decl /\
    cv_name decl = "zA" /\
    cv_expression decl = cycle_expression /\
    cv_typeName decl =
      if hasCircularReference (state cycle_store)
      then Some (TsPropertyAccess zIdentifier
                   (if objectRoot schemaA then "AnyZodObject" else "ZodTypeAny"))
      else None.
Proof.
  apply (proj1 circular_declarations_annotated (fun s => s)
           demo_valueToExpression demo_numberRegExp (fun _ => None)
           demo_uniqueName (demo_plugin cycle) 3 (componentArgs refA schemaA)
           demo_store cycle_expression cycle_store
           {| name := "zA"; created := true |}).
  - vm_compute. reflexivity.
  - vm_compute. reflexivity.
  - simpl. discriminate.
  - reflexivity.
Defined.

(** *** The cycle, in general *)

Lemma taken_lookup (table : gmap (string * Namespace) string) r ns n :
  table !! (r, ns) = Some n -> n ∈ taken table ns.
Proof.
  intros H. unfold taken. apply elem_of_map_img. exists (r, ns).
  apply map_lookup_filter_Some. split; [exact H|reflexivity].
Qed.

Lemma demo_uniqueName_nonempty table ns c t r :
  demo_uniqueName table ns c t r <> "".
Proof.
  unfold demo_uniqueName. case_decide as Hin; [|discriminate].
  intros E. apply (is_fresh ({[""]} ∪ taken table ns)). rewrite E.
  apply elem_of_union. left. apply elem_of_singleton. reflexivity.
Qed.

Lemma demo_uniqueName_fresh table ns c t r r' :
  table !! (r', ns) <> Some (demo_uniqueName table ns c t r).
Proof.
  intros H. apply taken_lookup in H. revert H. unfold demo_uniqueName.
  case_decide as Hin; [|exact Hin].
  intros H. apply (is_fresh ({[""]} ∪ taken table ns)).
  apply elem_of_union. right. exact H.
Qed.

Lemma demo_store_Inv : Inv demo_store.
Proof.
  split.
  - intros k n H. simpl in H. rewrite lookup_empty in H. discriminate H.
  - intros r H. apply elem_of_empty in H. destruct H.
Qed.

Lemma demo_store_Decls cs : Decls (fun s => s) (demo_plugin cs) ∅ demo_store.
Proof.
  split.
  - intros r1 r2 n H. simpl in H. rewrite lookup_empty in H. discriminate H.
  - intros r n H. simpl in H. rewrite lookup_empty in H. discriminate H.
  - intros n H. apply elem_of_nil in H. destruct H.
  - intros r H. apply elem_of_empty in H. destruct H.
  - intros r x [n H]. simpl in H. rewrite lookup_empty in H. discriminate H.
Qed.

Lemma component_call_ok r x : call_ok (componentArgs r x) demo_store.
Proof.
  intros r0 _. split.
  - intros H. apply elem_of_empty in H. destruct H.
  - intros H. destruct (H eq_refl).
Qed.



Lemma cycle_reachable : reachable (fun s => s) (demo_plugin cycle) refA refB.
Proof.
  apply rtc_once. exists schemaA. split; [reflexivity|].
  apply (visits_object _ _ "b" (schemaOfRef refB)); [reflexivity..| |].
  - apply list_elem_of_singleton. reflexivity.
  - apply visits_ref. reflexivity.
Qed.

(** Emitting [A]: the stack is empty again, and [A] was on it during the
    dispatch. *)
Lemma tracker_restored_witness :
  tracker cycle_store = tracker demo_store /\
  Inv cycle_store /\
  refA ∉ tracker cycle_store.
Proof.
  destruct (tracker_restored (fun s => s) demo_valueToExpression
              demo_numberRegExp (fun _ => None) demo_uniqueName
              (demo_plugin cycle) 4 (componentArgs refA schemaA) demo_store
              cycle_expression cycle_store) as (Ht & Hinv & Hr).
  - exact demo_uniqueName_nonempty.
  - exact demo_store_Inv.
  - apply component_call_ok.
  - vm_compute. reflexivity.
  - split; [exact Ht|]. split; [exact Hinv|].
    apply (Hr refA). reflexivity.
Defined.







(** *** Runs of the emitters of one type *)

(** [enum: [null, 1]] and [enum: ['red', null]] *)
Definition null_or_one : SchemaObject :=
  with_items [schemaOfType t_null; with_const (JNumber 1) (schemaOfType t_number)]
    (Some op_or) (schemaOfType t_enum).

Definition red_or_null : SchemaObject :=
  with_items [with_const (JString "red") (schemaOfType t_string);
              schemaOfType t_null]
    (Some op_or) (schemaOfType t_enum).

Lemma enum_without_strings_witness :
  enumTypeToZodSchema null_or_one = z_call "unknown" [].
Proof.
  apply (enum_without_strings null_or_one).
  intros item c H Ht.
  repeat (apply elem_of_cons in H as [->|H]; [discriminate Ht|]).
  apply elem_of_nil in H. destruct H.
Defined.

Lemma enum_with_strings_witness :
  exists members,
    members <> [] /\
    Forall (fun e => exists item c,
              item ∈ default [] (items red_or_null) /\
              type item = Some t_string /\ const_ item = JString c /\
              e = TsStringLiteral c) members /\
    length members <= length (default [] (items red_or_null)) /\
    ((enumTypeToZodSchema red_or_null
      = z_call "enum" [Some (TsArrayLiteral members)] /\
      ~ exists item, item ∈ default [] (items red_or_null) /\ nullItem item) \/
     (enumTypeToZodSchema red_or_null
      = method (z_call "enum" [Some (TsArrayLiteral members)]) "nullable" [] /\
      exists item, item ∈ default [] (items red_or_null) /\ nullItem item)).
Proof.
  apply (enum_with_strings red_or_null).
  exists (with_const (JString "red") (schemaOfType t_string)), "red".
  split; [apply elem_of_cons; left; reflexivity|]. split; reflexivity.
Defined.

Example red_or_null_emitted :
  enumTypeToZodSchema red_or_null =
  method (z_call "enum" [Some (TsArrayLiteral [TsStringLiteral "red"])])
    "nullable" [].
Proof. reflexivity. Qed.

(** [{ type: 'string', format: 'email', minLength: 3, maxLength: 64 }] *)
Definition email : SchemaObject :=
  with_lengths (Some 3%Z) (Some 64%Z) (with_format "email" (schemaOfType t_string)).

Lemma string_refinements_order_witness :
  spine (stringTypeToZodSchema demo_valueToExpression email) =
  ["string"; "email"; "min"; "max"].
Proof.
  apply (proj2 (string_refinements_order demo_valueToExpression email)).
  intros c. discriminate.
Defined.

(** [{ type: 'number', minimum: 0, exclusiveMinimum: 1 }] *)
Definition above_one : SchemaObject :=
  with_bounds (Some 0%Z) None (Some 1%Z) None (schemaOfType t_number).

Lemma number_bounds_witness :
  ("gt" ∈ spine (numberTypeToZodSchema demo_valueToExpression above_one) <->
   exclusiveMinimum above_one <> None) /\
  ("gte" ∈ spine (numberTypeToZodSchema demo_valueToExpression above_one) <->
   exclusiveMinimum above_one = None /\ minimum above_one <> None).
Proof.
  destruct (number_bounds demo_valueToExpression above_one) as (H1 & H2 & _).
  - intros c. discriminate.
  - split; assumption.
Defined.

Lemma propertyName_dash_witness :
  propertyName demo_numberRegExp "-1" = pn_text "'-1'".
Proof.
  apply (propertyName_dash demo_numberRegExp "-1"); reflexivity.
Defined.

Lemma propertyName_plain_witness :
  propertyName demo_numberRegExp "user_id" = pn_text "user_id".
Proof.
  apply (proj2 (propertyName_plain demo_numberRegExp "user_id" eq_refl)).
  left. reflexivity.
Defined.

(** *** Runs of [schemaToZodSchema] *)

Lemma emission_append_only_witness :
  (forall k n, names (file demo_store) !! k = Some n ->
               names (file cycle_store) !! k = Some n) /\
  exists added, nodes (file cycle_store) = nodes (file demo_store) ++ added.
Proof.
  apply (proj1 (emission_append_only (fun s => s) demo_valueToExpression
                  demo_numberRegExp (fun _ => None) (fun _ => None)
                  demo_uniqueName (demo_plugin cycle) 4)
           (componentArgs refA schemaA) demo_store cycle_expression cycle_store).
  vm_compute. reflexivity.
Defined.

(** A store whose state has met a circular reference. *)
Definition flagged_store : Store :=
  {| state := {| circularReferenceTracker := ∅; hasCircularReference := true;
                 nameCase := camelCase;
                 nameTransformer := name_pattern "z{{name}}" |};
     file := emptyFile |}.

Lemma circular_flag_sticky_witness :
  (hasCircularReference (state flagged_store) = true ->
   hasCircularReference (state flagged_store) = true) /\
  nameCase (state flagged_store) = nameCase (state flagged_store) /\
  nameTransformer (state flagged_store) = nameTransformer (state flagged_store).
Proof.
  apply (circular_flag_sticky (fun s => s) demo_valueToExpression
           demo_numberRegExp (fun _ => None) demo_uniqueName (demo_plugin [])
           1 (nested false (schemaOfType t_string)) flagged_store
           (z_call "string" []) flagged_store).
  reflexivity.
Defined.

Lemma leaf_is_pure_witness :
  exists e,
    (forall rec s,
       schemaToZodSchema_body (fun s => s) demo_valueToExpression
         demo_numberRegExp (fun _ => None) demo_uniqueName (demo_plugin [])
         rec (nested true emptySchema) s = Ok e s) /\
    (forall fuel s,
       demo_schemaToZodSchema [] (S fuel) (nested true emptySchema) s = Ok e s) /\
    (type emptySchema = None ->
     e = postModifiers demo_valueToExpression true emptySchema
           (z_call "unknown" [])).
Proof.
  apply (leaf_is_pure (fun s => s) demo_valueToExpression demo_numberRegExp
           (fun _ => None) demo_uniqueName (demo_plugin []) emptySchema true).
  - reflexivity.
  - discriminate.
  - discriminate.
  - discriminate.
  - reflexivity.
Defined.

(** The [schema] event for [Name = { type: 'string' }] on an empty
    file. *)
Lemma leaf_component_declared_witness :
  exists e s',
    demo_onComponent [] 1 "#/components/schemas/Name" (schemaOfType t_string)
      emptyFile = Ok e s' /\
    names (file s') =
    <[("#/components/schemas/Name", ns_value) :=
        demo_uniqueName ∅ ns_value camelCase (name_pattern "z{{name}}")
          "#/components/schemas/Name"]> ∅ /\
    nodes (file s') =
    [] ++
    [{| cv_comment := None;
        cv_exportConst := true;
        cv_expression := e;
        cv_name :=
          demo_uniqueName ∅ ns_value camelCase (name_pattern "z{{name}}")
            "#/components/schemas/Name";
        cv_typeName := None |}] /\
    ("#/components/schemas/Name" ∉ circularReferenceTracker (state s')) /\
    hasCircularReference (state s') = false.
Proof.
  apply (leaf_component_declared (fun s => s) demo_valueToExpression
           demo_numberRegExp (fun _ => None) demo_uniqueName (demo_plugin [])
           0 "#/components/schemas/Name" (schemaOfType t_string) emptyFile).
  - exact demo_uniqueName_nonempty.
  - discriminate.
  - reflexivity.
  - reflexivity.
  - discriminate.
  - discriminate.
  - discriminate.
  - discriminate.
Defined.

Example name_declared :
  option_map (fun s => nodes (file s))
    (final (demo_onComponent [] 1 "#/components/schemas/Name"
              (schemaOfType t_string) emptyFile)) =
  Some [{| cv_comment := None; cv_exportConst := true;
           cv_expression := z_call "string" []; cv_name := "zName";
           cv_typeName := None |}].
Proof. vm_compute. reflexivity. Qed.

(** [{ type: 'object', properties: { id: integer, name: string },
    required: ['id'] }] *)
Definition person : SchemaObject :=
  objectSchema [("id", schemaOfType t_integer); ("name", schemaOfType t_string)]
    ["id"].

Definition person_expression : Expression :=
  z_call "object"
    [Some (TsObjectLiteral
             [(pn_text "id", method (z_call "number" []) "int" []);
              (pn_text "name", method (z_call "string" []) "optional" [])])].

Lemma object_members_witness :
  Some "AnyZodObject" = Some "AnyZodObject" /\
  exists members,
    person_expression = z_call "object" [Some (TsObjectLiteral members)] /\
    Forall2
      (fun property member =>
         member.1 = propertyName demo_numberRegExp property.1 /\
         exists s1 s2,
           demo_schemaToZodSchema [] 1
             (nested
                (negb (bool_decide
                         (property.1 ∈ default [] (required person))))
                property.2) s1
           = Ok member.2 s2)
      (default [] (properties person)) members.
Proof.
  apply (object_members demo_numberRegExp (demo_schemaToZodSchema [] 1)
           person demo_store (Some "AnyZodObject") person_expression
           demo_store).
  vm_compute. reflexivity.
Defined.

(** [{ type: 'array', items: [string] }] and [{ items: [string, number],
    logicalOperator: 'or' }] *)
Definition tags : SchemaObject :=
  with_items [schemaOfType t_string] None (schemaOfType t_array).

Definition string_or_number : SchemaObject :=
  with_items [schemaOfType t_string; schemaOfType t_number] (Some op_or)
    emptySchema.

Lemma array_items_witness :
  exists its es,
    items tags = Some its /\
    Forall2
      (fun item ex =>
         exists s1 s2, demo_schemaToZodSchema [] 1 (nested false item) s1
                       = Ok ex s2) its es /\
    z_call "array" [Some (z_call "string" [])] =
    lengthRefinements demo_valueToExpression (minItems tags) (maxItems tags)
      (match es with
       | [one] => z_call "array" [Some one]
       | _ => z_call "array" [Some (z_call "union" [Some (TsArrayLiteral es)])]
       end).
Proof.
  apply (array_items (fun s => s) demo_valueToExpression
           (demo_schemaToZodSchema [] 1) tags demo_store
           (z_call "array" [Some (z_call "string" [])]) demo_store).
  - discriminate.
  - vm_compute. reflexivity.
Defined.

Lemma composition_shape_witness :
  (None : option string) = None /\ string_or_number = string_or_number /\
  exists es,
    Forall2
      (fun item ex =>
         exists s1 s2, demo_schemaToZodSchema [] 1 (nested false item) s1
                       = Ok ex s2)
      [schemaOfType t_string; schemaOfType t_number] es /\
    z_call "union"
      [Some (TsArrayLiteral [z_call "string" []; z_call "number" []])]
    = z_call "union" [Some (TsArrayLiteral es)].
Proof.
  apply (composition_shape (fun s => s) demo_valueToExpression
           demo_numberRegExp demo_uniqueName (demo_plugin [])
           (demo_schemaToZodSchema [] 1) string_or_number demo_store None
           (z_call "union"
              [Some (TsArrayLiteral [z_call "string" []; z_call "number" []])])
           string_or_number demo_store).
  - reflexivity.
  - reflexivity.
  - discriminate.
  - vm_compute. reflexivity.
Defined.

(** The [schema] event for [B], after the one for [A]. *)
Definition second_run : Result Expression :=
  demo_schemaToZodSchema cycle 4 (componentArgs refB schemaB)
    {| state := demo_state; file := file cycle_store |}.

Lemma emission_idempotent_witness :
  file (default demo_store (final second_run)) = file cycle_store.
Proof.
  apply (emission_idempotent (fun s => s) demo_valueToExpression
           demo_numberRegExp (fun _ => None) demo_uniqueName
           (demo_plugin cycle) refA schemaA demo_store 4 cycle_expression
           cycle_store refB schemaB demo_state 4
           (default zIdentifier (returned second_run))
           (default demo_store (final second_run))).
  - exact demo_uniqueName_nonempty.
  - exact demo_uniqueName_fresh.
  - reflexivity.
  - discriminate.
  - exact demo_store_Inv.
  - apply demo_store_Decls.
  - intros H. apply elem_of_empty in H. destruct H.
  - vm_compute. reflexivity.
  - exact cycle_reachable.
  - reflexivity.
  - vm_compute. reflexivity.
Defined.

(** The plugin with requests only, and the [operation] event for
    [getPets] on an empty file. *)
Definition requests_only : Plugin :=
  {| config :=
       {| comments := false; metadata := true;
          definitions_case := camelCase;
          definitions_name := name_pattern "z{{name}}";
          requests_enabled := true; requests_case := camelCase;
          requests_name := name_pattern "z{{name}}Data";
          responses_enabled := false; responses_case := camelCase;
          responses_name := name_pattern "z{{name}}Response" |};
     components := ∅ |}.

Definition request_run : Result unit :=
  operationToZodSchema (fun s => s) demo_valueToExpression demo_numberRegExp
    (fun _ => None) (fun _ => None) demo_uniqueName requests_only 3
    header_only
    {| state := newState requests_only; file := emptyFile |}.

Definition request_store : Store := default demo_store (final request_run).

Lemma operation_request_declared_witness :
  names (file request_store) !! ("#/zod-data/getPets", ns_value)
  = Some "zgetPets" /\
  exists decl members,
    last (nodes (file request_store)) = Some decl /\
    cv_name decl = "zgetPets" /\
    cv_expression decl = z_call "object" [Some (TsObjectLiteral members)] /\
    map fst members =
    map (propertyName demo_numberRegExp) ["body"; "headers"; "path"; "query"].
Proof.
  apply (operation_request_declared (fun s => s) demo_valueToExpression
           demo_numberRegExp (fun _ => None) (fun _ => None) demo_uniqueName
           requests_only 3 header_only
           {| state := newState requests_only; file := emptyFile |}
           request_store).
  - exact demo_uniqueName_nonempty.
  - reflexivity.
  - reflexivity.
  - reflexivity.
  - vm_compute. reflexivity.
Defined.

End Zod.

(** ** Mutation options of the Pinia Colada plugin *)

Module Colada.
Import IR.

(** The nodes [tsc] is asked for.  An expression may be given as a
    string ([NText]). *)
Record FunctionParameter := {
  isRequired : option bool;
  parameter_name : string;
  parameter_type : string;
}.

Inductive Node :=
| NText (text : string)
| NAwaitExpression (expression : Node)
| NCallExpression (functionName : string) (parameters : list Node)
| NReturnVariable (expression : Node)
| NReturnStatement (expression : Node)
| NConstVariable (comment : option (list string)) (destructure : bool)
    (exportConst : bool) (expression : Node) (name : string)
| NArrowFunction (async multiLine : bool) (parameters : list FunctionParameter)
    (statements : list Node)
| NObjectExpression (obj : list (string * Node)).

(** The generated file: the names of its identifier service, by pointer,
    and its nodes. *)
Record GeneratedFile := {
  names : gmap string string;
  nodes : list Node;
}.

Section Mutation.

(** What is left of [PluginState], which this function does not touch. *)
Context {Rest : Type}.

Record PluginState := {
  hasMutations : bool;
  hasUsedQueryFn : bool;
  rest : Rest;
}.

(** The plugin: [config.mutationOptions.enabled], [.case] and [.name],
    [config.comments], and [getPlugin('@hey-api/sdk')?.config
    .responseStyle]. *)
Record Plugin := {
  mutationOptions_enabled : bool;
  mutationOptions_case : StringCase;
  mutationOptions_name : string;
  comments : bool;
  sdk_responseStyle : option string;
}.

(** Parts that are not among the sources: the hook
    [plugin.hooks.operation.isMutation]; [useTypeData], which may add to
    the file; [handleMeta]; [isOperationOptionsRequired];
    [createOperationComment]; and the naming of the identifier
    service. *)
Variable isMutation : OperationObject -> bool.
Variable useTypeData : OperationObject -> GeneratedFile -> string * GeneratedFile.
Variable handleMeta : OperationObject -> option Node.
Variable isOperationOptionsRequired : OperationObject -> bool.
Variable createOperationComment : OperationObject -> option (list string).
Variable uniqueName :
  gmap string string -> StringCase -> string -> string -> string.

(** Modelled from the spec: [file.identifier] with [create: true] in the
    namespace [value]; an existing name for the pointer is returned, a
    new one is recorded. *)
Definition identifier (r : string) (case : StringCase) (transformer : string)
    (file : GeneratedFile) : string * GeneratedFile :=
  match names file !! r with
  | Some n => (n, file)
  | None =>
      let n := uniqueName (names file) case transformer r in
      (n, {| names := <[r := n]> (names file); nodes := nodes file |})
  end.

Definition createMutationOptions (plugin : Plugin) (queryFn : string)
    (operation : OperationObject) (state : PluginState) (file : GeneratedFile)
  : PluginState * GeneratedFile :=
  if (negb (mutationOptions_enabled plugin) || negb (isMutation operation))%bool
  then (state, file)
  else
    let state :=
      {| hasMutations := true; hasUsedQueryFn := true; rest := rest state |} in
    let '(typeData, file) := useTypeData operation file in
    let '(identifierMutationOptions, file) :=
      identifier ("#/pinia-colada-mutation-options/" ++ op_id operation)%string
        (mutationOptions_case plugin) (mutationOptions_name plugin) file in
    let awaitSdkExpression :=
      NAwaitExpression (NCallExpression queryFn [NText "options"]) in
    let statements :=
      if decide (sdk_responseStyle plugin = Some "data")
      then [NReturnVariable awaitSdkExpression]
      else [NConstVariable None true false awaitSdkExpression "data";
            NReturnVariable (NText "data")] in
    let mutationOptionsObj :=
      [("mutation",
        NArrowFunction true true
          [{| isRequired := None; parameter_name := "options";
              parameter_type := typeData |}]
          statements)]
      ++ match handleMeta operation with
         | Some meta => [("meta", meta)]
         | None => []
         end in
    let statement :=
      NConstVariable
        (if comments plugin then createOperationComment operation else None)
        false true
        (NArrowFunction false false
           [{| isRequired := Some (isOperationOptionsRequired operation);
               parameter_name := "options"; parameter_type := typeData |}]
           [NReturnStatement (NObjectExpression mutationOptionsObj)])
        identifierMutationOptions in
    (state, {| names := names file; nodes := nodes file ++ [statement] |}).

(** The calls for the operations of a list, in order. *)
Definition createAll (plugin : Plugin) (queryFn : string)
    (operations : list OperationObject) (state : PluginState)
    (file : GeneratedFile) : PluginState * GeneratedFile :=
  fold_left
    (fun acc operation =>
       createMutationOptions plugin queryFn operation acc.1 acc.2)
    operations (state, file).

(** The operations options are made for. *)
Definition mutations (plugin : Plugin) (operations : list OperationObject)
  : list OperationObject :=
  if mutationOptions_enabled plugin
  then filter (fun operation => isMutation operation = true) operations
  else [].

Lemma createMutationOptions_step plugin queryFn operation state file :
  let result := createMutationOptions plugin queryFn operation state file in
  let made := mutations plugin [operation] in
  rest result.1 = rest state /\
  hasMutations result.1 = (hasMutations state || bool_decide (made <> []))%bool /\
  hasUsedQueryFn result.1
  = (hasUsedQueryFn state || bool_decide (made <> []))%bool /\
  (made = [] -> result = (state, file)) /\
  ((forall o g, length (nodes (useTypeData o g).2) = length (nodes g)) ->
   length (nodes result.2) = length (nodes file) + length made).
Proof.
  unfold createMutationOptions, mutations. cbv zeta.
  destruct (mutationOptions_enabled plugin); simpl.
  2: { rewrite !orb_false_r. repeat split; auto. }
  rewrite filter_cons, filter_nil.
  destruct (isMutation operation); simpl.
  2: { destruct (decide (false = true)) as [E|_]; [discriminate E|].
       simpl. rewrite !orb_false_r. repeat split; auto. }
  destruct (decide (true = true)) as [_|E]; [|destruct (E eq_refl)].
  destruct (useTypeData operation file) as [typeData file1] eqn:Eu.
  unfold identifier.
  destruct (names file1 !! _) as [n|]; simpl; rewrite !orb_true_r;
    (split; [reflexivity|]; split; [reflexivity|]; split; [reflexivity|];
     split; [discriminate|]; intros Hu; rewrite length_app; simpl;
     specialize (Hu operation file); rewrite Eu in Hu; simpl in Hu; lia).
Qed.

(** X28.  Over the operations of a document: options are made for the
    operations [isMutation] accepts, when mutation options are enabled,
    and for no other.  [hasMutations] and [hasUsedQueryFn] are set when
    options were made for one, and are never cleared; the rest of the
    state stays.  When options are made for none, state and file are
    untouched.  When [useTypeData] adds no node of its own, the file
    grows by one node for each operation options are made for. *)
Theorem createAll_effect plugin queryFn operations state file :
  let result := createAll plugin queryFn operations state file in
  let made := mutations plugin operations in
  rest result.1 = rest state /\
  hasMutations result.1 = (hasMutations state || bool_decide (made <> []))%bool /\
  hasUsedQueryFn result.1
  = (hasUsedQueryFn state || bool_decide (made <> []))%bool /\
  (made = [] -> result = (state, file)) /\
  ((forall o g, length (nodes (useTypeData o g).2) = length (nodes g)) ->
   length (nodes result.2) = length (nodes file) + length made).
Proof.
  cbv zeta. unfold createAll.
  induction operations as [|operation operations IH] using rev_ind.
  - unfold mutations. simpl. destruct (mutationOptions_enabled plugin);
      simpl; rewrite !orb_false_r; repeat split; auto.
  - rewrite fold_left_app. simpl.
    set (before := fold_left _ operations (state, file)) in *.
    destruct IH as (Hr & Hm & Hq & Hnone & Hlen).
    pose proof (createMutationOptions_step plugin queryFn operation
                  before.1 before.2) as H.
    cbv zeta in H. destruct H as (Hr' & Hm' & Hq' & Hnone' & Hlen').
    assert (Hmade : mutations plugin (operations ++ [operation])
                    = mutations plugin operations
                      ++ mutations plugin [operation]).
    { unfold mutations. destruct (mutationOptions_enabled plugin);
        [apply filter_app|reflexivity]. }
    rewrite Hmade.
    assert (Hb : bool_decide
                   (mutations plugin operations
                    ++ mutations plugin [operation] <> [])
                 = (bool_decide (mutations plugin operations <> [])
                    || bool_decide (mutations plugin [operation] <> []))%bool).
    { destruct (mutations plugin operations), (mutations plugin [operation]);
        reflexivity. }
    rewrite Hb. split; [congruence|].
    split; [rewrite Hm', Hm, orb_assoc; reflexivity|].
    split; [rewrite Hq', Hq, orb_assoc; reflexivity|].
    split.
    + intros E. apply app_eq_nil in E as [E1 E2].
      rewrite (Hnone' E2). rewrite <- (Hnone E1). destruct before; reflexivity.
    + intros Hu. rewrite (Hlen' Hu), (Hlen Hu), length_app. lia.
Qed.

End Mutation.

End Colada.
